(** * StateManager.h: the hierarchical suspend/resume engine

    A shallow embedding of [struct FunctionState] and [class StateManager]
    of [StateManager.h] (built without [DEBUG_STATE], as the header ships).

    The C++ objects live on the free store and are linked by raw pointers,
    so the engine is modelled over an explicit heap: a finite map from
    addresses to frames.  [new] picks an address that is not allocated,
    [delete] removes one, and dereferencing a null pointer or an address
    that is not allocated is undefined behaviour, reported as a fault.
    Every member function is a computation in a small state-and-fault
    monad over the engine state. *)

From Stdlib Require Import ZArith Lia Ascii.
From stdpp Require Import base option numbers strings list gmap fin_maps pretty.

Local Open Scope Z_scope.
#[local] Set Warnings "-clear-no-such-hyp".

(** ** Step constants (lines 7-20) *)

Definition stepStart : Z := 1.
Definition stepListen : Z := 2.
Definition stepSend : Z := 3.
Definition stepReceive : Z := 4.
Definition stepPower : Z := 5.
Definition stepTimeout : Z := 6.
Definition stepEnd : Z := 7.
Definition stepTest1 : Z := 91.
Definition stepTest2 : Z := 92.
Definition stepTest3 : Z := 93.
Definition stepTest4 : Z := 94.

Definition stepSuccess : Z := 101.
Definition stepFailure : Z := 102.

(** The application step constants the header defines. *)
Definition applicationSteps : list Z :=
  [stepStart; stepListen; stepSend; stepReceive; stepPower; stepTimeout;
   stepEnd; stepTest1; stepTest2; stepTest3; stepTest4].

(** ** Machine integers

    [uint8_t], [int] and [unsigned long] values are carried as [Z].  The
    only arithmetic in the header is [millis() + delay] on [unsigned long],
    32 bits wide on the Arduino boards the library targets. *)

Definition ulong_modulus : Z := 2 ^ 32.
Definition ulong_add (x y : Z) : Z := (x + y) mod ulong_modulus.

(** ** Frames (lines 22-37) *)

Definition addr := positive.

(** A [FunctionState *]: [None] is the null pointer. *)
Abbreviation ptr := (option addr).

Record FunctionState := mkFunctionState {
  functionName : string;
  parentState : ptr;
  childState : ptr;
  currentStep : Z;
  nextStep : Z;
  delayUntil : Z;
  int1 : Z;
  uint1 : Z;
  ulong1 : Z;
  string1 : string
}.

(** [FunctionState()] with the default member initialisers. *)
Definition newFunctionState : FunctionState :=
  mkFunctionState "" None None 0 0 0 0 0 0 "".

Definition set_functionName (v : string) (F : FunctionState) :=
  mkFunctionState v (parentState F) (childState F) (currentStep F)
    (nextStep F) (delayUntil F) (int1 F) (uint1 F) (ulong1 F) (string1 F).
Definition set_parentState (v : ptr) (F : FunctionState) :=
  mkFunctionState (functionName F) v (childState F) (currentStep F)
    (nextStep F) (delayUntil F) (int1 F) (uint1 F) (ulong1 F) (string1 F).
Definition set_childState (v : ptr) (F : FunctionState) :=
  mkFunctionState (functionName F) (parentState F) v (currentStep F)
    (nextStep F) (delayUntil F) (int1 F) (uint1 F) (ulong1 F) (string1 F).
Definition set_currentStep (v : Z) (F : FunctionState) :=
  mkFunctionState (functionName F) (parentState F) (childState F) v
    (nextStep F) (delayUntil F) (int1 F) (uint1 F) (ulong1 F) (string1 F).
Definition set_nextStep (v : Z) (F : FunctionState) :=
  mkFunctionState (functionName F) (parentState F) (childState F)
    (currentStep F) v (delayUntil F) (int1 F) (uint1 F) (ulong1 F) (string1 F).
Definition set_delayUntil (v : Z) (F : FunctionState) :=
  mkFunctionState (functionName F) (parentState F) (childState F)
    (currentStep F) (nextStep F) v (int1 F) (uint1 F) (ulong1 F) (string1 F).
Definition set_int1 (v : Z) (F : FunctionState) :=
  mkFunctionState (functionName F) (parentState F) (childState F)
    (currentStep F) (nextStep F) (delayUntil F) v (uint1 F) (ulong1 F) (string1 F).
Definition set_uint1 (v : Z) (F : FunctionState) :=
  mkFunctionState (functionName F) (parentState F) (childState F)
    (currentStep F) (nextStep F) (delayUntil F) (int1 F) v (ulong1 F) (string1 F).
Definition set_ulong1 (v : Z) (F : FunctionState) :=
  mkFunctionState (functionName F) (parentState F) (childState F)
    (currentStep F) (nextStep F) (delayUntil F) (int1 F) (uint1 F) v (string1 F).
Definition set_string1 (v : string) (F : FunctionState) :=
  mkFunctionState (functionName F) (parentState F) (childState F)
    (currentStep F) (nextStep F) (delayUntil F) (int1 F) (uint1 F) (ulong1 F) v.

(** ** Engine state

    [heap] is the free store restricted to frames, [currentState] the
    member of that name, [serial] what has been written to [Serial]
    (oldest line first). *)

Record StateManager := mkStateManager {
  heap : gmap addr FunctionState;
  currentState : ptr;
  serial : list string
}.

(** A freshly constructed engine on an empty free store. *)
Definition emptyEngine : StateManager := mkStateManager ∅ None [].

(** ** The monad of member functions *)

Inductive fault := NullDereference | UseAfterFree.

Inductive outcome (A : Type) :=
| Done (x : A) (s : StateManager)
| Undefined (e : fault).
Arguments Done {A} x s.
Arguments Undefined {A} e.

Definition M (A : Type) : Type := StateManager → outcome A.

Definition ret {A} (x : A) : M A := λ s, Done x s.
Definition bind {A B} (m : M A) (k : A → M B) : M B :=
  λ s, match m s with
       | Done x s' => k x s'
       | Undefined e => Undefined e
       end.

Notation "x <- m ;; k" := (bind m (λ x, k))
  (at level 100, m at next level, right associativity).
Notation "m ;;; k" := (bind m (λ _, k))
  (at level 100, right associativity).

(** Reading and writing the [currentState] member. *)
Definition getCurrent : M ptr := λ s, Done (currentState s) s.
Definition setCurrent (p : ptr) : M unit :=
  λ s, Done tt (mkStateManager (heap s) p (serial s)).

(** [*p]: read the frame [p] points to. *)
Definition load (p : ptr) : M FunctionState :=
  λ s, match p with
       | None => Undefined NullDereference
       | Some a => match heap s !! a with
                   | Some F => Done F s
                   | None => Undefined UseAfterFree
                   end
       end.

(** [p->field = v], with [g] the field update. *)
Definition store (p : ptr) (g : FunctionState → FunctionState) : M unit :=
  λ s, match p with
       | None => Undefined NullDereference
       | Some a => match heap s !! a with
                   | Some F => Done tt (mkStateManager (<[a := g F]> (heap s))
                                          (currentState s) (serial s))
                   | None => Undefined UseAfterFree
                   end
       end.

(** [new FunctionState()]: an address that is not allocated. *)
Definition new : M ptr :=
  λ s, let a := fresh (dom (heap s)) in
       Done (Some a) (mkStateManager (<[a := newFunctionState]> (heap s))
                        (currentState s) (serial s)).

(** [delete p].  [FunctionState] has no destructor, so only the frame
    itself is released; deleting the null pointer does nothing. *)
Definition delete_ (p : ptr) : M unit :=
  λ s, match p with
       | None => Done tt s
       | Some a => match heap s !! a with
                   | Some _ => Done tt (mkStateManager (delete a (heap s))
                                          (currentState s) (serial s))
                   | None => Undefined UseAfterFree
                   end
       end.

(** [Serial.print(..); Serial.println(..)]: one line of output. *)
Definition println (line : string) : M unit :=
  λ s, Done tt (mkStateManager (heap s) (currentState s) (serial s ++ [line])).

(** ** Member functions *)

(** [createState] (lines 155-165). *)
Definition createState (name : string) (firstStep : Z) (parent : ptr) : M ptr :=
  state <- new ;;
  store state (set_functionName name) ;;;
  store state (set_currentStep firstStep) ;;;
  store state (set_parentState parent) ;;;
  ret state.

(** [destroy] (lines 53-63). *)
Definition destroy : M unit :=
  cur <- getCurrent ;;
  match cur with
  | None => ret tt
  | Some _ =>
      F <- load cur ;;
      let child := childState F in
      (match child with
       | Some _ => delete_ child ;;; store cur (set_childState None)
       | None => ret tt
       end) ;;;
      delete_ cur ;;;
      setCurrent None
  end.

(** [init] (lines 48-51) and the destructor (lines 44-46). *)
Definition init : M unit := destroy.
Definition destructor : M unit := destroy.

(** [getStatus] (lines 65-69). *)
Definition getStatus : M Z :=
  cur <- getCurrent ;;
  match cur with
  | None => ret 0
  | Some _ => F <- load cur ;; ret (currentStep F)
  end.

(** [resetDelay] (lines 71-76). *)
Definition resetDelay : M Z :=
  cur <- getCurrent ;;
  F <- load cur ;;
  let d := delayUntil F in
  store cur (set_delayUntil 0) ;;;
  ret d.

(** [begin] (lines 78-109). *)
Definition begin (name : string) (firstStep : Z) : M Z :=
  cur <- getCurrent ;;
  (match cur with
   | None =>
       root <- createState name firstStep None ;;
       setCurrent root
   | Some _ =>
       F <- load cur ;;
       if decide (functionName F = name) then ret tt
       else
         let child := childState F in
         mismatch <- (match child with
                      | None => ret true
                      | Some _ =>
                          C <- load child ;;
                          ret (bool_decide (functionName C ≠ name))
                      end) ;;
         if mismatch : bool then
           (match child with
            | Some _ => delete_ child
            | None => ret tt
            end) ;;;
           fresh_child <- createState name firstStep cur ;;
           store cur (set_childState fresh_child) ;;;
           setCurrent fresh_child
         else setCurrent child
   end) ;;;
  cur <- getCurrent ;;
  F <- load cur ;;
  ret (currentStep F).

(** [setState] and [getState] overloads (lines 112-120). *)
Definition setState_int (v : Z) : M unit :=
  cur <- getCurrent ;; store cur (set_int1 v).
Definition setState_uint8 (v : Z) : M unit :=
  cur <- getCurrent ;; store cur (set_uint1 v).
Definition setState_ulong (v : Z) : M unit :=
  cur <- getCurrent ;; store cur (set_ulong1 v).
Definition setState_String (v : string) : M unit :=
  cur <- getCurrent ;; store cur (set_string1 v).

Definition getState_int : M Z :=
  cur <- getCurrent ;; F <- load cur ;; ret (int1 F).
Definition getState_uint8 : M Z :=
  cur <- getCurrent ;; F <- load cur ;; ret (uint1 F).
Definition getState_ulong : M Z :=
  cur <- getCurrent ;; F <- load cur ;; ret (ulong1 F).
Definition getState_String : M string :=
  cur <- getCurrent ;; F <- load cur ;; ret (string1 F).

(** [popState] (lines 167-186). *)
Definition popState (currentStep0 nextStep0 : Z) : M unit :=
  cur <- getCurrent ;;
  match cur with
  | None => ret tt
  | Some _ =>
      store cur (set_currentStep currentStep0) ;;;
      store cur (set_nextStep nextStep0) ;;;
      F <- load cur ;;
      (if bool_decide (nextStep0 ≠ 0) && bool_decide (childState F = None) then
         store cur (set_currentStep nextStep0) ;;;
         store cur (set_nextStep 0)
       else ret tt) ;;;
      F <- load cur ;;
      match parentState F with
      | Some _ => setCurrent (parentState F)
      | None => ret tt
      end
  end.

(** [transitionState] (lines 188-222). *)
Definition transitionState : M bool :=
  cur <- getCurrent ;;
  F <- load cur ;;
  let child := childState F in
  match child with
  | None => ret false
  | Some _ =>
      C <- load child ;;
      (if bool_decide (delayUntil C ≠ 0) then
         store cur (set_delayUntil (delayUntil C)) ;;;
         store child (set_delayUntil 0)
       else ret tt) ;;;
      C <- load child ;;
      if bool_decide (currentStep C ≠ stepSuccess)
         && bool_decide (currentStep C ≠ stepFailure) then ret false
      else
        (if bool_decide (currentStep C = stepFailure) then
           println ("###### STEP FAILED: " +:+ functionName C) ;;;
           store cur (set_currentStep stepFailure)
         else
           F <- load cur ;;
           store cur (set_currentStep (nextStep F)) ;;;
           store cur (set_nextStep 0)) ;;;
        delete_ child ;;;
        store cur (set_childState None) ;;;
        ret true
  end.

(** [suspend(nextStep, delay)] (lines 122-135); [now] is what [millis()]
    returns during the call. *)
Definition suspend (now : Z) (nextStep0 delay : Z) : M bool :=
  cur <- getCurrent ;;
  F <- load cur ;;
  popState (currentStep F) nextStep0 ;;;
  (if bool_decide (delay > 0) then
     cur <- getCurrent ;;
     store cur (set_delayUntil (ulong_add now delay))
   else ret tt) ;;;
  transitionState ;;;
  cur <- getCurrent ;;
  F <- load cur ;;
  if bool_decide (currentStep F = stepFailure) then ret false else ret true.

(** [suspend()] (lines 137-141): the delay takes its default, 0. *)
Definition suspend0 (now : Z) : M bool :=
  cur <- getCurrent ;;
  F <- load cur ;;
  suspend now (currentStep F) 0.

(** [end(status)] (lines 143-152); [end] is a keyword here. *)
Definition end_ (status : bool) : M bool :=
  (if status then popState stepSuccess 0 else popState stepFailure 0) ;;;
  transitionState ;;;
  ret status.

(** * Calls and traces *)

(** The three ways a frame hands control back: [suspend(nextStep, delay)],
    [suspend()] and [end(status)]. *)
Inductive ascension :=
| Suspend (now nextStep0 delay : Z)
| Suspend0 (now : Z)
| End (status : bool).

(** Running one, and several in a row. *)
Definition ascend (op : ascension) : M bool :=
  match op with
  | Suspend now n d => suspend now n d
  | Suspend0 now => suspend0 now
  | End status => end_ status
  end.

Fixpoint ascendAll (ops : list ascension) : M unit :=
  match ops with
  | [] => ret tt
  | op :: ops' => ascend op ;;; ascendAll ops'
  end.

(** [n] further [begin] calls in a row, with the steps they return. *)
Fixpoint beginAgain (name : string) (firstStep : Z) (n : nat) : M (list Z) :=
  match n with
  | O => ret []
  | S n' =>
      r <- begin name firstStep ;;
      rs <- beginAgain name firstStep n' ;;
      ret (r :: rs)
  end.

(** [if (delay > 0) currentState->delayUntil = millis() + delay;] *)
Definition recordDelay (now delay : Z) : M unit :=
  if bool_decide (delay > 0) then
    cur <- getCurrent ;;
    store cur (set_delayUntil (ulong_add now delay))
  else ret tt.

(** The transition check and the report that end [suspend]: with
    [popState] they are its three phases. *)
Definition checkTransition : M bool :=
  transitionState ;;;
  cur <- getCurrent ;;
  F <- load cur ;;
  if bool_decide (currentStep F = stepFailure) then ret false else ret true.

(** An ascension that hands a failed frame's status on unchanged:
    [end(false)], the plain yield [suspend()], or a [suspend] that names
    [stepFailure] as the step to continue at. *)
Definition keepsFailure (op : ascension) : Prop :=
  match op with
  | End status => status = false
  | Suspend0 _ => True
  | Suspend _ n _ => n = stepFailure
  end.

(** ** The member functions as one interface *)

Inductive value :=
| VVoid
| VNum (z : Z)
| VBool (b : bool)
| VString (t : string)
| VPtr (p : ptr).

Inductive method :=
| Destructor
| Init
| Destroy
| GetStatus
| ResetDelay
| Begin (name : string) (firstStep : Z)
| SetStateInt (v : Z)
| SetStateUint8 (v : Z)
| SetStateUlong (v : Z)
| SetStateString (v : string)
| GetStateInt
| GetStateUint8
| GetStateUlong
| GetStateString
| Ascend (op : ascension)
| CreateState (name : string) (firstStep : Z) (parent : ptr)
| PopState (currentStep0 nextStep0 : Z)
| TransitionState.

(** [createState], [popState] and [transitionState] are private. *)
Definition isPublic (m : method) : bool :=
  match m with
  | CreateState _ _ _ | PopState _ _ | TransitionState => false
  | _ => true
  end.

Definition lift {A} (f : A → value) (m : M A) : M value := x <- m ;; ret (f x).

Definition call (m : method) : M value :=
  match m with
  | Destructor => lift (λ _, VVoid) destructor
  | Init => lift (λ _, VVoid) init
  | Destroy => lift (λ _, VVoid) destroy
  | GetStatus => lift VNum getStatus
  | ResetDelay => lift VNum resetDelay
  | Begin name k => lift VNum (begin name k)
  | SetStateInt v => lift (λ _, VVoid) (setState_int v)
  | SetStateUint8 v => lift (λ _, VVoid) (setState_uint8 v)
  | SetStateUlong v => lift (λ _, VVoid) (setState_ulong v)
  | SetStateString v => lift (λ _, VVoid) (setState_String v)
  | GetStateInt => lift VNum getState_int
  | GetStateUint8 => lift VNum getState_uint8
  | GetStateUlong => lift VNum getState_ulong
  | GetStateString => lift VString getState_String
  | Ascend op => lift VBool (ascend op)
  | CreateState name k parent => lift VPtr (createState name k parent)
  | PopState c n => lift (λ _, VVoid) (popState c n)
  | TransitionState => lift VBool transitionState
  end.

(** The engines a program can produce: the fresh engine and whatever a
    public member function returns on a reachable engine. *)
Inductive reachable : StateManager → Prop :=
| reachable_fresh : reachable emptyEngine
| reachable_call m s v s' :
    reachable s → isPublic m = true → call m s = Done v s' → reachable s'.

(** [destroy] and its two callers are the only calls that leave the
    engine without a current frame. *)
Definition releases (m : method) : bool :=
  match m with
  | Destructor | Init | Destroy => true
  | _ => false
  end.

(** With no current frame, which member functions return and which
    dereference the null pointer. *)
Definition handlesNoFrame (m : method) : bool :=
  match m with
  | Destructor | Init | Destroy | GetStatus | Begin _ _
  | PopState _ _ | CreateState _ _ _ => true
  | _ => false
  end.

(** The member functions that read through [currentState] first thing:
    [resetDelay], the [setState] and [getState] overloads, and both
    [suspend] overloads. *)
Definition readsCurrentFrame (m : method) : bool :=
  match m with
  | ResetDelay
  | SetStateInt _ | SetStateUint8 _ | SetStateUlong _ | SetStateString _
  | GetStateInt | GetStateUint8 | GetStateUlong | GetStateString
  | Ascend (Suspend _ _ _) | Ascend (Suspend0 _) => true
  | _ => false
  end.

(** * The frame chain

    The frames the engine can reach form a simple path through the current
    frame: [ancestry] walks the parent pointers up to the root, [descent]
    the child pointers down to the innermost frame.  Frames that were
    leaked stay in the heap but are on neither walk. *)

Fixpoint ancestry (h : gmap addr FunctionState) (a : addr) (ups : list addr) : Prop :=
  match ups with
  | [] => ∃ F, h !! a = Some F ∧ parentState F = None
  | p :: ups' =>
      ∃ F P, h !! a = Some F ∧ parentState F = Some p
             ∧ h !! p = Some P ∧ childState P = Some a
             ∧ ancestry h p ups'
  end.

Fixpoint descent (h : gmap addr FunctionState) (a : addr) (downs : list addr) : Prop :=
  match downs with
  | [] => ∃ F, h !! a = Some F ∧ childState F = None
  | c :: downs' =>
      ∃ F C, h !! a = Some F ∧ childState F = Some c
             ∧ h !! c = Some C ∧ parentState C = Some a
             ∧ descent h c downs'
  end.

(** An engine is well formed when it has no current frame, or when both
    walks from the current frame succeed and never meet a frame twice. *)
Definition wf (s : StateManager) : Prop :=
  match currentState s with
  | None => True
  | Some a =>
      ∃ ups downs, NoDup (a :: ups ++ downs)
                   ∧ ancestry (heap s) a ups ∧ descent (heap s) a downs
  end.

(** * Closed forms

    What the member functions compute, frame by frame; the lemmas below
    relate each of them to the code. *)

(** The frame [popState] leaves behind. *)
Definition popFrame (currentStep0 nextStep0 : Z) (F : FunctionState) : FunctionState :=
  let F1 := set_nextStep nextStep0 (set_currentStep currentStep0 F) in
  if bool_decide (nextStep0 ≠ 0) && bool_decide (childState F = None)
  then set_nextStep 0 (set_currentStep nextStep0 F1)
  else F1.

(** The frame [createState] builds. *)
Definition createdFrame (name : string) (firstStep : Z) (parent : ptr) : FunctionState :=
  set_parentState parent (set_currentStep firstStep (set_functionName name newFunctionState)).

(** The parent after its child's delay has been moved up. *)
Definition bubbleDelay (C P : FunctionState) : FunctionState :=
  if bool_decide (delayUntil C ≠ 0) then set_delayUntil (delayUntil C) P else P.

(** Has the child reached a terminal step? *)
Definition finished (C : FunctionState) : bool :=
  negb (bool_decide (currentStep C ≠ stepSuccess)
        && bool_decide (currentStep C ≠ stepFailure)).

(** The parent after it has consumed a finished child. *)
Definition transitionFrame (C P : FunctionState) : FunctionState :=
  let P1 := bubbleDelay C P in
  set_childState None
    (if bool_decide (currentStep C = stepFailure)
     then set_currentStep stepFailure P1
     else set_nextStep 0 (set_currentStep (nextStep P1) P1)).

(** What the failure branch writes to [Serial]. *)
Definition transitionOutput (C : FunctionState) : list string :=
  if bool_decide (currentStep C = stepFailure)
  then ["###### STEP FAILED: " +:+ functionName C] else [].

(** The frame the ascension leaves behind before control moves up. *)
Definition poppedFrame (op : ascension) (F : FunctionState) : FunctionState :=
  match op with
  | Suspend _ n _ => popFrame (currentStep F) n F
  | Suspend0 _ => popFrame (currentStep F) (currentStep F) F
  | End status => popFrame (if status then stepSuccess else stepFailure) 0 F
  end.

(** The ascended-to frame once the requested delay has been recorded. *)
Definition delayedFrame (op : ascension) (P : FunctionState) : FunctionState :=
  match op with
  | Suspend now _ d =>
      if bool_decide (d > 0) then set_delayUntil (ulong_add now d) P else P
  | Suspend0 _ | End _ => P
  end.

(** What [suspend] reports for the frame it ends on. *)
Definition notFailed (G : FunctionState) : bool :=
  if bool_decide (currentStep G = stepFailure) then false else true.

(** What an ascension returns, given the frame it ends on. *)
Definition ascendResult (op : ascension) (G : FunctionState) : bool :=
  match op with
  | Suspend _ _ _ | Suspend0 _ => notFailed G
  | End status => status
  end.

(** The engine after the transition check on parent [p] over child [a]. *)
Definition transitioned (h : gmap addr FunctionState) (out : list string)
    (p a : addr) (P C : FunctionState) : StateManager :=
  if finished C
  then mkStateManager (<[p := transitionFrame C P]> (delete a h))
         (Some p) (out ++ transitionOutput C)
  else mkStateManager (<[a := set_delayUntil 0 C]> (<[p := bubbleDelay C P]> h))
         (Some p) out.

(** The ascended-to frame after the transition check. *)
Definition transitionedParent (P C : FunctionState) : FunctionState :=
  if finished C then transitionFrame C P else bubbleDelay C P.

(** The engine after the transition check of a root frame [F1] at [a] on
    itself. *)
Definition rootTransitioned (h : gmap addr FunctionState) (out : list string)
    (a : addr) (F1 : FunctionState) : StateManager :=
  match childState F1 with
  | None => mkStateManager (<[a := F1]> h) (Some a) out
  | Some c =>
      match h !! c with
      | Some C => transitioned h out a c F1 C
      | None => mkStateManager (<[a := F1]> h) (Some a) out
      end
  end.

(** The root frame after that check. *)
Definition rootTransitionedFrame (h : gmap addr FunctionState)
    (F1 : FunctionState) : FunctionState :=
  match childState F1 with
  | None => F1
  | Some c =>
      match h !! c with
      | Some C => transitionedParent F1 C
      | None => F1
      end
  end.

(** * Example engines

    [stateOf] reads the engine out of a completed call, so that traces of
    calls from the fresh engine can be named; [frameAt] reads a frame. *)

Definition stateOf {A} (o : outcome A) : StateManager :=
  match o with
  | Done _ s => s
  | Undefined _ => emptyEngine
  end.

Definition frameAt (s : StateManager) (a : addr) : FunctionState :=
  default newFunctionState (heap s !! a).

(** [begin("A", 1)] on the fresh engine. *)
Definition engineA : StateManager := stateOf (begin "A" 1 emptyEngine).
(** ... then [begin("B", 1)]: [A] has called [B]. *)
Definition engineAB : StateManager := stateOf (begin "B" 1 engineA).
(** ... then [begin("C", 1)]: [B] has called [C]. *)
Definition engineABC : StateManager := stateOf (begin "C" 1 engineAB).

(** ... then [end(false)]: [B] has failed and [A], now current, stands at
    [stepFailure]. *)
Definition engineAfterFailure : StateManager := stateOf (end_ false engineAB).

(** [A], [B], [C] nested, then [C] and [B] yield with [suspend()]: [A] is
    current again and the whole chain is suspended. *)
Definition engineSuspended : StateManager :=
  stateOf (suspend0 0 (stateOf (suspend0 0 engineABC))).

(** [A], [B], [C], [D] nested, then [D] suspends to step 2 asking for a
    delay of 500 at time 1000: [C] is current and holds the delay. *)
Definition engineABCD : StateManager := stateOf (begin "D" 1 engineABC).
Definition engineDelayed : StateManager := stateOf (suspend 1000 2 500 engineABCD).

(** * Vocabulary of the further properties *)

(** The four scratch slots of a frame. *)
Definition slots (F : FunctionState) : Z * Z * Z * string :=
  (int1 F, uint1 F, ulong1 F, string1 F).

(** Save all four slots; read all four back. *)
Definition saveSlots (v : Z * Z * Z * string) : M unit :=
  let '(i, u, l, t) := v in
  setState_int i ;;; setState_uint8 u ;;; setState_ulong l ;;; setState_String t.

Definition restoreSlots : M (Z * Z * Z * string) :=
  i <- getState_int ;;
  u <- getState_uint8 ;;
  l <- getState_ulong ;;
  t <- getState_String ;;
  ret (i, u, l, t).

(** The two terminal steps, by the status that [end] takes. *)
Definition terminalStep (status : bool) : Z :=
  if status then stepSuccess else stepFailure.

(** A frame once all four slots have been written. *)
Definition withSlots (v : Z * Z * Z * string) (F : FunctionState) : FunctionState :=
  let '(i, u, l, t) := v in
  set_string1 t (set_ulong1 l (set_uint1 u (set_int1 i F))).

(** What the driving loop does with the delay: read it, and read it again. *)
Definition resetDelayTwice : M (Z * Z) :=
  d1 <- resetDelay ;;
  d2 <- resetDelay ;;
  ret (d1, d2).

(** The deadline the parent [P] carries after its child [F] has suspended
    with [delay] at time [now]. *)
Definition deadlineAfter (now delay : Z) (F P : FunctionState) : Z :=
  if bool_decide (delayUntil F ≠ 0) then delayUntil F
  else if bool_decide (delay > 0) then ulong_add now delay
  else delayUntil P.

(** * Message.cpp: the structured-message codec

    [char] values are carried as [ascii], read as the code 0..255; every
    range test in the file compares against ASCII characters, so a [char]
    above 127 fails them whether [char] is signed or not.  [int] and
    [unsigned int] are 16 bits wide, as on the AVR boards the library
    targets.  An [int] result that does not fit is reported as [None]. *)

Definition charCode (ch : ascii) : Z := Z.of_N (N_of_ascii ch).

(** Conversion of an [int] to [char] or [uint8_t]: the low 8 bits. *)
Definition toChar (z : Z) : ascii := ascii_of_N (Z.to_N (z mod 256)).
Definition toUint8 (z : Z) : Z := z mod 256.

Definition intMax : Z := 2 ^ 15 - 1.
Definition intMin : Z := - 2 ^ 15.
Definition uintModulus : Z := 2 ^ 16.

(** An [int] result, if it is representable. *)
Definition checkedInt (z : Z) : option Z :=
  if (intMin <=? z) && (z <=? intMax) then Some z else None.

(** ** The Arduino [String] operations the file uses *)

Definition strLength (s : string) : Z := Z.of_nat (String.length s).

(** [s.charAt(i)]: 0 out of range. *)
Definition charAt (s : string) (i : Z) : ascii :=
  if (0 <=? i) && (i <? strLength s)
  then default "000"%char (String.get (Z.to_nat i) s)
  else "000"%char.

(** [s.substring(left, right)], for [0 <= left <= right] as at both call
    sites: empty when [left] is past the end, cut at the end otherwise. *)
Definition substring (s : string) (left right : Z) : string :=
  if strLength s <=? left then ""
  else String.substring (Z.to_nat left)
         (Z.to_nat (Z.min right (strLength s) - left)) s.

(** [s.concat(cstr)] reads a [char] array up to its first 0. *)
Fixpoint cString (l : list ascii) : string :=
  match l with
  | [] => ""
  | ch :: l' => if decide (ch = "000"%char) then "" else String ch (cString l')
  end.

(** ** The letter code (lines 13-32) *)

Definition firstLetter : Z := 1.
Definition firstDigit : Z := 27.

(** [encodeLetter] (lines 15-24). *)
Definition encodeLetter (ch : ascii) : Z :=
  let ch :=
    if (charCode "A" <=? charCode ch) && (charCode ch <=? charCode "Z")
    then toChar (charCode ch - charCode "A" + charCode "a")
    else ch in
  if (charCode "a" <=? charCode ch) && (charCode ch <=? charCode "z")
  then toUint8 (charCode ch - charCode "a" + firstLetter)
  else if (charCode "0" <=? charCode ch) && (charCode ch <=? charCode "4")
  then toUint8 ((charCode ch - charCode "0") + 27)
  else 0.

(** [decodeLetter] (lines 26-32). *)
Definition decodeLetter (code : Z) : ascii :=
  if code =? 0 then "000"%char
  else if (firstLetter <=? code) && (code <? firstDigit)
  then toChar (code - firstLetter + charCode "a")
  else if firstDigit <=? code
  then toChar (code - firstDigit + charCode "0")
  else "000"%char.

(** [hexDigitToDecimal] (lines 136-142). *)
Definition hexDigitToDecimal (ch : ascii) : Z :=
  if (charCode "0" <=? charCode ch) && (charCode ch <=? charCode "9")
  then toUint8 (toUint8 (charCode ch) - charCode "0")
  else if (charCode "a" <=? charCode ch) && (charCode ch <=? charCode "z")
  then toUint8 (toUint8 (charCode ch) - charCode "a" + 10)
  else if (charCode "A" <=? charCode ch) && (charCode ch <=? charCode "Z")
  then toUint8 (toUint8 (charCode ch) - charCode "A" + 10)
  else 0.

(** ** Packing a name (lines 96-107 of [addName]) *)

(** The loop [for (i = 0; i <= 2 && i <= name.length(); i++)] over the
    three-byte buffer; [todo] are the values [i] still has to take. *)
Fixpoint fillBuffer (name : string) (todo : list Z) (buffer : list Z) : list Z :=
  match todo with
  | [] => buffer
  | i :: todo' =>
      if (i <=? 2) && (i <=? strLength name)
      then fillBuffer name todo'
             (<[Z.to_nat i := encodeLetter (charAt name i)]> buffer)
      else buffer
  end.

Definition nameBuffer (name : string) : list Z :=
  fillBuffer name [0; 1; 2] [0; 0; 0].

(** [(buffer[0] << 10) + (buffer[1] << 5) + (buffer[2])], as [unsigned int]. *)
Definition packName (name : string) : option Z :=
  let buffer := nameBuffer name in
  b0 ← checkedInt (Z.shiftl (buffer !!! 0%nat) 10);
  b1 ← checkedInt (Z.shiftl (buffer !!! 1%nat) 5);
  b01 ← checkedInt (b0 + b1);
  r ← checkedInt (b01 + buffer !!! 2%nat);
  Some (r mod uintModulus).

(** ** The message and its transceiver

    [Radiocrafts] and [Akeru] are classes of the library that are not in
    this file; a message uses three of their member functions. *)

Record Transceiver := mkTransceiver {
  toHexUInt : Z → string;
  toHexInt : Z → string;
  sendMessage : string → bool
}.

(** [radiocrafts] and [akeru] are the two pointer members, [echoed] what
    has been passed to [echo], oldest first. *)
Record Message := mkMessage {
  radiocrafts : option Transceiver;
  akeru : option Transceiver;
  encodedMessage : string;
  echoed : list string
}.

(** [radiocrafts ? radiocrafts->f(..) : akeru->f(..)]: the transceiver
    the call goes to; [None] when both pointers are null. *)
Definition selected (m : Message) : option Transceiver :=
  match radiocrafts m with
  | Some r => Some r
  | None => akeru m
  end.

Definition set_encodedMessage (v : string) (m : Message) : Message :=
  mkMessage (radiocrafts m) (akeru m) v (echoed m).

Definition echo (err : string) (m : Message) : Message :=
  mkMessage (radiocrafts m) (akeru m) (encodedMessage m) (echoed m ++ [err]).

(** ["****ERROR: Message too long, already " + (length / 2) + " bytes"]. *)
Definition tooLong (m : Message) : string :=
  "****ERROR: Message too long, already "
  +:+ pretty (strLength (encodedMessage m) / 2) +:+ " bytes".

(** [encodedMessage.length() + (4 * 2) > MAX_BYTES_PER_MESSAGE * 2], in
    [unsigned int]; the macro is defined outside this file and is taken as
    the parameter [MAX]. *)
Definition noRoom (MAX : Z) (m : Message) : bool :=
  (MAX * 2) mod uintModulus
  <? (strLength (encodedMessage m) + 4 * 2) mod uintModulus.

(** [addName] (lines 90-112). *)
Definition addName (name : string) (m : Message) : option (bool * Message) :=
  result ← packName name;
  t ← selected m;
  Some (true, set_encodedMessage (encodedMessage m +:+ toHexUInt t result) m).

(** [addIntField] (lines 62-75). *)
Definition addIntField (MAX : Z) (name : string) (value : Z) (m : Message)
    : option (bool * Message) :=
  if noRoom MAX m then
    _ ← selected m;
    Some (false, echo (tooLong m) m)
  else
    '(_, m1) ← addName name m;
    t ← selected m1;
    Some (true, set_encodedMessage (encodedMessage m1 +:+ toHexInt t value) m1).

(** [addField(name, int value)] (lines 44-48): the field holds the value
    scaled by 10, and the product is made in [int]. *)
Definition addField_int (MAX : Z) (name : string) (value : Z) (m : Message)
    : option (bool * Message) :=
  val ← checkedInt (value * 10);
  addIntField MAX name val m.

(** [addField(name, String value)] (lines 77-88). *)
Definition addField_String (MAX : Z) (name value : string) (m : Message)
    : option (bool * Message) :=
  if noRoom MAX m then
    _ ← selected m;
    Some (false, echo (tooLong m) m)
  else
    '(_, m1) ← addName name m;
    '(_, m2) ← addName value m1;
    Some (true, m2).

(** [getEncodedMessage] (lines 131-134). *)
Definition getEncodedMessage (m : Message) : string := encodedMessage m.

(** [send] (lines 114-129). *)
Definition send (MAX : Z) (m : Message) : option (bool * Message) :=
  let msg := getEncodedMessage m in
  if strLength msg =? 0 then
    _ ← selected m;
    Some (false, echo "****ERROR: Nothing to send" m)
  else if (MAX * 2) mod uintModulus <=? strLength msg then
    _ ← selected m;
    Some (false, echo (tooLong m) m)
  else
    t ← selected m;
    Some (sendMessage t msg, m).

(** ** [decodeMessage] (lines 144-179) *)

(** The value of a group of four hexadecimal digits (lines 151-155 and
    156-160): digits 2 and 3 are the high byte, digits 0 and 1 the low
    byte.  The sum is made in [int] and converted to [unsigned long]. *)
Definition hexGroup (g : string) : option Z :=
  d2 ← checkedInt (Z.shiftl (hexDigitToDecimal (charAt g 2)) 12);
  d3 ← checkedInt (Z.shiftl (hexDigitToDecimal (charAt g 3)) 8);
  d0 ← checkedInt (Z.shiftl (hexDigitToDecimal (charAt g 0)) 4);
  s1 ← checkedInt (d2 + d3);
  s2 ← checkedInt (s1 + d0);
  s3 ← checkedInt (s2 + hexDigitToDecimal (charAt g 1));
  Some (s3 mod ulong_modulus).

(** The loop over [j] that fills [name3] (lines 164-171); [todo] are the
    values [j] still has to take. *)
Fixpoint fillName (todo : list nat) (name2 : Z) (name3 : list ascii) : list ascii :=
  match todo with
  | [] => name3
  | j :: todo' =>
      let code := toUint8 (Z.land name2 31) in
      let ch := decodeLetter code in
      let name3 := if 0 <? charCode ch then <[(2 - j)%nat := ch]> name3 else name3 in
      fillName todo' (Z.shiftr name2 5) name3
  end.

Definition decodeName (name2 : Z) : string :=
  cString (<[3%nat := "000"%char]>
             (fillName [0; 1; 2]%nat name2
                (replicate 4 "000"%char))).

(** The quotation mark, character 34, that [decodeMessage] writes before a
    name, and the mark and colon it writes after it. *)
Definition doubleQuote : string := String "034"%char "".
Definition quoteColon : string := String "034"%char ":".

(** One pass of the loop body at index [i]. *)
Definition decodeField (msg : string) (i : Z) (result : string) : option string :=
  i4 ← checkedInt (i + 4);
  i8 ← checkedInt (i + 8);
  let name := substring msg i i4 in
  let val := substring msg i4 i8 in
  name2 ← hexGroup name;
  val2 ← hexGroup val;
  let result := if 0 <? i then result +:+ "," else result in
  let result := result +:+ doubleQuote in
  let result := result +:+ decodeName name2 in
  q ← checkedInt (val2 / 10);
  r ← checkedInt (val2 mod 10);
  Some (result +:+ quoteColon +:+ pretty q +:+ "." +:+ pretty r).

(** [for (int i = 0; i < msg.length(); i = i + 8)]; [fuel] bounds the
    number of passes. *)
Fixpoint decodeLoop (fuel : nat) (msg : string) (i : Z) (result : string)
    : option string :=
  if i <? strLength msg then
    match fuel with
    | O => None
    | S fuel' =>
        result ← decodeField msg i result;
        i8 ← checkedInt (i + 8);
        decodeLoop fuel' msg i8 result
    end
  else Some result.

Definition decodeMessage (msg : string) : option string :=
  result ← decodeLoop (String.length msg) msg 0 "{";
  Some (result +:+ "}").

(** ** Vocabulary for the codec's properties *)

(** The characters [encodeLetter] has a code for. *)
Definition isUpper (ch : ascii) : bool :=
  (charCode "A" <=? charCode ch) && (charCode ch <=? charCode "Z").
Definition isLower (ch : ascii) : bool :=
  (charCode "a" <=? charCode ch) && (charCode ch <=? charCode "z").
Definition isDigit04 (ch : ascii) : bool :=
  (charCode "0" <=? charCode ch) && (charCode ch <=? charCode "4").
Definition isDigit (ch : ascii) : bool :=
  (charCode "0" <=? charCode ch) && (charCode ch <=? charCode "9").
Definition encodable (ch : ascii) : bool :=
  isUpper ch || isLower ch || isDigit04 ch.

Definition lowerCase (ch : ascii) : ascii :=
  if isUpper ch then toChar (charCode ch + 32) else ch.

(** What is left of a character after encoding and decoding: its lower
    case, or 0 if it has no code. *)
Definition foldLetter (ch : ascii) : ascii :=
  if encodable ch then lowerCase ch else "000"%char.

(** A hexadecimal digit, in either case. *)
Definition hexDigit (upper : bool) (n : Z) : ascii :=
  if n <? 10 then toChar (charCode "0" + n)
  else toChar (charCode (if upper then "A" else "a")%char + (n - 10)).

(** A 16-bit value as four hexadecimal digits, low byte first: the layout
    [decodeMessage] reads. *)
Definition hexLowByteFirst (upper : bool) (v : Z) : string :=
  String (hexDigit upper (v / 16 mod 16))
    (String (hexDigit upper (v mod 16))
       (String (hexDigit upper (v / 4096 mod 16))
          (String (hexDigit upper (v / 256 mod 16)) ""))).

(** The name as [decodeMessage] prints it: the first three characters,
    folded, up to the first that has no code. *)
Definition decodedName (name : string) : string :=
  cString [foldLetter (charAt name 0); foldLetter (charAt name 1);
           foldLetter (charAt name 2)].

(** One field of the decoded text: the quoted name, a colon, and the value
    with its last decimal digit after the point. *)
Definition fieldText (name : string) (value : Z) : string :=
  doubleQuote +:+ decodedName name +:+ quoteColon +:+ pretty (value / 10)
  +:+ "." +:+ pretty (value mod 10).

(** * Verification *)

(** ** Running the primitives *)

Lemma bind_Done {A B} (m : M A) (k : A → M B) s x s' :
  m s = Done x s' → bind m k s = k x s'.
Proof. unfold bind. by intros ->. Qed.

Lemma bind_Undefined {A B} (m : M A) (k : A → M B) s e :
  m s = Undefined e → bind m k s = Undefined e.
Proof. unfold bind. by intros ->. Qed.

Lemma bind_assoc {A B C} (m : M A) (k1 : A → M B) (k2 : B → M C) s :
  bind (bind m k1) k2 s = bind m (λ x, bind (k1 x) k2) s.
Proof. unfold bind. by destruct (m s). Qed.

Lemma load_allocated h cur out a F :
  h !! a = Some F →
  load (Some a) (mkStateManager h cur out) = Done F (mkStateManager h cur out).
Proof. unfold load. simpl. by intros ->. Qed.

Lemma store_allocated h cur out a F g :
  h !! a = Some F →
  store (Some a) g (mkStateManager h cur out)
  = Done tt (mkStateManager (<[a := g F]> h) cur out).
Proof. unfold store. simpl. by intros ->. Qed.

Lemma delete_allocated h cur out a F :
  h !! a = Some F →
  delete_ (Some a) (mkStateManager h cur out)
  = Done tt (mkStateManager (delete a h) cur out).
Proof. unfold delete_. simpl. by intros ->. Qed.

(** One step of symbolic execution: resolve the leading primitive of a
    [bind] chain against the heap facts in the context. *)
Ltac heap_lookup :=
  first
    [ eassumption
    | apply lookup_insert_eq
    | rewrite lookup_insert_ne by congruence; heap_lookup
    | rewrite lookup_delete_ne by congruence; heap_lookup ].

Ltac exec1 :=
  lazymatch goal with
  | |- bind (bind _ _) _ _ = _ => rewrite bind_assoc
  | |- bind getCurrent _ _ = _ => unfold bind at 1, getCurrent at 1; cbn beta iota
  | |- bind (setCurrent _) _ _ = _ => unfold bind at 1, setCurrent at 1; cbn beta iota
  | |- bind (ret _) _ _ = _ => unfold bind at 1, ret at 1; cbn beta iota
  | |- bind (println _) _ _ = _ => unfold bind at 1, println at 1; cbn beta iota
  | |- bind new _ _ = _ => unfold bind at 1, new at 1; cbn beta iota zeta
  | |- bind (delete_ None) _ _ = _ => unfold bind at 1, delete_ at 1; cbn beta iota
  | |- bind (load (Some _)) _ _ = _ =>
      erewrite bind_Done; [| apply load_allocated; heap_lookup]
  | |- bind (store (Some _) _) _ _ = _ =>
      erewrite bind_Done; [| apply store_allocated; heap_lookup]
  | |- bind (delete_ (Some _)) _ _ = _ =>
      erewrite bind_Done; [| eapply delete_allocated; heap_lookup]
  | |- load (Some _) _ = _ => erewrite load_allocated; [| heap_lookup]
  | |- store (Some _) _ _ = _ => erewrite store_allocated; [| heap_lookup]
  | |- delete_ (Some _) _ = _ => erewrite delete_allocated; [| heap_lookup]
  | |- ret _ _ = _ => unfold ret at 1
  | |- setCurrent _ _ = _ => unfold setCurrent at 1
  | |- getCurrent _ = _ => unfold getCurrent at 1
  end; cbn beta iota; cbn [heap currentState serial].

Ltac exec := repeat exec1.

(** The same on the left-hand side of a hypothesis. *)
Ltac exec_in H :=
  lazymatch type of H with
  | ?l = _ =>
      let E := fresh "E" in
      eassert (l = _) as E by (exec; reflexivity);
      rewrite E in H; clear E
  end.

(** Normal form of a heap expression: deletions innermost, one insertion
    per address. *)
Ltac heap_norm :=
  repeat first
    [ rewrite insert_insert_eq
    | rewrite delete_insert_eq
    | rewrite delete_insert_ne by congruence ].

(** ** What each member function does to the frames it touches *)

Lemma popState_spec h out a F c n :
  h !! a = Some F →
  popState c n (mkStateManager h (Some a) out)
  = Done tt (mkStateManager (<[a := popFrame c n F]> h)
               (Some (default a (parentState F))) out).
Proof.
  intros Ha. unfold popState, popFrame. exec.
  cbn [childState set_nextStep set_currentStep].
  destruct (bool_decide (n ≠ 0) && bool_decide (childState F = None)).
  - exec. cbn [parentState set_nextStep set_currentStep].
    rewrite !insert_insert_eq. destruct (parentState F); exec; reflexivity.
  - exec. cbn [parentState set_nextStep set_currentStep].
    rewrite !insert_insert_eq. destruct (parentState F); exec; reflexivity.
Qed.

Lemma popFrame_parentState c n F : parentState (popFrame c n F) = parentState F.
Proof. unfold popFrame. by destruct (_ && _). Qed.

Lemma popFrame_childState c n F : childState (popFrame c n F) = childState F.
Proof. unfold popFrame. by destruct (_ && _). Qed.

Lemma popFrame_delayUntil c n F : delayUntil (popFrame c n F) = delayUntil F.
Proof. unfold popFrame. by destruct (_ && _). Qed.

Lemma popFrame_functionName c n F : functionName (popFrame c n F) = functionName F.
Proof. unfold popFrame. by destruct (_ && _). Qed.

Lemma popFrame_currentStep c n F :
  currentStep (popFrame c n F)
  = if bool_decide (n ≠ 0) && bool_decide (childState F = None) then n else c.
Proof. unfold popFrame. by destruct (_ && _). Qed.

Lemma popFrame_nextStep c n F :
  nextStep (popFrame c n F)
  = if bool_decide (n ≠ 0) && bool_decide (childState F = None) then 0 else n.
Proof. unfold popFrame. by destruct (_ && _). Qed.

Lemma set_delayUntil_id F : delayUntil F = 0 → set_delayUntil 0 F = F.
Proof. destruct F; cbn. by intros ->. Qed.

Lemma transitionState_nochild h out p P :
  h !! p = Some P → childState P = None →
  transitionState (mkStateManager h (Some p) out)
  = Done false (mkStateManager h (Some p) out).
Proof. intros Hp Hc. unfold transitionState. exec. rewrite Hc. by exec. Qed.

Lemma transitionState_spec h out p P c C :
  h !! p = Some P → childState P = Some c → h !! c = Some C → p ≠ c →
  transitionState (mkStateManager h (Some p) out)
  = if finished C
    then Done true (mkStateManager (<[p := transitionFrame C P]> (delete c h))
                      (Some p) (out ++ transitionOutput C))
    else Done false (mkStateManager
                       (<[c := set_delayUntil 0 C]> (<[p := bubbleDelay C P]> h))
                       (Some p) out).
Proof.
  intros Hp Hc HC Hne.
  unfold transitionState, finished, transitionFrame, transitionOutput, bubbleDelay.
  exec. rewrite Hc. exec.
  destruct (bool_decide (delayUntil C ≠ 0)) eqn:Hd; exec.
  - cbn [currentStep set_delayUntil functionName].
    destruct (bool_decide (currentStep C ≠ stepSuccess)
              && bool_decide (currentStep C ≠ stepFailure)); cbn [negb]; exec.
    + reflexivity.
    + destruct (bool_decide (currentStep C = stepFailure)); exec.
      * by heap_norm.
      * heap_norm. by rewrite app_nil_r.
  - apply bool_decide_eq_false in Hd.
    assert (delayUntil C = 0) as Hz by (destruct (decide (delayUntil C = 0)); tauto).
    destruct (bool_decide (currentStep C ≠ stepSuccess)
              && bool_decide (currentStep C ≠ stepFailure)); cbn [negb]; exec.
    + rewrite (set_delayUntil_id C Hz), (insert_id h p P Hp).
      by rewrite (insert_id h c C HC).
    + destruct (bool_decide (currentStep C = stepFailure)); exec.
      * by heap_norm.
      * heap_norm. by rewrite app_nil_r.
Qed.

(** ** [begin], case by case *)

Lemma fresh_not_allocated (h : gmap addr FunctionState) a F :
  h !! a = Some F → fresh (dom h) ≠ a.
Proof.
  intros Ha Heq. apply (is_fresh (dom h)). rewrite Heq.
  apply elem_of_dom. by exists F.
Qed.

Lemma createState_spec h cur out name k parent :
  createState name k parent (mkStateManager h cur out)
  = Done (Some (fresh (dom h)))
      (mkStateManager (<[fresh (dom h) := createdFrame name k parent]> h) cur out).
Proof. unfold createState, createdFrame. exec. by heap_norm. Qed.

Lemma begin_root h out name k :
  begin name k (mkStateManager h None out)
  = Done k (mkStateManager (<[fresh (dom h) := createdFrame name k None]> h)
              (Some (fresh (dom h))) out).
Proof.
  unfold begin. exec.
  erewrite bind_Done by apply createState_spec. by exec.
Qed.

Lemma begin_resume h out a F name k :
  h !! a = Some F → functionName F = name →
  begin name k (mkStateManager h (Some a) out)
  = Done (currentStep F) (mkStateManager h (Some a) out).
Proof.
  intros Ha Hn. unfold begin. exec. rewrite decide_True by done. by exec.
Qed.

Lemma begin_descend h out a F c C name k :
  h !! a = Some F → functionName F ≠ name →
  childState F = Some c → h !! c = Some C → functionName C = name →
  begin name k (mkStateManager h (Some a) out)
  = Done (currentStep C) (mkStateManager h (Some c) out).
Proof.
  intros Ha Hn Hc HC HnC. unfold begin. exec.
  rewrite decide_False by done. rewrite Hc. exec.
  rewrite bool_decide_eq_false_2 by (intros ?; congruence). by exec.
Qed.

Lemma begin_nested h out a F name k :
  h !! a = Some F → functionName F ≠ name → childState F = None →
  let n := fresh (dom h) in
  begin name k (mkStateManager h (Some a) out)
  = Done k (mkStateManager
              (<[a := set_childState (Some n) F]>
                 (<[n := createdFrame name k (Some a)]> h))
              (Some n) out).
Proof.
  intros Ha Hn Hc n. unfold begin. exec.
  rewrite decide_False by done. rewrite Hc. exec.
  erewrite bind_Done by apply createState_spec.
  pose proof (fresh_not_allocated h a F Ha). by exec.
Qed.

Lemma begin_replace h out a F c C name k :
  h !! a = Some F → functionName F ≠ name →
  childState F = Some c → h !! c = Some C → functionName C ≠ name → a ≠ c →
  let n := fresh (dom (delete c h)) in
  begin name k (mkStateManager h (Some a) out)
  = Done k (mkStateManager
              (<[a := set_childState (Some n) F]>
                 (<[n := createdFrame name k (Some a)]> (delete c h)))
              (Some n) out).
Proof.
  intros Ha Hn Hc HC HnC Hne n. unfold begin. exec.
  rewrite decide_False by done. rewrite Hc. exec.
  rewrite bool_decide_eq_true_2 by done. exec.
  erewrite bind_Done by apply createState_spec.
  assert (delete c h !! a = Some F) as Ha' by (by rewrite lookup_delete_ne).
  pose proof (fresh_not_allocated _ a F Ha'). by exec.
Qed.

(** ** Ascending: [suspend] and [end] *)

Lemma transitioned_parent h out p a P C :
  p ≠ a → heap (transitioned h out p a P C) !! p = Some (transitionedParent P C).
Proof.
  intros Hne. unfold transitioned, transitionedParent.
  destruct (finished C); cbn [heap].
  - apply lookup_insert_eq.
  - rewrite lookup_insert_ne by congruence. apply lookup_insert_eq.
Qed.

Lemma transitioned_current h out p a P C :
  currentState (transitioned h out p a P C) = Some p.
Proof. unfold transitioned. by destruct (finished C). Qed.

Lemma transitionState_transitioned h out p P a C :
  h !! p = Some P → childState P = Some a → h !! a = Some C → p ≠ a →
  transitionState (mkStateManager h (Some p) out)
  = Done (finished C) (transitioned h out p a P C).
Proof.
  intros Hp Hc Ha Hne. rewrite (transitionState_spec h out p P a C) by done.
  unfold transitioned. by destruct (finished C).
Qed.

(** After [popState] wrote [C] at [a] and the delay was recorded in [P1]
    at [p], the transition check sees exactly [C] and [P1]. *)
Lemma transitioned_overwrite h out p a P C P1 C1 :
  p ≠ a →
  transitioned (<[p := P1]> (<[a := C1]> h)) out p a P C = transitioned h out p a P C.
Proof.
  intros Hne. unfold transitioned. destruct (finished C).
  - by heap_norm.
  - f_equal. rewrite insert_insert_eq.
    rewrite (insert_insert_ne _ a p) by congruence. rewrite insert_insert_eq.
    by rewrite (insert_insert_ne _ p a) by congruence.
Qed.

Lemma transitioned_overwrite_child h out p a P C C1 :
  p ≠ a →
  transitioned (<[a := C1]> h) out p a P C = transitioned h out p a P C.
Proof.
  intros Hne. unfold transitioned. destruct (finished C).
  - by heap_norm.
  - f_equal. rewrite (insert_insert_ne _ p a) by congruence.
    rewrite insert_insert_eq. by rewrite (insert_insert_ne _ a p) by congruence.
Qed.

Section ascend_nonroot.
Variables (h : gmap addr FunctionState) (out : list string).
Variables (a p : addr) (F P : FunctionState).
Hypothesis (Ha : h !! a = Some F) (Hparent : parentState F = Some p).
Hypothesis (Hp : h !! p = Some P) (Hchild : childState P = Some a).
Hypothesis (Hne : p ≠ a).

Lemma suspend_nonroot now n d :
  let C := popFrame (currentStep F) n F in
  let P1 := delayedFrame (Suspend now n d) P in
  suspend now n d (mkStateManager h (Some a) out)
  = Done (notFailed (transitionedParent P1 C)) (transitioned h out p a P1 C).
Proof.
  intros C. cbn [delayedFrame]. unfold suspend. exec.
  erewrite bind_Done by (by apply popState_spec).
  rewrite Hparent. cbn [default]. fold C.
  assert (<[a:=C]> h !! p = Some P) as Hp' by (by rewrite lookup_insert_ne).
  destruct (bool_decide (d > 0)); exec.
  - set (P1 := set_delayUntil (ulong_add now d) P).
    erewrite bind_Done; cycle 1.
    { eapply (transitionState_transitioned _ _ p P1 a C);
        [apply lookup_insert_eq | done | | done].
      rewrite lookup_insert_ne by done. apply lookup_insert_eq. }
    change (id p) with p. rewrite transitioned_overwrite by done.
    exec. rewrite transitioned_current.
    erewrite bind_Done; cycle 1.
    { unfold load. rewrite transitioned_parent by done. reflexivity. }
    unfold notFailed. by destruct (bool_decide _).
  - erewrite bind_Done; cycle 1.
    { eapply (transitionState_transitioned _ _ p P a C);
        [done | done | apply lookup_insert_eq | done]. }
    rewrite transitioned_overwrite_child by done.
    exec. rewrite transitioned_current.
    erewrite bind_Done; cycle 1.
    { unfold load. rewrite transitioned_parent by done. reflexivity. }
    unfold notFailed. by destruct (bool_decide _).
Qed.

Lemma suspend0_nonroot now :
  let C := popFrame (currentStep F) (currentStep F) F in
  suspend0 now (mkStateManager h (Some a) out)
  = Done (notFailed (transitionedParent P C)) (transitioned h out p a P C).
Proof.
  intros C. unfold suspend0. exec.
  pose proof (suspend_nonroot now (currentStep F) 0) as Hs.
  cbn [delayedFrame] in Hs. by rewrite bool_decide_eq_false_2 in Hs by lia.
Qed.

Lemma end_nonroot (status : bool) :
  let C := popFrame (if status then stepSuccess else stepFailure) 0 F in
  end_ status (mkStateManager h (Some a) out)
  = Done status (transitioned h out p a P C).
Proof.
  intros C. unfold end_.
  assert (∀ step, popState step 0 (mkStateManager h (Some a) out)
          = Done tt (mkStateManager (<[a := popFrame step 0 F]> h) (Some p) out))
    as Hpop.
  { intros step. rewrite (popState_spec h out a F) by done. by rewrite Hparent. }
  assert (((if status then popState stepSuccess 0 else popState stepFailure 0)
            (mkStateManager h (Some a) out))
          = Done tt (mkStateManager (<[a := C]> h) (Some p) out)) as Hpop'.
  { unfold C. destruct status; apply Hpop. }
  erewrite bind_Done by exact Hpop'.
  erewrite bind_Done; cycle 1.
  { eapply (transitionState_transitioned _ _ p P a C);
      [by rewrite lookup_insert_ne | done | apply lookup_insert_eq | done]. }
  by rewrite transitioned_overwrite_child by done.
Qed.

(** Every ascension from a frame that has a parent, in one equation. *)
Lemma ascend_nonroot op :
  let C := poppedFrame op F in
  let P1 := delayedFrame op P in
  ascend op (mkStateManager h (Some a) out)
  = Done (ascendResult op (transitionedParent P1 C)) (transitioned h out p a P1 C).
Proof.
  destruct op as [now n d|now|status]; cbn [ascend poppedFrame ascendResult].
  - apply suspend_nonroot.
  - apply suspend0_nonroot.
  - apply end_nonroot.
Qed.
End ascend_nonroot.

Lemma transitioned_overwrite_parent h out p a P C P0 :
  transitioned (<[p := P0]> h) out p a P C = transitioned h out p a P C.
Proof.
  unfold transitioned. destruct (finished C).
  - destruct (decide (a = p)) as [->|Hne].
    + by rewrite delete_insert_eq.
    + rewrite delete_insert_ne by done. by rewrite insert_insert_eq.
  - by rewrite insert_insert_eq.
Qed.

Lemma delayedFrame_parentState op P : parentState (delayedFrame op P) = parentState P.
Proof. destruct op; cbn; try done. by destruct (bool_decide _). Qed.

Lemma delayedFrame_childState op P : childState (delayedFrame op P) = childState P.
Proof. destruct op; cbn; try done. by destruct (bool_decide _). Qed.

Lemma delayedFrame_currentStep op P : currentStep (delayedFrame op P) = currentStep P.
Proof. destruct op; cbn; try done. by destruct (bool_decide _). Qed.

Lemma poppedFrame_parentState op F : parentState (poppedFrame op F) = parentState F.
Proof. destruct op; apply popFrame_parentState. Qed.

Lemma poppedFrame_childState op F : childState (poppedFrame op F) = childState F.
Proof. destruct op; apply popFrame_childState. Qed.

Lemma poppedFrame_delayUntil op F : delayUntil (poppedFrame op F) = delayUntil F.
Proof. destruct op; apply popFrame_delayUntil. Qed.

Section ascend_root.
Variables (h : gmap addr FunctionState) (out : list string).
Variables (a : addr) (F : FunctionState).
Hypothesis (Ha : h !! a = Some F) (Hroot : parentState F = None).

Hypothesis (Hchild : ∀ c, childState F = Some c → a ≠ c ∧ is_Some (h !! c)).

Lemma transitionState_root F1 :
  childState F1 = childState F →
  ∃ b, transitionState (mkStateManager (<[a := F1]> h) (Some a) out)
       = Done b (rootTransitioned h out a F1)
       ∧ heap (rootTransitioned h out a F1) !! a = Some (rootTransitionedFrame h F1)
       ∧ currentState (rootTransitioned h out a F1) = Some a.
Proof.
  intros HF1. unfold rootTransitioned, rootTransitionedFrame. rewrite HF1.
  destruct (childState F) as [c|] eqn:Hc.
  - destruct (Hchild c eq_refl) as [Hne [C HC]]. rewrite HC. exists (finished C).
    rewrite (transitionState_transitioned _ out a F1 c C);
      [| apply lookup_insert_eq | congruence | by rewrite lookup_insert_ne | done].
    rewrite transitioned_overwrite_parent.
    by rewrite transitioned_parent, transitioned_current.
  - exists false. rewrite (transitionState_nochild _ out a F1);
      [| apply lookup_insert_eq | congruence].
    split; [done|]. cbn. by rewrite lookup_insert_eq.
Qed.

Lemma suspend_root now n d :
  let F1 := delayedFrame (Suspend now n d) (popFrame (currentStep F) n F) in
  suspend now n d (mkStateManager h (Some a) out)
  = Done (notFailed (rootTransitionedFrame h F1)) (rootTransitioned h out a F1).
Proof.
  intros F1. unfold suspend. exec.
  erewrite bind_Done by (by apply popState_spec).
  rewrite Hroot. cbn [default]. change (id a) with a.
  assert (childState F1 = childState F) as HF1.
  { unfold F1. by rewrite delayedFrame_childState, popFrame_childState. }
  destruct (transitionState_root F1 HF1) as (b & Ht & Hlook & Hcur).
  assert ((if bool_decide (d > 0)
           then cur <- getCurrent;; store cur (set_delayUntil (ulong_add now d))
           else ret ())
            (mkStateManager (<[a:=popFrame (currentStep F) n F]> h) (Some a) out)
          = Done tt (mkStateManager (<[a := F1]> h) (Some a) out)) as Hdelay.
  { unfold F1. cbn [delayedFrame]. destruct (bool_decide (d > 0)); exec.
    - by heap_norm.
    - done. }
  cbn beta. erewrite bind_Done by exact Hdelay.
  erewrite bind_Done by exact Ht.
  exec. rewrite Hcur. erewrite bind_Done; cycle 1.
  { unfold load. by rewrite Hlook. }
  unfold notFailed.
  by destruct (bool_decide (currentStep (rootTransitionedFrame h F1) = stepFailure)).
Qed.

Lemma suspend0_root now :
  let F1 := popFrame (currentStep F) (currentStep F) F in
  suspend0 now (mkStateManager h (Some a) out)
  = Done (notFailed (rootTransitionedFrame h F1)) (rootTransitioned h out a F1).
Proof.
  intros F1. unfold suspend0. exec.
  pose proof (suspend_root now (currentStep F) 0) as Hs.
  cbn [delayedFrame] in Hs. by rewrite bool_decide_eq_false_2 in Hs by lia.
Qed.

Lemma end_root (status : bool) :
  let F1 := popFrame (if status then stepSuccess else stepFailure) 0 F in
  end_ status (mkStateManager h (Some a) out)
  = Done status (rootTransitioned h out a F1).
Proof.
  intros F1. unfold end_.
  assert (((if status then popState stepSuccess 0 else popState stepFailure 0)
            (mkStateManager h (Some a) out))
          = Done tt (mkStateManager (<[a := F1]> h) (Some a) out)) as Hpop.
  { unfold F1. destruct status;
      rewrite (popState_spec h out a F) by done; by rewrite Hroot. }
  erewrite bind_Done by exact Hpop.
  destruct (transitionState_root F1) as (b & Ht & _).
  { apply popFrame_childState. }
  by erewrite bind_Done by exact Ht.
Qed.

Lemma ascend_root op :
  let F1 := delayedFrame op (poppedFrame op F) in
  ascend op (mkStateManager h (Some a) out)
  = Done (ascendResult op (rootTransitionedFrame h F1)) (rootTransitioned h out a F1).
Proof.
  destruct op as [now n d|now|status];
    cbn [ascend poppedFrame ascendResult delayedFrame].
  - apply suspend_root.
  - apply suspend0_root.
  - apply end_root.
Qed.
End ascend_root.

(** ** Walking the frame chain *)

Lemma ancestry_allocated h a ups :
  ancestry h a ups → ∀ x, x ∈ a :: ups → is_Some (h !! x).
Proof.
  revert a. induction ups as [|p ups IH]; intros a Hanc x Hx.
  - destruct Hanc as (F & HF & _). apply list_elem_of_singleton in Hx. subst x. eauto.
  - destruct Hanc as (F & P & HF & _ & _ & _ & Hrest).
    apply elem_of_cons in Hx. destruct Hx as [->|Hx]; [eauto|]. by apply (IH p).
Qed.

Lemma descent_allocated h a downs :
  descent h a downs → ∀ x, x ∈ a :: downs → is_Some (h !! x).
Proof.
  revert a. induction downs as [|c downs IH]; intros a Hd x Hx.
  - destruct Hd as (F & HF & _). apply list_elem_of_singleton in Hx. subst x. eauto.
  - destruct Hd as (F & C & HF & _ & _ & _ & Hrest).
    apply elem_of_cons in Hx. destruct Hx as [->|Hx]; [eauto|]. by apply (IH c).
Qed.

(** Both walks only read the frames they pass through. *)
Lemma ancestry_agree h h' a ups :
  (∀ x, x ∈ a :: ups → h' !! x = h !! x) → ancestry h a ups → ancestry h' a ups.
Proof.
  revert a. induction ups as [|p ups IH]; intros a Hag Hanc.
  - destruct Hanc as (F & HF & Hp). exists F. split; [|done].
    rewrite Hag; [done | set_solver].
  - destruct Hanc as (F & P & HF & Hp & HP & Hc & Hrest).
    exists F, P. repeat split; try done.
    + rewrite Hag; [done | set_solver].
    + rewrite Hag; [done | set_solver].
    + apply IH; [|done]. intros x Hx. apply Hag. apply elem_of_cons. by right.
Qed.

Lemma descent_agree h h' a downs :
  (∀ x, x ∈ a :: downs → h' !! x = h !! x) → descent h a downs → descent h' a downs.
Proof.
  revert a. induction downs as [|c downs IH]; intros a Hag Hd.
  - destruct Hd as (F & HF & Hc). exists F. split; [|done].
    rewrite Hag; [done | set_solver].
  - destruct Hd as (F & C & HF & Hc & HC & Hp & Hrest).
    exists F, C. repeat split; try done.
    + rewrite Hag; [done | set_solver].
    + rewrite Hag; [done | set_solver].
    + apply IH; [|done]. intros x Hx. apply Hag. apply elem_of_cons. by right.
Qed.

(** Rewriting the walk's first frame without touching its parent link
    (or its child link) keeps the walk. *)
Lemma ancestry_update h a ups F F' :
  a ∉ ups → h !! a = Some F → parentState F' = parentState F →
  ancestry h a ups → ancestry (<[a := F']> h) a ups.
Proof.
  intros Hnin HF Hpar Hanc. destruct ups as [|p ups].
  - destruct Hanc as (F0 & HF0 & Hp). exists F'. rewrite lookup_insert_eq.
    split; [done|]. congruence.
  - destruct Hanc as (F0 & P & HF0 & Hp & HP & Hc & Hrest).
    assert (a ≠ p) by set_solver.
    exists F', P. rewrite lookup_insert_eq, lookup_insert_ne by done.
    repeat split; try done; [congruence|].
    eapply ancestry_agree; [|done]. intros x Hx.
    rewrite lookup_insert_ne; [done | set_solver].
Qed.

Lemma descent_update h a downs F F' :
  a ∉ downs → h !! a = Some F → childState F' = childState F →
  descent h a downs → descent (<[a := F']> h) a downs.
Proof.
  intros Hnin HF Hch Hd. destruct downs as [|c downs].
  - destruct Hd as (F0 & HF0 & Hc). exists F'. rewrite lookup_insert_eq.
    split; [done|]. congruence.
  - destruct Hd as (F0 & C & HF0 & Hc & HC & Hp & Hrest).
    assert (a ≠ c) by set_solver.
    exists F', C. rewrite lookup_insert_eq, lookup_insert_ne by done.
    repeat split; try done; [congruence|].
    eapply descent_agree; [|done]. intros x Hx.
    rewrite lookup_insert_ne; [done | set_solver].
Qed.

Lemma ancestry_head h a ups : ancestry h a ups → is_Some (h !! a).
Proof. intros H. apply (ancestry_allocated h a ups H). set_solver. Qed.

Lemma descent_head h a downs : descent h a downs → is_Some (h !! a).
Proof. intros H. apply (descent_allocated h a downs H). set_solver. Qed.

(** ** Reading the heap after a transition check *)

Lemma transitioned_child h out p a P C :
  p ≠ a →
  heap (transitioned h out p a P C) !! a
  = if finished C then None else Some (set_delayUntil 0 C).
Proof.
  intros Hne. unfold transitioned. destruct (finished C); cbn [heap].
  - rewrite lookup_insert_ne by done. apply lookup_delete_eq.
  - apply lookup_insert_eq.
Qed.

Lemma transitioned_other h out p a P C x :
  x ≠ p → x ≠ a → heap (transitioned h out p a P C) !! x = h !! x.
Proof.
  intros Hp Ha. unfold transitioned. destruct (finished C); cbn [heap].
  - rewrite lookup_insert_ne by done. by rewrite lookup_delete_ne.
  - by rewrite !lookup_insert_ne.
Qed.

Lemma StateManager_eta s :
  s = mkStateManager (heap s) (currentState s) (serial s).
Proof. by destruct s. Qed.

Lemma bubbleDelay_parentState C P : parentState (bubbleDelay C P) = parentState P.
Proof. unfold bubbleDelay. by destruct (bool_decide _). Qed.

Lemma bubbleDelay_childState C P : childState (bubbleDelay C P) = childState P.
Proof. unfold bubbleDelay. by destruct (bool_decide _). Qed.

Lemma bubbleDelay_currentStep C P : currentStep (bubbleDelay C P) = currentStep P.
Proof. unfold bubbleDelay. by destruct (bool_decide _). Qed.

Lemma bubbleDelay_nextStep C P : nextStep (bubbleDelay C P) = nextStep P.
Proof. unfold bubbleDelay. by destruct (bool_decide _). Qed.

Lemma bubbleDelay_delayUntil C P :
  delayUntil C ≠ 0 → delayUntil (bubbleDelay C P) = delayUntil C.
Proof. intros H. unfold bubbleDelay. by rewrite bool_decide_eq_true_2. Qed.

Lemma transitionFrame_parentState C P :
  parentState (transitionFrame C P) = parentState P.
Proof.
  unfold transitionFrame. destruct (bool_decide (currentStep C = stepFailure));
    cbn; apply bubbleDelay_parentState.
Qed.

Lemma transitionFrame_childState C P : childState (transitionFrame C P) = None.
Proof. done. Qed.

Lemma transitionFrame_delayUntil C P :
  delayUntil (transitionFrame C P) = delayUntil (bubbleDelay C P).
Proof.
  unfold transitionFrame. by destruct (bool_decide (currentStep C = stepFailure)).
Qed.

Lemma transitionedParent_parentState P C :
  parentState (transitionedParent P C) = parentState P.
Proof.
  unfold transitionedParent.
  destruct (finished C); [apply transitionFrame_parentState | apply bubbleDelay_parentState].
Qed.

Lemma transitionedParent_delayUntil P C :
  delayUntil C ≠ 0 → delayUntil (transitionedParent P C) = delayUntil C.
Proof.
  intros H. unfold transitionedParent. destruct (finished C).
  - rewrite transitionFrame_delayUntil. by apply bubbleDelay_delayUntil.
  - by apply bubbleDelay_delayUntil.
Qed.

(** ** Sequences of ascensions *)

(** One ascension from a frame with a parent: where the engine stands
    afterwards. *)
Lemma ascend_step h out a p ups op :
  NoDup (a :: p :: ups) → ancestry h a (p :: ups) →
  ∃ F P r,
    h !! a = Some F ∧ h !! p = Some P ∧ p ≠ a
    ∧ let C := poppedFrame op F in
      let P1 := delayedFrame op P in
      let s' := transitioned h out p a P1 C in
      ascend op (mkStateManager h (Some a) out) = Done r s'
      ∧ s' = mkStateManager (heap s') (Some p) (serial s')
      ∧ heap s' !! p = Some (transitionedParent P1 C)
      ∧ ancestry (heap s') p ups.
Proof.
  intros Hnd (F & P & HF & Hpar & HP & Hch & Hrest).
  assert (p ≠ a) as Hne.
  { apply NoDup_cons in Hnd as [Hnin _]. set_solver. }
  exists F, P, (ascendResult op (transitionedParent (delayedFrame op P) (poppedFrame op F))).
  repeat split; try done.
  - by apply ascend_nonroot.
  - rewrite (StateManager_eta (transitioned _ _ _ _ _ _)) at 1.
    by rewrite transitioned_current.
  - by apply transitioned_parent.
  - apply NoDup_cons in Hnd as [Hnin Hnd]. apply NoDup_cons in Hnd as [Hpnin _].
    assert (ancestry (<[p := transitionedParent (delayedFrame op P) (poppedFrame op F)]> h)
              p ups) as Hanc.
    { eapply ancestry_update; [done | done | | done].
      by rewrite transitionedParent_parentState, delayedFrame_parentState. }
    eapply ancestry_agree; [|exact Hanc]. intros x Hx.
    apply elem_of_cons in Hx. destruct Hx as [->|Hx].
    + by rewrite transitioned_parent, lookup_insert_eq.
    + rewrite transitioned_other by set_solver.
      rewrite lookup_insert_ne; [done | set_solver].
Qed.

(** ** Delay propagation *)

Lemma delay_bubbles_gen ops : ∀ h out a ups F,
  NoDup (a :: ups) → ancestry h a ups →
  h !! a = Some F → delayUntil F ≠ 0 →
  (∀ b G, b ≠ a → h !! b = Some G → delayUntil G = 0) →
  (length ops ≤ length ups)%nat →
  ∃ s' b G,
    ascendAll ops (mkStateManager h (Some a) out) = Done tt s'
    ∧ (a :: ups) !! length ops = Some b
    ∧ currentState s' = Some b
    ∧ ancestry (heap s') b (drop (length ops) ups)
    ∧ heap s' !! b = Some G ∧ delayUntil G = delayUntil F
    ∧ (∀ b' G', b' ≠ b → heap s' !! b' = Some G' → delayUntil G' = 0).
Proof.
  induction ops as [|op ops IH]; intros h out a ups F Hnd Hanc HF Hd Hzero Hlen.
  - exists (mkStateManager h (Some a) out), a, F. by repeat split.
  - destruct ups as [|p ups]; [cbn in Hlen; lia|].
    destruct (ascend_step h out a p ups op Hnd Hanc)
      as (F' & P & r & HF' & HP & Hne & Hrun & Heta & Hlook & Hanc').
    assert (F' = F) as -> by congruence.
    set (C := poppedFrame op F) in *. set (P1 := delayedFrame op P) in *.
    set (s1 := transitioned h out p a P1 C) in *.
    assert (delayUntil C ≠ 0) as HdC by (unfold C; by rewrite poppedFrame_delayUntil).
    destruct (IH (heap s1) (serial s1) p ups (transitionedParent P1 C))
      as (s' & b & G & Hrun' & Hb & Hcur & Hanc'' & HG & HdG & Hzero').
    + by apply NoDup_cons in Hnd as [_ ?].
    + done.
    + done.
    + by rewrite transitionedParent_delayUntil.
    + intros x X Hx HX. destruct (decide (x = a)) as [->|Hxa].
      * unfold s1 in HX. rewrite transitioned_child in HX by done.
        destruct (finished C); [done|]. by injection HX as <-.
      * unfold s1 in HX. rewrite transitioned_other in HX by done.
        by apply (Hzero x).
    + cbn in Hlen. lia.
    + exists s', b, G. repeat split; try done.
      * cbn [ascendAll]. erewrite bind_Done by exact Hrun.
        by rewrite Heta.
      * rewrite HdG, transitionedParent_delayUntil by done.
        unfold C. apply poppedFrame_delayUntil.
Qed.

Lemma lookup_last_drop {A} (l : list A) k b r :
  l !! k = Some b → last l = Some r → r ∈ b :: drop (S k) l.
Proof.
  intros Hk Hlast. rewrite <- (drop_S l b k Hk).
  apply list_elem_of_lookup. exists (pred (length l) - k)%nat.
  rewrite lookup_drop, last_lookup in *. apply lookup_lt_Some in Hk.
  by replace (k + (pred (length l) - k))%nat with (pred (length l)) by lia.
Qed.

(** C6.  A nonzero [delayUntil] that sits on the current frame, [N] levels
    below the root, with every other frame's delay at zero: every run of
    at most [N] [suspend]/[end] ascensions completes and moves the delay up
    one level per ascension; afterwards it sits on the frame the engine
    stands on and every other allocated frame, the ones ascended from
    included, holds zero.  The root carries the delay after exactly [N]
    ascensions and not before. *)
Theorem delay_reaches_root_after_depth_ascensions ops h out a ups F :
  NoDup (a :: ups) → ancestry h a ups →
  h !! a = Some F → delayUntil F ≠ 0 →
  (∀ b G, b ≠ a → h !! b = Some G → delayUntil G = 0) →
  (length ops ≤ length ups)%nat →
  ∃ s' b G,
    ascendAll ops (mkStateManager h (Some a) out) = Done tt s'
    ∧ (a :: ups) !! length ops = Some b
    ∧ currentState s' = Some b
    ∧ heap s' !! b = Some G ∧ delayUntil G = delayUntil F
    ∧ (∀ b' G', b' ≠ b → heap s' !! b' = Some G' → delayUntil G' = 0)
    ∧ ∀ root, last (a :: ups) = Some root →
        ∃ R, heap s' !! root = Some R
             ∧ (length ops = length ups → root = b ∧ parentState R = None)
             ∧ ((length ops < length ups)%nat → delayUntil R = 0).
Proof.
  intros Hnd Hanc HF Hd Hzero Hlen.
  destruct (delay_bubbles_gen ops h out a ups F Hnd Hanc HF Hd Hzero Hlen)
    as (s' & b & G & Hrun & Hb & Hcur & Hanc' & HG & HdG & Hzero').
  exists s', b, G. repeat split; try done.
  intros root Hroot.
  assert (root ∈ b :: drop (length ops) ups) as Hin.
  { by apply (lookup_last_drop (a :: ups) (length ops) b root). }
  destruct (ancestry_allocated _ _ _ Hanc' root Hin) as [R HR].
  exists R. split; [done|].
  rewrite last_lookup in Hroot. cbn [length Nat.pred] in Hroot.
  split.
  - intros Heq. rewrite Heq in Hb.
    assert (root = b) as -> by congruence. split; [done|].
    rewrite Heq, drop_all in Hanc'. destruct Hanc' as (G' & HG' & Hpar).
    congruence.
  - intros Hlt. apply (Hzero' root R); [|done]. intros ->.
    pose proof (NoDup_lookup _ _ _ _ Hnd Hb Hroot). lia.
Qed.

(** ** Failure propagation *)

Lemma poppedFrame_failure op F :
  keepsFailure op → currentStep F = stepFailure →
  currentStep (poppedFrame op F) = stepFailure.
Proof.
  intros Hop HF. destruct op as [now n d|now|status]; cbn in *;
    rewrite popFrame_currentStep.
  - subst n. rewrite HF. by destruct (_ && _).
  - rewrite HF. by destruct (_ && _).
  - subst status. by rewrite bool_decide_eq_false_2 by tauto.
Qed.

Lemma poppedFrame_end_false F :
  currentStep (poppedFrame (End false) F) = stepFailure.
Proof.
  cbn. rewrite popFrame_currentStep. by rewrite bool_decide_eq_false_2 by tauto.
Qed.

Lemma finished_failure C : currentStep C = stepFailure → finished C = true.
Proof. intros H. unfold finished. by rewrite H. Qed.

Lemma transitionedParent_failure P C :
  currentStep C = stepFailure →
  currentStep (transitionedParent P C) = stepFailure
  ∧ childState (transitionedParent P C) = None.
Proof.
  intros H. unfold transitionedParent, transitionFrame.
  rewrite finished_failure by done. by rewrite H.
Qed.

(** One ascension past a frame that goes up failed. *)
Lemma failure_step h out a p ups op F :
  NoDup (a :: p :: ups) → ancestry h a (p :: ups) → h !! a = Some F →
  currentStep (poppedFrame op F) = stepFailure →
  ∃ r h1 out1 P1,
    ascend op (mkStateManager h (Some a) out)
    = Done r (mkStateManager h1 (Some p) out1)
    ∧ ancestry h1 p ups
    ∧ h1 !! p = Some P1 ∧ currentStep P1 = stepFailure ∧ childState P1 = None
    ∧ h1 !! a = None
    ∧ (∀ x, h !! x = None → h1 !! x = None).
Proof.
  intros Hnd Hanc HF Hfail.
  destruct (ascend_step h out a p ups op Hnd Hanc)
    as (F' & P & r & HF' & HP & Hne & Hrun & Heta & Hlook & Hanc').
  assert (F' = F) as -> by congruence.
  set (C := poppedFrame op F) in *. set (P1 := delayedFrame op P) in *.
  set (s1 := transitioned h out p a P1 C) in *.
  destruct (transitionedParent_failure P1 C Hfail) as [Hstep Hchild].
  exists r, (heap s1), (serial s1), (transitionedParent P1 C).
  rewrite <- Heta. repeat split; try done.
  - unfold s1. rewrite transitioned_child by done.
    by rewrite finished_failure.
  - intros x Hx. unfold s1. rewrite transitioned_other; [done| |]; congruence.
Qed.

Lemma failure_climbs ops : ∀ h out a ups F,
  NoDup (a :: ups) → ancestry h a ups →
  h !! a = Some F → currentStep F = stepFailure →
  Forall keepsFailure ops → (length ops ≤ length ups)%nat →
  ∃ s' b G,
    ascendAll ops (mkStateManager h (Some a) out) = Done tt s'
    ∧ (a :: ups) !! length ops = Some b
    ∧ currentState s' = Some b
    ∧ ancestry (heap s') b (drop (length ops) ups)
    ∧ heap s' !! b = Some G ∧ currentStep G = stepFailure
    ∧ (∀ x, x ∈ take (length ops) (a :: ups) → heap s' !! x = None)
    ∧ (∀ x, h !! x = None → heap s' !! x = None).
Proof.
  induction ops as [|op ops IH]; intros h out a ups F Hnd Hanc HF Hfail Hops Hlen.
  - exists (mkStateManager h (Some a) out), a, F. repeat split; try done.
    cbn. intros x Hx. by apply elem_of_nil in Hx.
  - destruct ups as [|p ups]; [cbn in Hlen; lia|].
    apply Forall_cons in Hops as [Hop Hops].
    destruct (failure_step h out a p ups op F Hnd Hanc HF)
      as (r & h1 & out1 & P1 & Hrun & Hanc1 & HP1 & Hstep1 & _ & Ha1 & Hnone1).
    { by apply poppedFrame_failure. }
    destruct (IH h1 out1 p ups P1) as (s' & b & G & Hrun' & Hb & Hcur & Hanc' & HG & HsG & Hgone & Hnone');
      try done.
    + by apply NoDup_cons in Hnd as [_ ?].
    + cbn in Hlen. lia.
    + exists s', b, G. repeat split; try done.
      * cbn [ascendAll]. by erewrite bind_Done by exact Hrun.
      * intros x Hx. cbn [length take] in Hx.
        apply elem_of_cons in Hx. destruct Hx as [->|Hx]; [by apply Hnone'|].
        by apply Hgone.
      * intros x Hx. by apply Hnone', Hnone1.
Qed.

(** C3, as amended.  A frame [N ≥ 1] levels below the root calls
    [end(false)]: whatever [nextStep] its parent had pending, the parent's
    transition check sets the parent's [currentStep] to [stepFailure] and
    deletes the failed child.  The failure reaches a further ancestor when
    the frames in between go up in turn and each hands it on --
    [keepsFailure]: by [end(false)], [suspend()] or
    [suspend(stepFailure)]; then each of those ancestors is set to
    [stepFailure] whatever its [nextStep], the frames passed are deleted,
    and when the last ascension reaches the root, [getStatus] returns
    [stepFailure]. *)
Theorem failure_propagates_to_every_ancestor rest h out a ups :
  NoDup (a :: ups) → ancestry h a ups →
  Forall keepsFailure rest → (length rest < length ups)%nat →
  ∃ s' b G,
    ascendAll (End false :: rest) (mkStateManager h (Some a) out) = Done tt s'
    ∧ (a :: ups) !! S (length rest) = Some b
    ∧ currentState s' = Some b
    ∧ heap s' !! b = Some G ∧ currentStep G = stepFailure
    ∧ (∀ x, x ∈ take (S (length rest)) (a :: ups) → heap s' !! x = None)
    ∧ getStatus s' = Done stepFailure s'
    ∧ (S (length rest) = length ups → parentState G = None).
Proof.
  intros Hnd Hanc Hrest Hlen.
  destruct ups as [|p ups]; [cbn in Hlen; lia|].
  destruct (ancestry_head _ _ _ Hanc) as [F HF].
  destruct (failure_step h out a p ups (End false) F Hnd Hanc HF)
    as (r & h1 & out1 & P1 & Hrun & Hanc1 & HP1 & Hstep1 & _ & Ha1 & Hnone1).
  { apply poppedFrame_end_false. }
  destruct (failure_climbs rest h1 out1 p ups P1)
    as (s' & b & G & Hrun' & Hb & Hcur & Hanc' & HG & HsG & Hgone & Hnone');
    try done.
  - by apply NoDup_cons in Hnd as [_ ?].
  - cbn in Hlen. lia.
  - exists s', b, G. repeat split; try done.
    + cbn [ascendAll]. by erewrite bind_Done by exact Hrun.
    + intros x Hx. cbn [take] in Hx.
      apply elem_of_cons in Hx. destruct Hx as [->|Hx]; [by apply Hnone'|].
      by apply Hgone.
    + rewrite (StateManager_eta s'), Hcur. unfold getStatus. exec.
      by rewrite HsG.
    + cbn [length]. intros Heq. injection Heq as Heq.
      rewrite Heq, drop_all in Hanc'. destruct Hanc' as (G' & HG' & Hpar).
      congruence.
Qed.

(** C3 as stated fails here: [A] has called [B] and [B] has called [C].
    [C] calls [end(false)], and [B]'s transition check sets [B] to
    [stepFailure].  [B] then calls [end(true)], which overwrites its step
    with [stepSuccess]: the transition check of the root [A] sees a child
    that succeeded and moves [A] to its pending [nextStep], 0.  The failure
    never reaches the root, and [getStatus] returns 0. *)
Lemma failure_is_lost_when_an_ancestor_ends_true :
  currentState engineABC = Some 3%positive
  ∧ parentState (frameAt engineABC 3%positive) = Some 2%positive
  ∧ parentState (frameAt engineABC 2%positive) = Some 1%positive
  ∧ parentState (frameAt engineABC 1%positive) = None
  ∧ ∃ s1 s2,
      end_ false engineABC = Done false s1
      ∧ currentState s1 = Some 2%positive
      ∧ currentStep (frameAt s1 2%positive) = stepFailure
      ∧ heap s1 !! 3%positive = None
      ∧ end_ true s1 = Done true s2
      ∧ ascendAll [End false; End true] engineABC = Done tt s2
      ∧ currentState s2 = Some 1%positive
      ∧ currentStep (frameAt s2 1%positive) = 0
      ∧ currentStep (frameAt s2 1%positive) ≠ stepFailure
      ∧ getStatus s2 = Done 0 s2.
Proof.
  repeat split.
  exists (stateOf (end_ false engineABC)),
         (stateOf (ascendAll [End false; End true] engineABC)).
  by vm_compute.
Qed.

(** ** Faults *)

Lemma load_unallocated s a :
  heap s !! a = None → load (Some a) s = Undefined UseAfterFree.
Proof. unfold load. by intros ->. Qed.

Lemma store_unallocated s a g :
  heap s !! a = None → store (Some a) g s = Undefined UseAfterFree.
Proof. unfold store. by intros ->. Qed.

(** ** [getStatus] *)

Lemma getStatus_current h out a F :
  h !! a = Some F →
  getStatus (mkStateManager h (Some a) out)
  = Done (currentStep F) (mkStateManager h (Some a) out).
Proof. intros Ha. unfold getStatus. by exec. Qed.

(** C9.  Without a current frame [getStatus] returns 0, which is neither
    [stepSuccess], [stepFailure] nor any application step constant;
    with one it returns that frame's [currentStep]; either way the engine
    is left exactly as it was. *)
Theorem getStatus_reads_current_step :
  (∀ s, currentState s = None → getStatus s = Done 0 s)
  ∧ getStatus emptyEngine = Done 0 emptyEngine
  ∧ (0 ≠ stepSuccess) ∧ (0 ≠ stepFailure) ∧ (0 ∉ applicationSteps)
  ∧ (∀ s a F, currentState s = Some a → heap s !! a = Some F →
       getStatus s = Done (currentStep F) s).
Proof.
  repeat split; try done.
  - intros [h cur out] Hcur. cbn in Hcur. by subst cur.
  - unfold applicationSteps. intros Hin.
    repeat (apply elem_of_cons in Hin; destruct Hin as [Hin|Hin]; [done|]).
    by apply elem_of_nil in Hin.
  - intros [h cur out] a F Hcur Ha. cbn in *. subst cur.
    by apply getStatus_current.
Qed.

Lemma getStatus_reads_current_step_witness :
  getStatus engineAB = Done 1 engineAB.
Proof.
  apply (proj2 (proj2 (proj2 (proj2 (proj2 getStatus_reads_current_step))))
           engineAB 2%positive (frameAt engineAB 2%positive)); reflexivity.
Defined.

(** ** [begin] *)

(** C4.  [begin] under a name that differs from the current frame's.  If
    the current frame's child carries the name, the child becomes current
    and its stored step is returned, whatever [firstStep] is, and nothing
    else changes.  Otherwise the child, if there is one, is deleted, a
    fresh frame that holds [firstStep] is linked under the current frame
    and made current, and [firstStep] is returned. *)
Theorem begin_nested_call h out a F name k :
  h !! a = Some F → functionName F ≠ name →
  (∀ c C, childState F = Some c → h !! c = Some C → functionName C = name →
     begin name k (mkStateManager h (Some a) out)
     = Done (currentStep C) (mkStateManager h (Some c) out))
  ∧ (childState F = None →
     let n := fresh (dom h) in
     begin name k (mkStateManager h (Some a) out)
     = Done k (mkStateManager
                 (<[a := set_childState (Some n) F]>
                    (<[n := createdFrame name k (Some a)]> h))
                 (Some n) out))
  ∧ (∀ c C, childState F = Some c → h !! c = Some C → functionName C ≠ name →
     a ≠ c →
     let n := fresh (dom (delete c h)) in
     begin name k (mkStateManager h (Some a) out)
     = Done k (mkStateManager
                 (<[a := set_childState (Some n) F]>
                    (<[n := createdFrame name k (Some a)]> (delete c h)))
                 (Some n) out))
  ∧ currentStep (createdFrame name k (Some a)) = k
  ∧ parentState (createdFrame name k (Some a)) = Some a
  ∧ functionName (createdFrame name k (Some a)) = name
  ∧ childState (createdFrame name k (Some a)) = None.
Proof.
  intros Ha Hn. repeat split.
  - intros c C Hc HC HnC. by apply (begin_descend h out a F c C).
  - intros Hc. by apply begin_nested.
  - intros c C Hc HC HnC Hne. by apply (begin_replace h out a F c C).
Qed.

Lemma begin_nested_call_witness :
  begin "B" 9 (mkStateManager (heap engineAB) (Some 1%positive) [])
  = Done 1 (mkStateManager (heap engineAB) (Some 2%positive) []).
Proof.
  apply (proj1 (begin_nested_call (heap engineAB) [] 1%positive
                  (frameAt engineAB 1%positive) "B" 9 eq_refl
                  ltac:(vm_compute; discriminate))
           2%positive (frameAt engineAB 2%positive)); reflexivity.
Defined.

(** ** [destroy], [init] and the destructor *)

Lemma destroy_empty h out :
  destroy (mkStateManager h None out) = Done tt (mkStateManager h None out).
Proof. done. Qed.

Lemma destroy_nochild h out a F :
  h !! a = Some F → childState F = None →
  destroy (mkStateManager h (Some a) out)
  = Done tt (mkStateManager (delete a h) None out).
Proof. intros Ha Hc. unfold destroy. exec. rewrite Hc. by exec. Qed.

Lemma destroy_child h out a F c C :
  h !! a = Some F → childState F = Some c → h !! c = Some C → a ≠ c →
  destroy (mkStateManager h (Some a) out)
  = Done tt (mkStateManager (delete a (delete c h)) None out).
Proof.
  intros Ha Hc HC Hne. unfold destroy. exec. rewrite Hc. exec.
  assert (delete c h !! a = Some F) as Ha' by (by rewrite lookup_delete_ne).
  exec. by rewrite delete_insert_eq.
Qed.

(** What [destroy] releases: the current frame and its child, nothing
    else.  A frame further away -- the parent of the current frame, a
    grandchild -- stays allocated, and no pointer to it is left. *)
Lemma destroy_releases_two_frames h out a F x :
  h !! a = Some F →
  (∀ c, childState F = Some c → a ≠ c ∧ is_Some (h !! c)) →
  ∃ h', destroy (mkStateManager h (Some a) out)
        = Done tt (mkStateManager h' None out)
        ∧ h' !! a = None
        ∧ (childState F = Some x → h' !! x = None)
        ∧ (x ≠ a → childState F ≠ Some x → h' !! x = h !! x).
Proof.
  intros Ha Hch. destruct (childState F) as [c|] eqn:Hc.
  - destruct (Hch c eq_refl) as [Hne [C HC]].
    exists (delete a (delete c h)). repeat split.
    + by apply (destroy_child h out a F c C).
    + apply lookup_delete_eq.
    + intros [= ->]. rewrite lookup_delete_ne by done. apply lookup_delete_eq.
    + intros Hxa Hxc. rewrite !lookup_delete_ne; [done | congruence | congruence].
  - exists (delete a h). repeat split.
    + by apply (destroy_nochild h out a F).
    + apply lookup_delete_eq.
    + done.
    + intros Hxa _. by rewrite lookup_delete_ne.
Qed.

(** C8, at the inputs where it fails.  First: [A] has called [B] and [B]
    is the current frame.  [init()] (and the destructor, which is the same
    call) empties the engine, [getStatus] returns 0 afterwards and [B]'s
    frame is released -- but [A]'s frame, the root of the chain, is still
    allocated: it has been leaked.  Second: [A] has called [B], [B] has
    called [C], both have yielded and [A] is current.  [init()] releases
    [A] and [B] and leaks [C]. *)
Theorem init_leaks_frames_beyond_the_child :
  (currentState engineAB = Some 2%positive
   ∧ parentState (frameAt engineAB 2%positive) = Some 1%positive
   ∧ ∃ s', init engineAB = Done tt s'
           ∧ destructor engineAB = Done tt s'
           ∧ currentState s' = None
           ∧ getStatus s' = Done 0 s'
           ∧ heap s' !! 2%positive = None
           ∧ heap s' !! 1%positive = Some (frameAt engineAB 1%positive)
           ∧ functionName (frameAt engineAB 1%positive) = "A")
  ∧ (currentState engineSuspended = Some 1%positive
     ∧ childState (frameAt engineSuspended 1%positive) = Some 2%positive
     ∧ childState (frameAt engineSuspended 2%positive) = Some 3%positive
     ∧ ∃ s', init engineSuspended = Done tt s'
             ∧ currentState s' = None
             ∧ getStatus s' = Done 0 s'
             ∧ heap s' !! 1%positive = None
             ∧ heap s' !! 2%positive = None
             ∧ heap s' !! 3%positive = Some (frameAt engineSuspended 3%positive)
             ∧ functionName (frameAt engineSuspended 3%positive) = "C").
Proof.
  split.
  - split; [reflexivity|]. split; [reflexivity|].
    exists (stateOf (init engineAB)). by vm_compute.
  - split; [reflexivity|]. split; [reflexivity|]. split; [reflexivity|].
    exists (stateOf (init engineSuspended)). by vm_compute.
Qed.

(** Both engines are ones a program can reach. *)
Lemma leaking_engines_reachable : reachable engineAB ∧ reachable engineSuspended.
Proof.
  assert (reachable engineAB) as HAB.
  { apply (reachable_call (Begin "B" 1) engineA (VNum 1) engineAB);
      [|reflexivity|reflexivity].
    apply (reachable_call (Begin "A" 1) emptyEngine (VNum 1) engineA);
      [|reflexivity|reflexivity].
    apply reachable_fresh. }
  split; [done|].
  apply (reachable_call (Ascend (Suspend0 0)) (stateOf (suspend0 0 engineABC))
           (VBool true) engineSuspended); [|reflexivity|reflexivity].
  apply (reachable_call (Ascend (Suspend0 0)) engineABC (VBool true)
           (stateOf (suspend0 0 engineABC))); [|reflexivity|reflexivity].
  by apply (reachable_call (Begin "C" 1) engineAB (VNum 1) engineABC).
Qed.

(** Wherever [begin] returns, the engine stands on a frame that carries
    the name and stores the step that was returned. *)
Lemma begin_lands name k s r s1 :
  begin name k s = Done r s1 →
  ∃ a F, currentState s1 = Some a ∧ heap s1 !! a = Some F
         ∧ functionName F = name ∧ currentStep F = r.
Proof.
  destruct s as [h [a|] out]; intros Hrun.
  - destruct (h !! a) as [F|] eqn:Ha; cycle 1.
    { unfold begin in Hrun. exec_in Hrun.
      by erewrite bind_Undefined in Hrun by (by apply load_unallocated). }
    destruct (decide (functionName F = name)) as [Hn|Hn].
    { rewrite (begin_resume h out a F) in Hrun by done.
      injection Hrun as <- <-. by exists a, F. }
    destruct (childState F) as [c|] eqn:Hc; cycle 1.
    { rewrite (begin_nested h out a F) in Hrun by done.
      injection Hrun as <- <-. pose proof (fresh_not_allocated h a F Ha).
      eexists _, _. split; [done|]. cbn [heap].
      rewrite lookup_insert_ne by congruence. by rewrite lookup_insert_eq. }
    destruct (h !! c) as [C|] eqn:HC; cycle 1.
    { unfold begin in Hrun. exec_in Hrun.
      rewrite decide_False in Hrun by done. rewrite Hc in Hrun.
      rewrite !bind_assoc in Hrun.
      by erewrite bind_Undefined in Hrun by (by apply load_unallocated). }
    destruct (decide (functionName C = name)) as [HnC|HnC].
    { rewrite (begin_descend h out a F c C) in Hrun by done.
      injection Hrun as <- <-. by exists c, C. }
    destruct (decide (a = c)) as [<-|Hne]; cycle 1.
    { rewrite (begin_replace h out a F c C) in Hrun by done.
      injection Hrun as <- <-.
      assert (delete c h !! a = Some F) as Ha' by (by rewrite lookup_delete_ne).
      pose proof (fresh_not_allocated _ a F Ha').
      eexists _, _. split; [done|]. cbn [heap].
      rewrite lookup_insert_ne by congruence. by rewrite lookup_insert_eq. }
    (* the frame is its own child: deleting the child frees the frame *)
    assert (C = F) as -> by congruence. clear HC.
    unfold begin in Hrun. exec_in Hrun.
    rewrite decide_False in Hrun by done. rewrite Hc in Hrun. exec_in Hrun.
    rewrite bool_decide_eq_true_2 in Hrun by done. exec_in Hrun.
    erewrite bind_Done in Hrun by apply createState_spec.
    destruct (decide (fresh (dom (delete a h)) = a)) as [Heq|Hneq].
    + rewrite Heq in Hrun. exec_in Hrun. injection Hrun as <- <-.
      eexists _, _. split; [done|]. cbn [heap]. by rewrite lookup_insert_eq.
    + rewrite bind_assoc in Hrun.
      erewrite bind_Undefined in Hrun; [done|]. apply store_unallocated.
      cbn [heap]. rewrite lookup_insert_ne by done. apply lookup_delete_eq.
  - rewrite begin_root in Hrun. injection Hrun as <- <-.
    eexists _, _. split; [done|]. cbn [heap]. by rewrite lookup_insert_eq.
Qed.

(** C1.  Once [begin(functionName, firstStep)] has returned, any number
    of further [begin] calls with the same arguments, with no [suspend] or
    [end] in between, each return the step stored in the current frame --
    the step the first call returned -- and leave the engine exactly as the
    first call left it. *)
Theorem begin_resume_is_idempotent name k s r s1 :
  begin name k s = Done r s1 →
  (∃ a F, currentState s1 = Some a ∧ heap s1 !! a = Some F
          ∧ functionName F = name ∧ currentStep F = r)
  ∧ ∀ n, beginAgain name k n s1 = Done (replicate n r) s1.
Proof.
  intros Hrun. destruct (begin_lands name k s r s1 Hrun) as (a & F & Hcur & HF & Hn & Hr).
  split; [by exists a, F|].
  assert (begin name k s1 = Done r s1) as Hagain.
  { rewrite (StateManager_eta s1), Hcur, <- Hr. by apply begin_resume. }
  induction n as [|n IH]; [done|].
  cbn [beginAgain replicate]. erewrite bind_Done by exact Hagain.
  by erewrite bind_Done by exact IH.
Qed.

Lemma begin_resume_is_idempotent_witness :
  beginAgain "B" 1 3 engineAB = Done [1; 1; 1] engineAB.
Proof.
  apply (proj2 (begin_resume_is_idempotent "B" 1 engineA 1 engineAB eq_refl) 3%nat).
Defined.

(** ** A child that succeeds *)

Lemma delayedFrame_nextStep op P : nextStep (delayedFrame op P) = nextStep P.
Proof. destruct op; cbn; try done. by destruct (bool_decide _). Qed.

Lemma delayedFrame_functionName op P :
  functionName (delayedFrame op P) = functionName P.
Proof. destruct op; cbn; try done. by destruct (bool_decide _). Qed.

Lemma bubbleDelay_functionName C P :
  functionName (bubbleDelay C P) = functionName P.
Proof. unfold bubbleDelay. by destruct (bool_decide _). Qed.

Lemma finished_success C : currentStep C = stepSuccess → finished C = true.
Proof. intros H. unfold finished. by rewrite H. Qed.

Lemma transitionFrame_success C P :
  currentStep C = stepSuccess →
  currentStep (transitionFrame C P) = nextStep P
  ∧ nextStep (transitionFrame C P) = 0
  ∧ childState (transitionFrame C P) = None.
Proof.
  intros H. unfold transitionFrame. rewrite H. cbn.
  by rewrite bubbleDelay_nextStep.
Qed.

Lemma end_true_nonroot h out a p F P :
  h !! a = Some F → parentState F = Some p →
  h !! p = Some P → childState P = Some a → p ≠ a →
  ∃ s' P',
    end_ true (mkStateManager h (Some a) out) = Done true s'
    ∧ currentState s' = Some p
    ∧ heap s' !! p = Some P'
    ∧ currentStep P' = nextStep P ∧ nextStep P' = 0 ∧ childState P' = None
    ∧ heap s' !! a = None
    ∧ serial s' = out
    ∧ (∀ x, x ≠ p → x ≠ a → heap s' !! x = h !! x).
Proof.
  intros Ha Hpar Hp Hch Hne.
  set (C := popFrame stepSuccess 0 F).
  assert (currentStep C = stepSuccess) as HC.
  { unfold C. rewrite popFrame_currentStep.
    by rewrite bool_decide_eq_false_2 by tauto. }
  destruct (transitionFrame_success C P HC) as (Hstep & Hnext & Hchild).
  exists (transitioned h out p a P C), (transitionFrame C P).
  split; [by apply (end_nonroot h out a p F P)|].
  unfold transitioned. rewrite (finished_success C HC). cbn [heap currentState serial].
  repeat split; try done.
  - apply lookup_insert_eq.
  - rewrite lookup_insert_ne by done. apply lookup_delete_eq.
  - unfold transitionOutput. rewrite HC. cbn. apply app_nil_r.
  - intros x Hxp Hxa. rewrite lookup_insert_ne by done. by rewrite lookup_delete_ne.
Qed.

(** C2.  When the current frame calls [end(true)], the transition check
    of its parent sets the parent's [currentStep] to the [nextStep] stored
    in the parent and to nothing else, clears the parent's [nextStep],
    deletes the child and clears the parent's child link.  And the stored
    [nextStep] is the one the parent's own [suspend] left there: a root
    frame that suspends to step [n] while its child is outstanding resumes
    at exactly [n] once that child is re-entered and ends with success. *)
Theorem end_true_resumes_parent_at_stored_nextStep :
  (∀ h out a p F P,
     h !! a = Some F → parentState F = Some p →
     h !! p = Some P → childState P = Some a → p ≠ a →
     ∃ s' P',
       end_ true (mkStateManager h (Some a) out) = Done true s'
       ∧ currentState s' = Some p
       ∧ heap s' !! p = Some P'
       ∧ currentStep P' = nextStep P ∧ nextStep P' = 0 ∧ childState P' = None
       ∧ heap s' !! a = None
       ∧ serial s' = out
       ∧ (∀ x, x ≠ p → x ≠ a → heap s' !! x = h !! x))
  ∧ (∀ h out p c P C now n d k,
       h !! p = Some P → parentState P = None → childState P = Some c →
       h !! c = Some C → parentState C = Some p → p ≠ c →
       finished C = false → functionName P ≠ functionName C →
       ∃ s' P',
         (suspend now n d ;;; begin (functionName C) k ;;; end_ true)
           (mkStateManager h (Some p) out) = Done true s'
         ∧ currentState s' = Some p
         ∧ heap s' !! p = Some P'
         ∧ currentStep P' = n ∧ nextStep P' = 0 ∧ childState P' = None
         ∧ heap s' !! c = None).
Proof.
  split; [apply end_true_nonroot|].
  intros h out p c P C now n d k HP Hroot Hch HC HparC Hne Hpending Hnames.
  set (F1 := delayedFrame (Suspend now n d) (popFrame (currentStep P) n P)).
  assert (childState F1 = Some c) as HchF1.
  { unfold F1. by rewrite delayedFrame_childState, popFrame_childState. }
  assert (nextStep F1 = n) as HnextF1.
  { unfold F1. rewrite delayedFrame_nextStep, popFrame_nextStep, Hch.
    rewrite (bool_decide_eq_false_2 (Some c = None)) by done.
    by rewrite andb_false_r. }
  set (P2 := bubbleDelay C F1). set (C2 := set_delayUntil 0 C).
  set (h1 := <[c := C2]> (<[p := P2]> h)).
  assert (suspend now n d (mkStateManager h (Some p) out)
          = Done (notFailed P2) (mkStateManager h1 (Some p) out)) as Hsusp.
  { rewrite (suspend_root h out p P HP Hroot); cycle 1.
    { intros c' Hc'. assert (c' = c) as -> by congruence. eauto. }
    fold F1. unfold rootTransitionedFrame, rootTransitioned.
    rewrite HchF1, HC. unfold transitionedParent, transitioned.
    by rewrite Hpending. }
  assert (h1 !! p = Some P2) as HP2.
  { unfold h1. rewrite lookup_insert_ne by congruence. apply lookup_insert_eq. }
  assert (h1 !! c = Some C2) as HC2 by apply lookup_insert_eq.
  assert (begin (functionName C) k (mkStateManager h1 (Some p) out)
          = Done (currentStep C2) (mkStateManager h1 (Some c) out)) as Hbegin.
  { apply (begin_descend h1 out p P2 c C2); try done.
    - unfold P2, F1.
      by rewrite bubbleDelay_functionName, delayedFrame_functionName,
        popFrame_functionName.
    - unfold P2. by rewrite bubbleDelay_childState. }
  destruct (end_true_nonroot h1 out c p C2 P2)
    as (s' & P' & Hend & Hcur & HP' & Hstep & Hnext & Hchild & Hgone & _);
    try done.
  { unfold P2. by rewrite bubbleDelay_childState. }
  exists s', P'. repeat split; try done.
  - erewrite bind_Done by exact Hsusp. by erewrite bind_Done by exact Hbegin.
  - rewrite Hstep. unfold P2. by rewrite bubbleDelay_nextStep.
Qed.

(** ** The chain invariant is kept *)

Lemma NoDup_move_down a p (ups downs : list addr) :
  NoDup (a :: (p :: ups) ++ downs) → NoDup (p :: ups ++ a :: downs).
Proof.
  intros H. change (NoDup ((p :: ups) ++ a :: downs)).
  by rewrite <- Permutation_middle.
Qed.

Lemma NoDup_move_up a c (ups downs : list addr) :
  NoDup (a :: ups ++ c :: downs) → NoDup (c :: (a :: ups) ++ downs).
Proof.
  intros H. change (NoDup (c :: (a :: ups) ++ downs)).
  rewrite Permutation_middle. done.
Qed.

Lemma wf_shape h a out :
  wf (mkStateManager h (Some a) out) →
  ∃ ups downs F, NoDup (a :: ups ++ downs)
                 ∧ ancestry h a ups ∧ descent h a downs ∧ h !! a = Some F.
Proof.
  intros (ups & downs & Hnd & Hanc & Hdesc).
  destruct (ancestry_head _ _ _ Hanc) as [F HF]. by exists ups, downs, F.
Qed.

(** Writing fields other than the two links of the current frame. *)
Lemma wf_update_current h a out out' F F' :
  wf (mkStateManager h (Some a) out) → h !! a = Some F →
  parentState F' = parentState F → childState F' = childState F →
  wf (mkStateManager (<[a := F']> h) (Some a) out').
Proof.
  intros (ups & downs & Hnd & Hanc & Hdesc) HF Hpar Hch.
  exists ups, downs. cbn [heap] in *. apply NoDup_cons in Hnd as Hnd'.
  destruct Hnd' as [Hnin _]. repeat split; [done| |].
  - eapply ancestry_update; [set_solver | done | done | done].
  - eapply descent_update; [set_solver | done | done | done].
Qed.

(** The transition check of [p] over its child [a]. *)
Lemma wf_transitioned h out p a ups downs P F P1 C :
  NoDup (p :: ups ++ a :: downs) →
  ancestry h p ups → descent h p (a :: downs) →
  h !! p = Some P → h !! a = Some F →
  parentState P1 = parentState P → childState P1 = Some a →
  parentState C = parentState F → childState C = childState F →
  wf (transitioned h out p a P1 C).
Proof.
  intros Hnd Hanc Hdesc HP HF HparP HchP HparC HchC.
  assert (p ∉ ups ++ a :: downs) as Hp_nin by (by apply NoDup_cons in Hnd as [? _]).
  assert (NoDup (ups ++ a :: downs)) as Hnd' by (by apply NoDup_cons in Hnd as [_ ?]).
  apply NoDup_app in Hnd' as (Hups & Hdisj & Hdowns).
  assert (a ∉ downs) as Ha_nin by (by apply NoDup_cons in Hdowns as [? _]).
  assert (a ∉ ups) as Ha_ups by (intros Hin; apply (Hdisj a Hin); set_solver).
  assert (p ≠ a) as Hne by set_solver.
  assert (p ∉ ups) as Hp_ups by set_solver.
  destruct Hdesc as (P0 & F0 & HP0 & HchP0 & HF0 & HparF0 & Hdesc).
  assert (P0 = P) as -> by congruence. assert (F0 = F) as -> by congruence.
  unfold wf. rewrite transitioned_current. unfold transitioned.
  destruct (finished C); cbn [heap].
  - exists ups, []. split; [|split].
    + rewrite app_nil_r. apply NoDup_cons. by split.
    + eapply (ancestry_update _ p ups P); [done | | | ].
      * by rewrite lookup_delete_ne.
      * by rewrite transitionFrame_parentState.
      * eapply ancestry_agree; [|exact Hanc]. intros x Hx.
        rewrite lookup_delete_ne; [done|]. set_solver.
    + exists (transitionFrame C P1). by rewrite lookup_insert_eq.
  - exists ups, (a :: downs). split; [done|]. split.
    + eapply ancestry_agree; cycle 1.
      { eapply (ancestry_update h p ups P (bubbleDelay C P1)); try done.
        by rewrite bubbleDelay_parentState. }
      intros x Hx. rewrite lookup_insert_ne; [done|]. set_solver.
    + exists (bubbleDelay C P1), (set_delayUntil 0 C).
      rewrite lookup_insert_eq, lookup_insert_ne, lookup_insert_eq by done.
      repeat split; try done.
      * by rewrite bubbleDelay_childState.
      * cbn. congruence.
      * eapply (descent_update _ a downs F); [done | | done | ].
        -- by rewrite lookup_insert_ne.
        -- eapply descent_agree; [|exact Hdesc]. intros x Hx.
           rewrite lookup_insert_ne; [done|]. set_solver.
Qed.

(** In a well-formed engine the child link of the current frame, when
    set, leads to an allocated frame other than the current one. *)
Lemma wf_child h a out F :
  wf (mkStateManager h (Some a) out) → h !! a = Some F →
  ∀ c, childState F = Some c → a ≠ c ∧ is_Some (h !! c).
Proof.
  intros (ups & downs & Hnd & Hanc & Hdesc) HF c Hc. cbn [heap] in *.
  destruct downs as [|c' downs].
  - destruct Hdesc as (F0 & HF0 & Hnone). congruence.
  - destruct Hdesc as (F0 & C & HF0 & Hc0 & HC & _).
    assert (c' = c) as -> by congruence. split; [|eauto].
    apply NoDup_cons in Hnd as [Hnin _]. set_solver.
Qed.

(** ... and its parent link, when set, leads to an allocated frame whose
    child link comes back. *)
Lemma wf_parent h a out F :
  wf (mkStateManager h (Some a) out) → h !! a = Some F →
  ∀ p, parentState F = Some p →
       p ≠ a ∧ ∃ P, h !! p = Some P ∧ childState P = Some a.
Proof.
  intros (ups & downs & Hnd & Hanc & Hdesc) HF p Hp. cbn [heap] in *.
  destruct ups as [|p' ups].
  - destruct Hanc as (F0 & HF0 & Hnone). congruence.
  - destruct Hanc as (F0 & P & HF0 & Hp0 & HP & Hch & _).
    assert (p' = p) as -> by congruence. split; [|eauto].
    apply NoDup_cons in Hnd as [Hnin _]. set_solver.
Qed.

Lemma wf_begin name k s r s' : wf s → begin name k s = Done r s' → wf s'.
Proof.
  destruct s as [h [a|] out]; intros Hwf Hrun; cycle 1.
  { rewrite begin_root in Hrun. injection Hrun as <- <-.
    exists [], []. cbn [heap app]. split; [apply NoDup_singleton|].
    split; eexists; by rewrite lookup_insert_eq. }
  destruct (wf_shape h a out Hwf) as (ups & downs & F & Hnd & Hanc & Hdesc & HF).
  destruct (decide (functionName F = name)) as [Hn|Hn].
  { rewrite (begin_resume h out a F) in Hrun by done. by injection Hrun as <- <-. }
  assert (a ∉ ups ++ downs) as Ha_nin by (by apply NoDup_cons in Hnd as [? _]).
  destruct downs as [|c downs].
  - (* no child: a fresh frame is linked under the current one *)
    destruct Hdesc as (F0 & HF0 & Hnone). assert (F0 = F) as -> by congruence.
    rewrite (begin_nested h out a F) in Hrun by done. injection Hrun as <- <-.
    assert (∀ x, x ∈ a :: ups → fresh (dom h) ≠ x) as Hfresh.
    { intros x Hx. destruct (ancestry_allocated h a ups Hanc x Hx) as [X HX].
      by apply (fresh_not_allocated h x X). }
    set (n := fresh (dom h)) in *.
    assert (n ≠ a) by (apply Hfresh; set_solver).
    exists (a :: ups), []. cbn [heap]. split; [|split].
    + rewrite app_nil_r. rewrite app_nil_r in Hnd. apply NoDup_cons.
      split; [|done]. intros Hin. by apply (Hfresh n).
    + exists (createdFrame name k (Some a)), (set_childState (Some n) F).
      rewrite lookup_insert_eq, lookup_insert_ne, lookup_insert_eq by done.
      repeat split; try done.
      eapply (ancestry_update _ a ups F); [set_solver | | done | ].
      * by rewrite lookup_insert_ne.
      * eapply ancestry_agree; [|exact Hanc]. intros x Hx.
        rewrite lookup_insert_ne; [done|]. by apply Hfresh.
    + exists (createdFrame name k (Some a)).
      by rewrite lookup_insert_ne, lookup_insert_eq.
  - destruct Hdesc as (F0 & C & HF0 & Hc & HC & HparC & Hdesc).
    assert (F0 = F) as -> by congruence.
    assert (a ≠ c) as Hne by set_solver.
    destruct (decide (functionName C = name)) as [HnC|HnC].
    + (* the child is resumed *)
      rewrite (begin_descend h out a F c C) in Hrun by done.
      injection Hrun as <- <-. exists (a :: ups), downs. cbn [heap].
      split; [by apply NoDup_move_up|]. split; [|done].
      exists C, F. repeat split; done.
    + (* the child is replaced *)
      rewrite (begin_replace h out a F c C) in Hrun by done.
      injection Hrun as <- <-.
      assert (c ∉ a :: ups) as Hc_nin.
      { apply NoDup_move_up in Hnd. apply NoDup_cons in Hnd as [Hnin _].
        set_solver. }
      assert (∀ x, x ∈ a :: ups → fresh (dom (delete c h)) ≠ x) as Hfresh.
      { intros x Hx. destruct (ancestry_allocated h a ups Hanc x Hx) as [X HX].
        apply (fresh_not_allocated (delete c h) x X).
        rewrite lookup_delete_ne; [done|]. intros ->. done. }
      set (n := fresh (dom (delete c h))) in *.
      assert (n ≠ a) by (apply Hfresh; set_solver).
      exists (a :: ups), []. cbn [heap]. split; [|split].
      * rewrite app_nil_r. apply NoDup_cons. split.
        -- intros Hin. by apply (Hfresh n).
        -- apply NoDup_cons in Hnd as [_ Hnd]. apply NoDup_cons. split; [set_solver|].
           by apply NoDup_app in Hnd as [? _].
      * exists (createdFrame name k (Some a)), (set_childState (Some n) F).
        rewrite lookup_insert_eq, lookup_insert_ne, lookup_insert_eq by done.
        repeat split; try done.
        eapply (ancestry_update _ a ups F); [set_solver | | done | ].
        -- rewrite lookup_insert_ne by done. by rewrite lookup_delete_ne.
        -- eapply ancestry_agree; [|exact Hanc]. intros x Hx.
           rewrite lookup_insert_ne, lookup_delete_ne; [done | | ].
           ++ intros ->. done.
           ++ by apply Hfresh.
      * exists (createdFrame name k (Some a)).
        by rewrite lookup_insert_ne, lookup_insert_eq.
Qed.

(** [begin] never faults on a well-formed engine. *)
Lemma begin_defined name k s : wf s → ∃ r s', begin name k s = Done r s'.
Proof.
  destruct s as [h [a|] out]; intros Hwf; [|rewrite begin_root; eauto].
  destruct (wf_shape h a out Hwf) as (ups & downs & F & Hnd & Hanc & Hdesc & HF).
  destruct (decide (functionName F = name)) as [Hn|Hn].
  { rewrite (begin_resume h out a F) by done. eauto. }
  destruct (childState F) as [c|] eqn:Hc.
  - destruct (wf_child h a out F Hwf HF c Hc) as [Hne [C HC]].
    destruct (decide (functionName C = name)) as [HnC|HnC].
    + rewrite (begin_descend h out a F c C) by done. eauto.
    + rewrite (begin_replace h out a F c C) by done. eauto.
  - rewrite (begin_nested h out a F) by done. eauto.
Qed.

(** [suspend] and [end] never fault on a well-formed engine that has a
    current frame; they leave it well formed, standing on the parent of
    that frame, or on the frame itself when it is the root. *)
Lemma ascend_wf op h a out F :
  wf (mkStateManager h (Some a) out) → h !! a = Some F →
  ∃ r s' G,
    ascend op (mkStateManager h (Some a) out) = Done r s'
    ∧ wf s'
    ∧ currentState s' = Some (default a (parentState F))
    ∧ heap s' !! default a (parentState F) = Some G
    ∧ r = ascendResult op G.
Proof.
  intros Hwf HF.
  destruct Hwf as (ups & downs & Hnd & Hanc & Hdesc). cbn [heap] in *.
  destruct ups as [|p ups].
  - (* the root ascends onto itself *)
    destruct Hanc as (F0 & HF0 & Hroot). assert (F0 = F) as -> by congruence.
    rewrite Hroot. cbn [default]. change (id a) with a.
    set (F1 := delayedFrame op (poppedFrame op F)).
    assert (parentState F1 = parentState F) as Hpar1.
    { unfold F1. by rewrite delayedFrame_parentState, poppedFrame_parentState. }
    assert (childState F1 = childState F) as Hch1.
    { unfold F1. by rewrite delayedFrame_childState, poppedFrame_childState. }
    assert (wf (mkStateManager h (Some a) out)) as Hwf.
    { exists [], downs. split; [done|]. split; [by exists F|done]. }
    pose proof (ascend_root h out a F HF Hroot (wf_child h a out F Hwf HF) op) as Hrun.
    fold F1 in Hrun. cbn zeta in Hrun.
    exists (ascendResult op (rootTransitionedFrame h F1)),
      (rootTransitioned h out a F1), (rootTransitionedFrame h F1).
    split; [done|].
    unfold rootTransitioned, rootTransitionedFrame. rewrite Hch1.
    destruct downs as [|c downs].
    + destruct Hdesc as (F0 & HF0' & Hnone). assert (F0 = F) as -> by congruence.
      rewrite Hnone. cbn [currentState heap]. rewrite lookup_insert_eq.
      repeat split; try done. by apply (wf_update_current h a out out F F1).
    + destruct Hdesc as (F0 & C & HF0' & Hc & HC & HparC & Hdesc).
      assert (F0 = F) as -> by congruence. rewrite Hc, HC.
      assert (a ≠ c) as Hne.
      { apply NoDup_cons in Hnd as [Hnin _]. set_solver. }
      rewrite transitioned_current, transitioned_parent by done.
      repeat split; try done.
      apply (wf_transitioned h out a c [] downs F C F1 C); try done.
      * by exists F.
      * exists F, C. by repeat split.
      * congruence.
  - (* a nested frame ascends to its parent *)
    destruct (ascend_step h out a p ups op) as (F0 & P & r & HF0 & HP & Hne & Hstep).
    { apply NoDup_cons in Hnd as [Hnin Hnd]. apply NoDup_cons. split; [set_solver|].
      change (NoDup ((p :: ups) ++ downs)) in Hnd.
      by apply NoDup_app in Hnd as [? _]. }
    { done. }
    assert (F0 = F) as -> by congruence.
    cbn zeta in Hstep. destruct Hstep as (Hrun & Heta & Hlook & Hanc').
    destruct Hanc as (F0 & P0 & HF0' & Hpar & HP0 & Hch & Hanc).
    assert (F0 = F) as -> by congruence. assert (P0 = P) as -> by congruence.
    rewrite Hpar. cbn [default]. change (id p) with p.
    eexists r, _, _. split; [exact Hrun|].
    rewrite transitioned_current, Hlook. repeat split; try done; cycle 1.
    { pose proof (ascend_nonroot h out a p F P HF Hpar HP Hch Hne op) as Hrun'.
      cbn zeta in Hrun'. rewrite Hrun in Hrun'. by injection Hrun' as ->. }
    apply (wf_transitioned h out p a ups downs P F); try done.
    + by apply NoDup_move_down.
    + exists P, F. by repeat split.
    + by rewrite delayedFrame_parentState.
    + by rewrite delayedFrame_childState.
    + by rewrite poppedFrame_parentState.
    + by rewrite poppedFrame_childState.
Qed.

Lemma destroy_defined h a out :
  wf (mkStateManager h (Some a) out) →
  ∃ h', destroy (mkStateManager h (Some a) out)
        = Done tt (mkStateManager h' None out).
Proof.
  intros Hwf. destruct (wf_shape h a out Hwf) as (_ & _ & F & _ & _ & _ & HF).
  destruct (destroy_releases_two_frames h out a F a HF (wf_child h a out F Hwf HF))
    as (h' & Hrun & _).
  by exists h'.
Qed.

Lemma resetDelay_spec h out a F :
  h !! a = Some F →
  resetDelay (mkStateManager h (Some a) out)
  = Done (delayUntil F) (mkStateManager (<[a := set_delayUntil 0 F]> h) (Some a) out).
Proof. intros Ha. unfold resetDelay. by exec. Qed.

Lemma setState_int_spec h out a F v :
  h !! a = Some F →
  setState_int v (mkStateManager h (Some a) out)
  = Done tt (mkStateManager (<[a := set_int1 v F]> h) (Some a) out).
Proof. intros Ha. unfold setState_int. by exec. Qed.

Lemma setState_uint8_spec h out a F v :
  h !! a = Some F →
  setState_uint8 v (mkStateManager h (Some a) out)
  = Done tt (mkStateManager (<[a := set_uint1 v F]> h) (Some a) out).
Proof. intros Ha. unfold setState_uint8. by exec. Qed.

Lemma setState_ulong_spec h out a F v :
  h !! a = Some F →
  setState_ulong v (mkStateManager h (Some a) out)
  = Done tt (mkStateManager (<[a := set_ulong1 v F]> h) (Some a) out).
Proof. intros Ha. unfold setState_ulong. by exec. Qed.

Lemma setState_String_spec h out a F v :
  h !! a = Some F →
  setState_String v (mkStateManager h (Some a) out)
  = Done tt (mkStateManager (<[a := set_string1 v F]> h) (Some a) out).
Proof. intros Ha. unfold setState_String. by exec. Qed.

Lemma getState_int_spec h out a F :
  h !! a = Some F →
  getState_int (mkStateManager h (Some a) out)
  = Done (int1 F) (mkStateManager h (Some a) out).
Proof. intros Ha. unfold getState_int. by exec. Qed.

Lemma getState_uint8_spec h out a F :
  h !! a = Some F →
  getState_uint8 (mkStateManager h (Some a) out)
  = Done (uint1 F) (mkStateManager h (Some a) out).
Proof. intros Ha. unfold getState_uint8. by exec. Qed.

Lemma getState_ulong_spec h out a F :
  h !! a = Some F →
  getState_ulong (mkStateManager h (Some a) out)
  = Done (ulong1 F) (mkStateManager h (Some a) out).
Proof. intros Ha. unfold getState_ulong. by exec. Qed.

Lemma getState_String_spec h out a F :
  h !! a = Some F →
  getState_String (mkStateManager h (Some a) out)
  = Done (string1 F) (mkStateManager h (Some a) out).
Proof. intros Ha. unfold getState_String. by exec. Qed.

(** ** Every public call keeps the chain *)

Lemma lift_Done {A} (f : A → value) (m : M A) s x s' :
  m s = Done x s' → lift f m s = Done (f x) s'.
Proof. intros H. unfold lift. by erewrite bind_Done by exact H. Qed.

(** A public call on a well-formed engine with a current frame returns,
    and the engine it leaves is well formed and, unless the call was
    [destroy], still has a current frame. *)
Lemma call_defined m h a out :
  isPublic m = true → wf (mkStateManager h (Some a) out) →
  ∃ v s', call m (mkStateManager h (Some a) out) = Done v s' ∧ wf s'
          ∧ (releases m = false → is_Some (currentState s')).
Proof.
  intros Hpub Hwf.
  destruct (wf_shape h a out Hwf) as (ups & downs & F & Hnd & Hanc & Hdesc & HF).
  destruct m; try discriminate Hpub; cbn [call releases].
  - destruct (destroy_defined h a out Hwf) as [h' Hrun].
    eexists _, _. split; [by apply lift_Done|done].
  - destruct (destroy_defined h a out Hwf) as [h' Hrun].
    eexists _, _. split; [by apply lift_Done|done].
  - destruct (destroy_defined h a out Hwf) as [h' Hrun].
    eexists _, _. split; [by apply lift_Done|done].
  - eexists _, _. split; [by apply lift_Done, (getStatus_current h out a F)|].
    split; [done|]. by eexists.
  - eexists _, _. split; [by apply lift_Done, (resetDelay_spec h out a F)|].
    split; [by apply (wf_update_current h a out out F)|]. by eexists.
  - destruct (begin_defined name firstStep _ Hwf) as (r & s' & Hrun).
    eexists _, _. split; [by apply lift_Done|]. split; [by eapply wf_begin|].
    intros _. destruct (begin_lands _ _ _ _ _ Hrun) as (b & G & Hcur & _).
    by eexists.
  - eexists _, _. split; [by apply lift_Done, (setState_int_spec h out a F)|].
    split; [by apply (wf_update_current h a out out F)|]. by eexists.
  - eexists _, _. split; [by apply lift_Done, (setState_uint8_spec h out a F)|].
    split; [by apply (wf_update_current h a out out F)|]. by eexists.
  - eexists _, _. split; [by apply lift_Done, (setState_ulong_spec h out a F)|].
    split; [by apply (wf_update_current h a out out F)|]. by eexists.
  - eexists _, _. split; [by apply lift_Done, (setState_String_spec h out a F)|].
    split; [by apply (wf_update_current h a out out F)|]. by eexists.
  - eexists _, _. split; [by apply lift_Done, (getState_int_spec h out a F)|].
    split; [done|]. by eexists.
  - eexists _, _. split; [by apply lift_Done, (getState_uint8_spec h out a F)|].
    split; [done|]. by eexists.
  - eexists _, _. split; [by apply lift_Done, (getState_ulong_spec h out a F)|].
    split; [done|]. by eexists.
  - eexists _, _. split; [by apply lift_Done, (getState_String_spec h out a F)|].
    split; [done|]. by eexists.
  - destruct (ascend_wf op h a out F Hwf HF) as (r & s' & G & Hrun & Hwf' & Hcur & _).
    eexists _, _. split; [by apply lift_Done|]. split; [done|]. by eexists.
Qed.

Lemma call_no_frame m h out :
  if handlesNoFrame m
  then ∃ v s', call m (mkStateManager h None out) = Done v s' ∧ wf s'
  else call m (mkStateManager h None out) = Undefined NullDereference.
Proof.
  destruct m as [ | | | | |name k| | | | | | | | |op|name k parent|c n| ];
    cbn [handlesNoFrame call]; try reflexivity.
  - eexists _, _. split; [by apply lift_Done, destroy_empty|done].
  - eexists _, _. split; [by apply lift_Done, destroy_empty|done].
  - eexists _, _. split; [by apply lift_Done, destroy_empty|done].
  - eexists _, _. split; [reflexivity|done].
  - eexists _, _. split; [by apply lift_Done, begin_root|].
    eapply (wf_begin name k (mkStateManager h None out)); [done|apply begin_root].
  - by destruct op as [now n d|now|[]].
  - eexists _, _. split; [by apply lift_Done, createState_spec|done].
  - eexists _, _. split; [reflexivity|done].
Qed.

Lemma call_wf m s v s' :
  isPublic m = true → wf s → call m s = Done v s' → wf s'.
Proof.
  destruct s as [h [a|] out]; intros Hpub Hwf Hrun.
  - destruct (call_defined m h a out Hpub Hwf) as (v' & s'' & Hrun' & Hwf' & _).
    congruence.
  - pose proof (call_no_frame m h out) as Hnf.
    destruct (handlesNoFrame m).
    + destruct Hnf as (v' & s'' & Hrun' & Hwf'). congruence.
    + congruence.
Qed.

Theorem reachable_wf s : reachable s → wf s.
Proof.
  induction 1 as [|m s v s' _ IH Hpub Hrun]; [done|]. by eapply call_wf.
Qed.

(** ** Calls that need a current frame *)

(** C10, as amended.  [resetDelay], every [setState] and [getState]
    overload and both [suspend] overloads dereference the null pointer
    when there is no current frame, and never fault on an engine a program
    can reach that has one; a current frame is there from the first
    [begin] until the next [init], [destroy] or destructor call.  With no
    current frame, the calls that return are [getStatus], [popState] and
    [destroy] with its callers [init] and the destructor, and also [begin],
    which creates the root frame, and [createState], which does not read
    [currentState]; every other member function, [end] and
    [transitionState] included, dereferences the null pointer. *)
Theorem accessors_need_a_current_frame :
  (∀ m s, readsCurrentFrame m = true → currentState s = None →
     call m s = Undefined NullDereference)
  ∧ (∀ m s, readsCurrentFrame m = true → reachable s → is_Some (currentState s) →
       ∃ v s', call m s = Done v s')
  ∧ (∀ name k s r s', reachable s → begin name k s = Done r s' →
       is_Some (currentState s'))
  ∧ (∀ m s v s', reachable s → is_Some (currentState s) → isPublic m = true →
       releases m = false → call m s = Done v s' → is_Some (currentState s'))
  ∧ (∀ m s, currentState s = None →
       (∃ v s', call m s = Done v s') ↔ handlesNoFrame m = true)
  ∧ (∀ m s, currentState s = None → handlesNoFrame m = false →
       call m s = Undefined NullDereference).
Proof.
  assert (∀ m s, currentState s = None → handlesNoFrame m = false →
            call m s = Undefined NullDereference) as Hnull.
  { intros m [h cur out] Hcur Hm. cbn in Hcur. subst cur.
    pose proof (call_no_frame m h out) as Hnf. by rewrite Hm in Hnf. }
  split.
  { intros m s Hm Hcur. apply Hnull; [done|].
    by destruct m as [ | | | | | | | | | | | | | |[]| | | ]. }
  split.
  { intros m [h cur out] Hm Hreach [a Hcur]. cbn in Hcur. subst cur.
    destruct (call_defined m h a out) as (v & s' & Hrun & _); [| |eauto].
    - by destruct m.
    - by apply reachable_wf. }
  split.
  { intros name k s r s' _ Hrun.
    destruct (begin_lands _ _ _ _ _ Hrun) as (a & F & Hcur & _). by eexists. }
  split.
  { intros m [h cur out] v s' Hreach [a Hcur] Hpub Hrel Hrun.
    cbn in Hcur. subst cur.
    destruct (call_defined m h a out Hpub) as (v' & s'' & Hrun' & _ & Hsome).
    - by apply reachable_wf.
    - rewrite Hrun in Hrun'. injection Hrun' as _ <-. by apply Hsome. }
  split; [|exact Hnull].
  intros m [h cur out] Hcur. cbn in Hcur. subst cur. split.
  - intros (v & s' & Hrun). destruct (handlesNoFrame m) eqn:Hm; [done|].
    rewrite Hnull in Hrun; done.
  - intros Hm. pose proof (call_no_frame m h out) as Hnf. rewrite Hm in Hnf.
    destruct Hnf as (v & s' & Hrun & _). eauto.
Qed.

(** C10 as stated fails at [begin]: it is none of [getStatus], [popState]
    and [destroy], and on the fresh engine it returns. *)
Lemma begin_handles_the_empty_engine :
  ¬ (∀ m, (∃ v s', call m emptyEngine = Done v s') →
          m = GetStatus ∨ (∃ c n, m = PopState c n) ∨ m = Destroy).
Proof.
  intros Hall. destruct (Hall (Begin "A" 1)) as [H|[(c & n & H)|H]]; try done.
  eexists _, _. reflexivity.
Qed.

(** ** The phases of [suspend] *)

Lemma suspend_phases now n d h out a F :
  h !! a = Some F →
  suspend now n d (mkStateManager h (Some a) out)
  = (popState (currentStep F) n ;;; recordDelay now d ;;; checkTransition)
      (mkStateManager h (Some a) out).
Proof. intros Ha. unfold suspend. by exec. Qed.

(** C5, as amended.  [suspend(nextStep, delay)] first rewrites the
    current frame: with no outstanding child and a nonzero [nextStep],
    [currentStep] becomes [nextStep] and [nextStep] is cleared; with no
    outstanding child and [nextStep] 0, [currentStep] stays and [nextStep]
    is 0; with a child outstanding, [currentStep] stays and [nextStep] is
    stored.  No other field of the frame and no other frame changes.  The
    current pointer then moves to the parent, or stays where the frame has
    none.  If [delay > 0], the [delayUntil] of the frame now current is set
    to [now + delay] in [unsigned long] arithmetic.  Only then does the
    transition check run, on that frame. *)
Theorem suspend_rewrites_frame_then_ascends now n d h out a F :
  h !! a = Some F →
  (∀ p, parentState F = Some p → is_Some (h !! p)) →
  let q := default a (parentState F) in
  ∃ F' s1 s2,
    popState (currentStep F) n (mkStateManager h (Some a) out) = Done tt s1
    ∧ s1 = mkStateManager (<[a := F']> h) (Some q) out
    ∧ F' = set_nextStep (nextStep F') (set_currentStep (currentStep F') F)
    ∧ (childState F = None → n ≠ 0 → currentStep F' = n ∧ nextStep F' = 0)
    ∧ (childState F = None → n = 0 →
         currentStep F' = currentStep F ∧ nextStep F' = 0)
    ∧ (childState F ≠ None → currentStep F' = currentStep F ∧ nextStep F' = n)
    ∧ recordDelay now d s1 = Done tt s2
    ∧ (d > 0 → ∃ Q, heap s1 !! q = Some Q
                    ∧ s2 = mkStateManager
                             (<[q := set_delayUntil (ulong_add now d) Q]> (heap s1))
                             (Some q) out)
    ∧ (d ≤ 0 → s2 = s1)
    ∧ suspend now n d (mkStateManager h (Some a) out) = checkTransition s2.
Proof.
  intros Ha Hpar q.
  set (F' := popFrame (currentStep F) n F).
  set (s1 := mkStateManager (<[a := F']> h) (Some q) out).
  assert (popState (currentStep F) n (mkStateManager h (Some a) out) = Done tt s1)
    as Hpop by (by apply popState_spec).
  assert (∃ Q, heap s1 !! q = Some Q) as [Q HQ].
  { unfold s1, q. cbn [heap]. destruct (parentState F) as [p|] eqn:Hp; cbn [default].
    - destruct (decide (a = p)) as [->|Hne].
      + rewrite lookup_insert_eq. eauto.
      + rewrite lookup_insert_ne by done. by apply Hpar.
    - change (id a) with a. rewrite lookup_insert_eq. eauto. }
  set (s2 := if bool_decide (d > 0)
             then mkStateManager
                    (<[q := set_delayUntil (ulong_add now d) Q]> (heap s1))
                    (Some q) out
             else s1).
  assert (recordDelay now d s1 = Done tt s2) as Hdelay.
  { unfold recordDelay, s2. destruct (bool_decide (d > 0)); [|done].
    unfold s1 in *. cbn [heap] in *. by exec. }
  exists F', s1, s2.
  split; [done|]. split; [done|].
  split; [unfold F', popFrame; by destruct (_ && _), F|].
  unfold F' at 1 2 3 4 5 6. rewrite popFrame_currentStep, popFrame_nextStep.
  split; [intros Hc Hn; by rewrite !bool_decide_eq_true_2|].
  split; [intros _ Hn; by rewrite bool_decide_eq_false_2 by tauto|].
  split.
  { intros Hc. rewrite (bool_decide_eq_false_2 (childState F = None)) by done.
    by rewrite andb_false_r. }
  split; [done|]. split.
  { intros Hd. exists Q. split; [done|]. unfold s2.
    by rewrite bool_decide_eq_true_2. }
  split.
  { intros Hd. unfold s2. by rewrite bool_decide_eq_false_2 by lia. }
  rewrite (suspend_phases now n d h out a F Ha).
  erewrite bind_Done by exact Hpop. by erewrite bind_Done by exact Hdelay.
Qed.

Lemma suspend_rewrites_frame_then_ascends_witness :
  ∃ F' s1 s2,
    popState 1 2 engineAB = Done tt s1
    ∧ s1 = mkStateManager (<[2%positive := F']> (heap engineAB)) (Some 1%positive) []
    ∧ F' = set_nextStep (nextStep F')
             (set_currentStep (currentStep F') (frameAt engineAB 2%positive))
    ∧ (childState (frameAt engineAB 2%positive) = None → 2 ≠ 0 →
         currentStep F' = 2 ∧ nextStep F' = 0)
    ∧ (childState (frameAt engineAB 2%positive) = None → 2 = 0 →
         currentStep F' = 1 ∧ nextStep F' = 0)
    ∧ (childState (frameAt engineAB 2%positive) ≠ None →
         currentStep F' = 1 ∧ nextStep F' = 2)
    ∧ recordDelay 1000 500 s1 = Done tt s2
    ∧ (500 > 0 → ∃ Q, heap s1 !! 1%positive = Some Q
                      ∧ s2 = mkStateManager
                               (<[1%positive := set_delayUntil (ulong_add 1000 500) Q]>
                                  (heap s1))
                               (Some 1%positive) [])
    ∧ (500 ≤ 0 → s2 = s1)
    ∧ suspend 1000 2 500 engineAB = checkTransition s2.
Proof.
  apply (suspend_rewrites_frame_then_ascends 1000 2 500 (heap engineAB) []
           2%positive (frameAt engineAB 2%positive) eq_refl).
  intros p Hp. injection Hp as <-. exists (frameAt engineAB 1%positive).
  reflexivity.
Defined.

(** C5 as stated fails when [nextStep] is 0: the root frame [A] stands at
    step 1 with no child, and after [suspend(0)] its [currentStep] is still
    1, not 0. *)
Lemma suspend_to_step_zero_keeps_currentStep :
  currentState engineA = Some 1%positive
  ∧ childState (frameAt engineA 1%positive) = None
  ∧ currentStep (frameAt engineA 1%positive) = 1
  ∧ ∃ s1 s',
      popState 1 0 engineA = Done tt s1
      ∧ currentStep (frameAt s1 1%positive) = 1
      ∧ suspend 0 0 0 engineA = Done true s'
      ∧ currentStep (frameAt s' 1%positive) = 1
      ∧ currentStep (frameAt s' 1%positive) ≠ 0.
Proof.
  repeat split.
  exists (stateOf (popState 1 0 engineA)), (stateOf (suspend 0 0 0 engineA)).
  by vm_compute.
Qed.

(** ** What [suspend] returns *)

(** C7, as amended.  On a well-formed engine with a current frame -- every
    engine a program can reach is well formed, [reachable_wf] -- both
    [suspend] overloads return, and they return [false] exactly when the
    frame they ascended to stands at [stepFailure] once the transition
    check has run, whether that check or an earlier write put the step
    there, and [true] otherwise. *)
Theorem suspend_false_iff_ascended_frame_failed op h a out F :
  (∀ status, op ≠ End status) →
  wf (mkStateManager h (Some a) out) → h !! a = Some F →
  ∃ b s' G,
    ascend op (mkStateManager h (Some a) out) = Done b s'
    ∧ currentState s' = Some (default a (parentState F))
    ∧ heap s' !! default a (parentState F) = Some G
    ∧ (b = false ↔ currentStep G = stepFailure)
    ∧ (b = true ↔ currentStep G ≠ stepFailure).
Proof.
  intros Hop Hwf HF.
  destruct (ascend_wf op h a out F Hwf HF) as (b & s' & G & Hrun & _ & Hcur & HG & Hb).
  exists b, s', G. repeat split; try done.
  - intros ->. destruct op as [now n d|now|status]; [| |by destruct (Hop status)];
      cbn in Hb; unfold notFailed in Hb;
      by destruct (decide (currentStep G = stepFailure));
        [|rewrite bool_decide_eq_false_2 in Hb].
  - intros HsG. destruct op as [now n d|now|status]; [| |by destruct (Hop status)];
      cbn in Hb; unfold notFailed in Hb; by rewrite bool_decide_eq_true_2 in Hb.
  - intros -> HsG. destruct op as [now n d|now|status]; [| |by destruct (Hop status)];
      cbn in Hb; unfold notFailed in Hb; by rewrite bool_decide_eq_true_2 in Hb.
  - intros HsG. destruct op as [now n d|now|status]; [| |by destruct (Hop status)];
      cbn in Hb; unfold notFailed in Hb; by rewrite bool_decide_eq_false_2 in Hb.
Qed.

(** C7 as stated fails here: [A] already stands at [stepFailure] when it
    calls [suspend()].  The transition check finds no child, makes no
    transition and leaves the engine untouched, and [suspend] still
    returns [false]. *)
Lemma suspend_false_without_failing_transition :
  currentState engineAfterFailure = Some 1%positive
  ∧ currentStep (frameAt engineAfterFailure 1%positive) = stepFailure
  ∧ ∃ s2,
      (popState stepFailure stepFailure ;;; recordDelay 7 0) engineAfterFailure
      = Done tt s2
      ∧ currentStep (frameAt s2 1%positive) = stepFailure
      ∧ transitionState s2 = Done false s2
      ∧ suspend0 7 engineAfterFailure = Done false s2.
Proof.
  split; [reflexivity|]. split; [reflexivity|].
  exists (stateOf ((popState stepFailure stepFailure ;;; recordDelay 7 0)
                     engineAfterFailure)).
  by vm_compute.
Qed.

Lemma suspend_false_iff_ascended_frame_failed_witness :
  ∃ b s' G,
    ascend (Suspend 1000 2 500) (mkStateManager (heap engineAB) (Some 2%positive) [])
    = Done b s'
    ∧ currentState s'
      = Some (default 2%positive (parentState (frameAt engineAB 2%positive)))
    ∧ heap s' !! default 2%positive (parentState (frameAt engineAB 2%positive))
      = Some G
    ∧ (b = false ↔ currentStep G = stepFailure)
    ∧ (b = true ↔ currentStep G ≠ stepFailure).
Proof.
  apply (suspend_false_iff_ascended_frame_failed (Suspend 1000 2 500)
           (heap engineAB) 2%positive [] (frameAt engineAB 2%positive)).
  - intros status. discriminate.
  - exists [1%positive], []. split; [|split].
    + apply (bool_decide_unpack _). by vm_compute.
    + exists (frameAt engineAB 2%positive), (frameAt engineAB 1%positive).
      repeat split. exists (frameAt engineAB 1%positive). by split.
    + exists (frameAt engineAB 2%positive). by split.
  - reflexivity.
Defined.

Lemma end_true_resumes_parent_at_stored_nextStep_witness :
  ∃ s' P',
    (suspend 1000 5 0 ;;; begin "B" 1 ;;; end_ true)
      (mkStateManager (heap engineAB) (Some 1%positive) []) = Done true s'
    ∧ currentState s' = Some 1%positive
    ∧ heap s' !! 1%positive = Some P'
    ∧ currentStep P' = 5 ∧ nextStep P' = 0 ∧ childState P' = None
    ∧ heap s' !! 2%positive = None.
Proof.
  apply (proj2 end_true_resumes_parent_at_stored_nextStep (heap engineAB) []
           1%positive 2%positive (frameAt engineAB 1%positive)
           (frameAt engineAB 2%positive) 1000 5 0 1);
    try reflexivity; by vm_compute.
Defined.

Lemma failure_propagates_to_every_ancestor_witness :
  ∃ s' b G,
    ascendAll [End false; Suspend0 7]
      (mkStateManager (heap engineABC) (Some 3%positive) []) = Done tt s'
    ∧ [3%positive; 2%positive; 1%positive] !! 2%nat = Some b
    ∧ currentState s' = Some b
    ∧ heap s' !! b = Some G ∧ currentStep G = stepFailure
    ∧ (∀ x, x ∈ take 2 [3%positive; 2%positive; 1%positive] → heap s' !! x = None)
    ∧ getStatus s' = Done stepFailure s'
    ∧ (2%nat = 2%nat → parentState G = None).
Proof.
  apply (failure_propagates_to_every_ancestor [Suspend0 7] (heap engineABC) []
           3%positive [2%positive; 1%positive]).
  - apply (bool_decide_unpack _). by vm_compute.
  - exists (frameAt engineABC 3%positive), (frameAt engineABC 2%positive).
    repeat split.
    exists (frameAt engineABC 2%positive), (frameAt engineABC 1%positive).
    repeat split. exists (frameAt engineABC 1%positive). by split.
  - by repeat constructor.
  - cbn. lia.
Defined.

Lemma delay_reaches_root_after_depth_ascensions_witness :
  ∃ s' b G,
    ascendAll [Suspend0 1001; End true]
      (mkStateManager (heap engineDelayed) (Some 3%positive) []) = Done tt s'
    ∧ [3%positive; 2%positive; 1%positive] !! 2%nat = Some b
    ∧ currentState s' = Some b
    ∧ heap s' !! b = Some G
    ∧ delayUntil G = delayUntil (frameAt engineDelayed 3%positive)
    ∧ (∀ b' G', b' ≠ b → heap s' !! b' = Some G' → delayUntil G' = 0)
    ∧ ∀ root, last [3%positive; 2%positive; 1%positive] = Some root →
        ∃ R, heap s' !! root = Some R
             ∧ (2%nat = 2%nat → root = b ∧ parentState R = None)
             ∧ ((2 < 2)%nat → delayUntil R = 0).
Proof.
  apply (delay_reaches_root_after_depth_ascensions [Suspend0 1001; End true]
           (heap engineDelayed) [] 3%positive [2%positive; 1%positive]
           (frameAt engineDelayed 3%positive)).
  - apply (bool_decide_unpack _). by vm_compute.
  - exists (frameAt engineDelayed 3%positive), (frameAt engineDelayed 2%positive).
    repeat split.
    exists (frameAt engineDelayed 2%positive), (frameAt engineDelayed 1%positive).
    repeat split. exists (frameAt engineDelayed 1%positive). by split.
  - reflexivity.
  - by vm_compute.
  - intros b G Hne Hlook. revert Hne. revert b G Hlook.
    apply (map_Forall_lookup (λ b G, b ≠ 3%positive → delayUntil G = 0)).
    apply (bool_decide_unpack _). by vm_compute.
  - cbn. lia.
Defined.

Lemma accessors_need_a_current_frame_witness :
  call ResetDelay emptyEngine = Undefined NullDereference
  ∧ ∃ v s', call ResetDelay engineAB = Done v s'.
Proof.
  split.
  - apply (proj1 accessors_need_a_current_frame ResetDelay emptyEngine);
      reflexivity.
  - apply (proj1 (proj2 accessors_need_a_current_frame) ResetDelay engineAB).
    + reflexivity.
    + apply (reachable_call (Begin "B" 1) engineA (VNum 1) engineAB);
        [|reflexivity|reflexivity].
      apply (reachable_call (Begin "A" 1) emptyEngine (VNum 1) engineA);
        [|reflexivity|reflexivity].
      apply reachable_fresh.
    + by eexists.
Defined.

(** ** The scenarios of the specification *)

(** [A] begins at step 1 and calls [B] at step 1; [B] suspends to step 2
    asking for 500 ticks at time 1000.  [A] is current and carries the
    deadline 1500; the next [begin("A", ..)] returns [A]'s own step and the
    next [begin("B", ..)] resumes [B] at step 2. *)
Example scenario_suspend_with_delay :
  ∃ s1 s2,
    suspend 1000 2 500 engineAB = Done true s1
    ∧ currentState s1 = Some 1%positive
    ∧ delayUntil (frameAt s1 1%positive) = 1500
    ∧ begin "A" 1 s1 = Done 1 s1
    ∧ begin "B" 1 s1 = Done 2 s2
    ∧ currentState s2 = Some 2%positive.
Proof.
  exists (stateOf (suspend 1000 2 500 engineAB)),
    (stateOf (begin "B" 1 (stateOf (suspend 1000 2 500 engineAB)))).
  by vm_compute.
Qed.

(** [A] calls [B] and [B] fails: [getStatus] returns [stepFailure] and
    [B]'s frame is gone. *)
Example scenario_child_fails :
  end_ false engineAB = Done false engineAfterFailure
  ∧ getStatus engineAfterFailure = Done stepFailure engineAfterFailure
  ∧ heap engineAfterFailure !! 2%positive = None
  ∧ serial engineAfterFailure = ["###### STEP FAILED: B"].
Proof. by vm_compute. Qed.

(** [A] calls [B], [B] yields, and on the next pass [A] calls [C] instead:
    [B]'s frame is discarded and a fresh [C] frame starts at its first
    step. *)
Example scenario_different_child :
  ∃ s1 s2,
    suspend0 0 engineAB = Done true s1
    ∧ functionName (frameAt s1 2%positive) = "B"
    ∧ begin "C" 7 s1 = Done 7 s2
    ∧ (∀ x F, heap s2 !! x = Some F → functionName F ≠ "B")
    ∧ ∃ c, currentState s2 = Some c
           ∧ heap s2 !! c = Some (createdFrame "C" 7 (Some 1%positive))
           ∧ childState (frameAt s2 1%positive) = Some c.
Proof.
  exists (stateOf (suspend0 0 engineAB)),
    (stateOf (begin "C" 7 (stateOf (suspend0 0 engineAB)))).
  split; [by vm_compute|]. split; [by vm_compute|]. split; [by vm_compute|].
  split.
  - apply (map_Forall_lookup (λ _ F, functionName F ≠ "B")).
    apply (bool_decide_unpack _). by vm_compute.
  - exists 2%positive. by vm_compute.
Qed.

(** * Further properties of the engine *)

(** ** The links of the current frame *)

Lemma wf_child_link h a out F :
  wf (mkStateManager h (Some a) out) → h !! a = Some F →
  ∀ c, childState F = Some c →
       c ≠ a ∧ ∃ C, h !! c = Some C ∧ parentState C = Some a.
Proof.
  intros (ups & downs & Hnd & Hanc & Hdesc) HF c Hc. cbn [heap] in *.
  destruct downs as [|c' downs].
  - destruct Hdesc as (F0 & HF0 & Hnone). congruence.
  - destruct Hdesc as (F0 & C & HF0 & Hc0 & HC & HparC & _).
    assert (c' = c) as -> by congruence. split; [|eauto].
    apply NoDup_cons in Hnd as [Hnin _]. set_solver.
Qed.

(** X1.  On every engine a program can reach, the current frame is
    allocated and its two links are consistent: the parent, if any, is
    another allocated frame whose child link points back to the current
    frame, and the child, if any, is another allocated frame whose parent
    link points back. *)
Theorem reachable_links_are_mutual s a :
  reachable s → currentState s = Some a →
  ∃ F, heap s !! a = Some F
       ∧ (∀ p, parentState F = Some p →
            p ≠ a ∧ ∃ P, heap s !! p = Some P ∧ childState P = Some a)
       ∧ (∀ c, childState F = Some c →
            c ≠ a ∧ ∃ C, heap s !! c = Some C ∧ parentState C = Some a).
Proof.
  intros Hreach Hcur. apply reachable_wf in Hreach.
  destruct s as [h cur out]. cbn in Hcur. subst cur. cbn [heap].
  destruct (wf_shape h a out Hreach) as (_ & _ & F & _ & _ & _ & HF).
  exists F. split; [done|]. split.
  - by apply (wf_parent h a out F).
  - by apply (wf_child_link h a out F).
Qed.

Lemma reachable_links_are_mutual_witness :
  ∃ F, heap engineAB !! 2%positive = Some F
       ∧ (∀ p, parentState F = Some p →
            p ≠ 2%positive
            ∧ ∃ P, heap engineAB !! p = Some P ∧ childState P = Some 2%positive)
       ∧ (∀ c, childState F = Some c →
            c ≠ 2%positive
            ∧ ∃ C, heap engineAB !! c = Some C ∧ parentState C = Some 2%positive).
Proof.
  apply (reachable_links_are_mutual engineAB 2%positive); [|reflexivity].
  apply (reachable_call (Begin "B" 1) engineA (VNum 1) engineAB);
    [|reflexivity|reflexivity].
  apply (reachable_call (Begin "A" 1) emptyEngine (VNum 1) engineA);
    [|reflexivity|reflexivity].
  apply reachable_fresh.
Defined.

(** ** No call touches a freed frame *)

(** X2.  On every engine a program can reach, a public call either
    returns, leaving an engine that is reachable again, or the engine has no
    current frame and the call dereferences the null pointer.  No public
    call ever reads, writes or deletes a frame that has been freed. *)
Theorem public_calls_never_touch_freed_frames m s :
  reachable s → isPublic m = true →
  (∃ v s', call m s = Done v s' ∧ reachable s')
  ∨ (currentState s = None ∧ call m s = Undefined NullDereference).
Proof.
  intros Hreach Hpub. pose proof (reachable_wf s Hreach) as Hwf.
  destruct s as [h [a|] out].
  - left. destruct (call_defined m h a out Hpub Hwf) as (v & s' & Hrun & _).
    exists v, s'. split; [done|]. by eapply reachable_call.
  - pose proof (call_no_frame m h out) as Hnf.
    destruct (handlesNoFrame m).
    + left. destruct Hnf as (v & s' & Hrun & _).
      exists v, s'. split; [done|]. by eapply reachable_call.
    + by right.
Qed.

Lemma public_calls_never_touch_freed_frames_witness :
  (∃ v s', call (Ascend (End false)) engineAB = Done v s' ∧ reachable s')
  ∨ (currentState engineAB = None
     ∧ call (Ascend (End false)) engineAB = Undefined NullDereference).
Proof.
  apply (public_calls_never_touch_freed_frames (Ascend (End false)) engineAB);
    [|reflexivity].
  apply (reachable_call (Begin "B" 1) engineA (VNum 1) engineAB);
    [|reflexivity|reflexivity].
  apply (reachable_call (Begin "A" 1) emptyEngine (VNum 1) engineA);
    [|reflexivity|reflexivity].
  apply reachable_fresh.
Defined.

(** ** Scratch slots survive a suspension *)

Lemma saveSlots_spec h out a F v :
  h !! a = Some F →
  saveSlots v (mkStateManager h (Some a) out)
  = Done tt (mkStateManager (<[a := withSlots v F]> h) (Some a) out).
Proof.
  intros Ha. destruct v as [[[i u] l] t]. unfold saveSlots, withSlots.
  erewrite bind_Done by (by apply setState_int_spec).
  erewrite bind_Done by (apply setState_uint8_spec, lookup_insert_eq).
  erewrite bind_Done by (apply setState_ulong_spec, lookup_insert_eq).
  rewrite (setState_String_spec _ _ _ (set_ulong1 l (set_uint1 u (set_int1 i F))))
    by apply lookup_insert_eq.
  by heap_norm.
Qed.

Lemma restoreSlots_spec h out a F :
  h !! a = Some F →
  restoreSlots (mkStateManager h (Some a) out)
  = Done (slots F) (mkStateManager h (Some a) out).
Proof.
  intros Ha. unfold restoreSlots, slots.
  erewrite bind_Done by (by apply getState_int_spec).
  erewrite bind_Done by (by apply getState_uint8_spec).
  erewrite bind_Done by (by apply getState_ulong_spec).
  by erewrite bind_Done by (by apply getState_String_spec).
Qed.

Lemma slots_withSlots v F : slots (withSlots v F) = v.
Proof. by destruct v as [[[i u] l] t]. Qed.

Lemma withSlots_links v F :
  parentState (withSlots v F) = parentState F
  ∧ childState (withSlots v F) = childState F
  ∧ functionName (withSlots v F) = functionName F
  ∧ currentStep (withSlots v F) = currentStep F
  ∧ nextStep (withSlots v F) = nextStep F
  ∧ delayUntil (withSlots v F) = delayUntil F.
Proof. by destruct v as [[[i u] l] t]. Qed.

Lemma slots_popFrame c n F : slots (popFrame c n F) = slots F.
Proof. unfold popFrame. by destruct (_ && _). Qed.

Lemma slots_delayedFrame op F : slots (delayedFrame op F) = slots F.
Proof. destruct op; cbn; try done. by destruct (bool_decide _). Qed.

Lemma slots_bubbleDelay C F : slots (bubbleDelay C F) = slots F.
Proof. unfold bubbleDelay. by destruct (bool_decide _). Qed.

Lemma slots_transitionedParent F C : slots (transitionedParent F C) = slots F.
Proof.
  unfold transitionedParent, transitionFrame.
  destruct (finished C); [|apply slots_bubbleDelay].
  destruct (bool_decide (currentStep C = stepFailure)); cbn;
    apply slots_bubbleDelay.
Qed.

Lemma slots_rootTransitionedFrame h F : slots (rootTransitionedFrame h F) = slots F.
Proof.
  unfold rootTransitionedFrame. destruct (childState F) as [c|]; [|done].
  destruct (h !! c); [apply slots_transitionedParent | done].
Qed.

Lemma functionName_transitionedParent F C :
  functionName (transitionedParent F C) = functionName F.
Proof.
  unfold transitionedParent, transitionFrame.
  destruct (finished C); [|apply bubbleDelay_functionName].
  destruct (bool_decide (currentStep C = stepFailure)); cbn;
    apply bubbleDelay_functionName.
Qed.

Lemma functionName_rootTransitionedFrame h F :
  functionName (rootTransitionedFrame h F) = functionName F.
Proof.
  unfold rootTransitionedFrame. destruct (childState F) as [c|]; [|done].
  destruct (h !! c); [apply functionName_transitionedParent | done].
Qed.

Lemma finished_popFrame_withSlots c n v F :
  finished (popFrame c n (withSlots v F)) = finished (popFrame c n F).
Proof.
  unfold finished. rewrite !popFrame_currentStep.
  by destruct (withSlots_links v F) as (_ & -> & _).
Qed.

(** X3.  What [setState] wrote before a [suspend] is what [getState]
    reads after the matching [begin].  For a nested frame: it saves its four
    slots and suspends without reaching a terminal step; once its parent
    calls [begin] under the frame's name again, the four [getState]
    overloads return the saved values.  For the root frame: the same, with
    the [begin] resuming the root itself. *)
Theorem scratch_slots_survive_suspension now n d k v :
  (∀ h out a p F P,
     h !! a = Some F → parentState F = Some p →
     h !! p = Some P → childState P = Some a → p ≠ a →
     functionName P ≠ functionName F →
     finished (popFrame (currentStep F) n F) = false →
     ∃ s', (saveSlots v ;;; suspend now n d ;;; begin (functionName F) k ;;;
            restoreSlots) (mkStateManager h (Some a) out) = Done v s'
           ∧ currentState s' = Some a)
  ∧ (∀ h out a F,
       h !! a = Some F → parentState F = None →
       (∀ c, childState F = Some c → a ≠ c ∧ is_Some (h !! c)) →
       ∃ s', (saveSlots v ;;; suspend now n d ;;; begin (functionName F) k ;;;
              restoreSlots) (mkStateManager h (Some a) out) = Done v s'
             ∧ currentState s' = Some a).
Proof.
  split.
  - intros h out a p F P Ha Hpar Hp Hch Hne Hnames Hpending.
    destruct (withSlots_links v F) as (Hpar4 & Hch4 & Hname4 & Hstep4 & _).
    set (F4 := withSlots v F) in *. set (h4 := <[a := F4]> h).
    assert (h4 !! a = Some F4) as Ha4 by apply lookup_insert_eq.
    assert (h4 !! p = Some P) as Hp4 by (unfold h4; by rewrite lookup_insert_ne).
    set (C := popFrame (currentStep F4) n F4).
    set (P1 := delayedFrame (Suspend now n d) P).
    assert (finished C = false) as HC.
    { unfold C. rewrite Hstep4. unfold F4.
      by rewrite finished_popFrame_withSlots. }
    set (h5 := <[a := set_delayUntil 0 C]> (<[p := bubbleDelay C P1]> h4)).
    assert (suspend now n d (mkStateManager h4 (Some a) out)
            = Done (notFailed (bubbleDelay C P1)) (mkStateManager h5 (Some p) out))
      as Hsusp.
    { rewrite (suspend_nonroot h4 out a p F4 P) by congruence.
      fold C P1. unfold transitionedParent, transitioned. by rewrite HC. }
    assert (h5 !! a = Some (set_delayUntil 0 C)) as Ha5 by apply lookup_insert_eq.
    assert (h5 !! p = Some (bubbleDelay C P1)) as Hp5.
    { unfold h5. rewrite lookup_insert_ne by done. apply lookup_insert_eq. }
    assert (begin (functionName F) k (mkStateManager h5 (Some p) out)
            = Done (currentStep (set_delayUntil 0 C)) (mkStateManager h5 (Some a) out))
      as Hbegin.
    { apply (begin_descend h5 out p (bubbleDelay C P1) a (set_delayUntil 0 C));
        try done.
      - unfold P1. by rewrite bubbleDelay_functionName, delayedFrame_functionName.
      - unfold P1. by rewrite bubbleDelay_childState, delayedFrame_childState.
      - cbn. unfold C. by rewrite popFrame_functionName. }
    exists (mkStateManager h5 (Some a) out). split; [|done].
    erewrite bind_Done by (by apply (saveSlots_spec h out a F)).
    erewrite bind_Done by exact Hsusp. erewrite bind_Done by exact Hbegin.
    rewrite (restoreSlots_spec h5 out a (set_delayUntil 0 C)) by done.
    f_equal. change (slots (set_delayUntil 0 C)) with (slots C).
    unfold C. rewrite slots_popFrame. apply slots_withSlots.
  - intros h out a F Ha Hroot Hchild.
    destruct (withSlots_links v F) as (Hpar4 & Hch4 & Hname4 & Hstep4 & _).
    set (F4 := withSlots v F) in *. set (h4 := <[a := F4]> h).
    assert (h4 !! a = Some F4) as Ha4 by apply lookup_insert_eq.
    set (F1 := delayedFrame (Suspend now n d) (popFrame (currentStep F4) n F4)).
    assert (childState F1 = childState F) as Hch1.
    { unfold F1. by rewrite delayedFrame_childState, popFrame_childState. }
    assert (∀ c, childState F4 = Some c → a ≠ c ∧ is_Some (h4 !! c)) as Hchild4.
    { intros c Hc. rewrite Hch4 in Hc. destruct (Hchild c Hc) as [Hne HC].
      split; [done|]. unfold h4. by rewrite lookup_insert_ne. }
    pose proof (suspend_root h4 out a F4 Ha4 (eq_trans Hpar4 Hroot) Hchild4 now n d)
      as Hsusp. cbn zeta in Hsusp. fold F1 in Hsusp.
    destruct (transitionState_root h4 out a F4 Hchild4 F1)
      as (b & _ & Hlook & Hcur); [congruence|].
    set (s5 := rootTransitioned h4 out a F1) in *.
    set (G := rootTransitionedFrame h4 F1) in *.
    assert (functionName G = functionName F) as HnameG.
    { unfold G, F1.
      by rewrite functionName_rootTransitionedFrame, delayedFrame_functionName,
        popFrame_functionName. }
    assert (begin (functionName F) k s5 = Done (currentStep G) s5) as Hbegin.
    { rewrite (StateManager_eta s5), Hcur. by apply begin_resume. }
    exists s5. split; [|done].
    erewrite bind_Done by (by apply (saveSlots_spec h out a F)).
    erewrite bind_Done by exact Hsusp. erewrite bind_Done by exact Hbegin.
    rewrite (StateManager_eta s5), Hcur.
    rewrite (restoreSlots_spec _ _ a G) by done.
    f_equal. unfold G. rewrite slots_rootTransitionedFrame. unfold F1.
    rewrite slots_delayedFrame, slots_popFrame. apply slots_withSlots.
Qed.

Lemma scratch_slots_survive_suspension_witness :
  ∃ s', (saveSlots (7, 8, 9, "x") ;;; suspend 1000 2 500 ;;; begin "B" 1 ;;;
         restoreSlots) (mkStateManager (heap engineAB) (Some 2%positive) [])
        = Done (7, 8, 9, "x") s'
        ∧ currentState s' = Some 2%positive.
Proof.
  apply (proj1 (scratch_slots_survive_suspension 1000 2 500 1 (7, 8, 9, "x"))
           (heap engineAB) [] 2%positive 1%positive
           (frameAt engineAB 2%positive) (frameAt engineAB 1%positive));
    try reflexivity; by vm_compute.
Defined.

(** ** The delay is handed to the driver once *)

Lemma delayUntil_transitionedParent P C :
  delayUntil (transitionedParent P C) = delayUntil (bubbleDelay C P).
Proof.
  unfold transitionedParent. destruct (finished C); [|done].
  apply transitionFrame_delayUntil.
Qed.

(** X4.  After a nested frame has called [suspend(nextStep, delay)], the
    first [resetDelay] on the frame it ascended to returns the deadline --
    the delay the suspended frame was itself holding if that is nonzero,
    else [now + delay] in [unsigned long] arithmetic if [delay > 0], else
    what the parent held -- and the second [resetDelay] returns 0. *)
Theorem resetDelay_hands_the_deadline_over_once now n d h out a p F P :
  h !! a = Some F → parentState F = Some p →
  h !! p = Some P → childState P = Some a → p ≠ a →
  ∃ s' P',
    (suspend now n d ;;; resetDelayTwice) (mkStateManager h (Some a) out)
    = Done (deadlineAfter now d F P, 0) s'
    ∧ currentState s' = Some p
    ∧ heap s' !! p = Some P' ∧ delayUntil P' = 0.
Proof.
  intros Ha Hpar Hp Hch Hne.
  pose proof (suspend_nonroot h out a p F P Ha Hpar Hp Hch Hne now n d) as Hsusp.
  cbn zeta in Hsusp.
  set (C := popFrame (currentStep F) n F) in *.
  set (P1 := delayedFrame (Suspend now n d) P) in *.
  set (s1 := transitioned h out p a P1 C) in *.
  set (G := transitionedParent P1 C) in *.
  assert (heap s1 !! p = Some G) as HG by (by apply transitioned_parent).
  assert (s1 = mkStateManager (heap s1) (Some p) (serial s1)) as Heta.
  { rewrite (StateManager_eta s1) at 1. unfold s1.
    by rewrite transitioned_current. }
  assert (delayUntil G = deadlineAfter now d F P) as Hdl.
  { unfold G, deadlineAfter. rewrite delayUntil_transitionedParent.
    unfold bubbleDelay, C. rewrite popFrame_delayUntil.
    destruct (bool_decide (delayUntil F ≠ 0)); [done|].
    unfold P1. cbn [delayedFrame]. by destruct (bool_decide (d > 0)). }
  exists (mkStateManager (<[p := set_delayUntil 0 G]> (heap s1)) (Some p) (serial s1)),
    (set_delayUntil 0 G).
  split; [|split; [done|split; [apply lookup_insert_eq|done]]].
  erewrite bind_Done by exact Hsusp. rewrite Heta. unfold resetDelayTwice.
  erewrite bind_Done by (by apply (resetDelay_spec _ _ p G)).
  erewrite bind_Done by (apply resetDelay_spec, lookup_insert_eq).
  unfold ret. rewrite Hdl. cbn [delayUntil set_delayUntil]. by heap_norm.
Qed.

Lemma resetDelay_hands_the_deadline_over_once_witness :
  ∃ s' P',
    (suspend 1000 2 500 ;;; resetDelayTwice)
      (mkStateManager (heap engineAB) (Some 2%positive) [])
    = Done (deadlineAfter 1000 500 (frameAt engineAB 2%positive)
              (frameAt engineAB 1%positive), 0) s'
    ∧ currentState s' = Some 1%positive
    ∧ heap s' !! 1%positive = Some P' ∧ delayUntil P' = 0.
Proof.
  apply (resetDelay_hands_the_deadline_over_once 1000 2 500 (heap engineAB) []
           2%positive 1%positive (frameAt engineAB 2%positive)
           (frameAt engineAB 1%positive)); try reflexivity; by vm_compute.
Defined.

(** ** Terminal steps *)

(** X5.  A root frame without a child that calls [end(status)] is marked
    terminal and stays allocated and current: [getStatus] returns
    [stepSuccess] or [stepFailure], and a later [begin] under the root's
    name returns that terminal step instead of starting over at
    [firstStep]. *)
Theorem finished_root_is_kept (status : bool) k h out a F :
  h !! a = Some F → parentState F = None → childState F = None →
  let s' := mkStateManager (<[a := popFrame (terminalStep status) 0 F]> h)
              (Some a) out in
  end_ status (mkStateManager h (Some a) out) = Done status s'
  ∧ getStatus s' = Done (terminalStep status) s'
  ∧ begin (functionName F) k s' = Done (terminalStep status) s'.
Proof.
  intros Ha Hroot Hchild s'.
  assert (currentStep (popFrame (terminalStep status) 0 F) = terminalStep status)
    as Hstep.
  { rewrite popFrame_currentStep. by rewrite bool_decide_eq_false_2 by tauto. }
  split; [|split].
  - rewrite (end_root h out a F Ha Hroot); cycle 1.
    { intros c Hc. congruence. }
    unfold rootTransitioned. by rewrite popFrame_childState, Hchild.
  - unfold s'. rewrite (getStatus_current _ _ a _ (lookup_insert_eq _ _ _)).
    by rewrite Hstep.
  - unfold s'. rewrite <- Hstep. apply begin_resume; [apply lookup_insert_eq|].
    apply popFrame_functionName.
Qed.

Lemma finished_root_is_kept_witness :
  let s' := mkStateManager
              (<[1%positive := popFrame (terminalStep true) 0
                                 (frameAt engineA 1%positive)]> (heap engineA))
              (Some 1%positive) [] in
  end_ true (mkStateManager (heap engineA) (Some 1%positive) []) = Done true s'
  ∧ getStatus s' = Done (terminalStep true) s'
  ∧ begin (functionName (frameAt engineA 1%positive)) 1 s'
    = Done (terminalStep true) s'.
Proof.
  apply (finished_root_is_kept true 1 (heap engineA) [] 1%positive
           (frameAt engineA 1%positive)); reflexivity.
Defined.

Lemma popFrame_to_terminal (status : bool) c F :
  childState F = None →
  popFrame c (terminalStep status) F = popFrame (terminalStep status) 0 F.
Proof.
  intros Hc. unfold popFrame. rewrite Hc.
  rewrite (bool_decide_eq_true_2 (None = None)) by done.
  rewrite (bool_decide_eq_true_2 (terminalStep status ≠ 0)) by (by destruct status).
  rewrite (bool_decide_eq_false_2 (0 ≠ 0)) by tauto.
  by destruct F.
Qed.

Lemma transitionFrame_delayedFrame now n d C P :
  transitionFrame C (delayedFrame (Suspend now n d) P)
  = set_delayUntil (deadlineAfter now d C P) (transitionFrame C P).
Proof.
  unfold transitionFrame, bubbleDelay, delayedFrame, deadlineAfter.
  destruct (bool_decide (delayUntil C ≠ 0)), (bool_decide (d > 0)),
    (bool_decide (currentStep C = stepFailure)); by destruct P.
Qed.

(** X6.  The step numbers [stepSuccess] and [stepFailure] are reserved:
    a nested frame without a child that suspends to one of them, with any
    delay, is consumed by its parent as if it had called [end].  Both calls
    delete the frame and make the parent current, and the engine after
    [suspend] is the engine after [end] with one field rewritten: the
    parent's [delayUntil], which holds the deadline -- the delay the frame
    was holding if that is nonzero, else [now + delay] if [delay > 0], else
    what the parent held.  Without a delay the two engines are the same.
    [end] returns its argument; [suspend] returns [false] exactly when the
    parent now stands at [stepFailure]. *)
Theorem suspend_to_terminal_step_ends_the_frame
    now delay (status : bool) h out a p F P :
  h !! a = Some F → parentState F = Some p →
  h !! p = Some P → childState P = Some a → p ≠ a →
  childState F = None →
  ∃ r s1 s2 P2,
    suspend now (terminalStep status) delay (mkStateManager h (Some a) out)
    = Done r s1
    ∧ end_ status (mkStateManager h (Some a) out) = Done status s2
    ∧ currentState s2 = Some p
    ∧ heap s2 !! a = None
    ∧ heap s2 !! p = Some P2
    ∧ s1 = mkStateManager
             (<[p := set_delayUntil (deadlineAfter now delay F P) P2]> (heap s2))
             (Some p) (serial s2)
    ∧ heap s1 !! a = None
    ∧ r = notFailed P2
    ∧ (delay ≤ 0 → s1 = s2).
Proof.
  intros Ha Hpar Hp Hch Hne Hchild.
  pose proof (suspend_nonroot h out a p F P Ha Hpar Hp Hch Hne now
                (terminalStep status) delay) as Hsusp.
  pose proof (end_nonroot h out a p F P Ha Hpar Hp Hch Hne status) as Hend.
  cbn zeta in Hsusp, Hend.
  rewrite popFrame_to_terminal in Hsusp by done.
  fold (terminalStep status) in Hend.
  set (C := popFrame (terminalStep status) 0 F) in *.
  set (P1 := delayedFrame (Suspend now (terminalStep status) delay) P) in *.
  assert (finished C = true) as HC.
  { unfold finished, C. rewrite popFrame_currentStep.
    rewrite (bool_decide_eq_false_2 (0 ≠ 0)) by tauto. by destruct status. }
  assert (transitionFrame C P1
          = set_delayUntil (deadlineAfter now delay F P) (transitionFrame C P))
    as HP1.
  { unfold P1. rewrite transitionFrame_delayedFrame.
    unfold deadlineAfter, C. by rewrite popFrame_delayUntil. }
  exists (notFailed (transitionedParent P1 C)), (transitioned h out p a P1 C),
    (transitioned h out p a P C), (transitionFrame C P).
  split; [exact Hsusp|]. split; [exact Hend|].
  split; [apply transitioned_current|].
  split; [by rewrite transitioned_child, HC by done|].
  split; [by rewrite transitioned_parent; unfold transitionedParent; rewrite ?HC|].
  split; [|split; [by rewrite transitioned_child, HC by done|split]].
  - unfold transitioned. rewrite HC, HP1. cbn [heap serial].
    by rewrite insert_insert_eq.
  - unfold transitionedParent. by rewrite HC, HP1.
  - intros Hd. unfold P1. cbn [delayedFrame].
    by rewrite bool_decide_eq_false_2 by lia.
Qed.

(** [B], called by [A], suspends to [stepSuccess] with a delay of 500 at
    time 1000. *)
Lemma suspend_to_terminal_step_ends_the_frame_witness :
  ∃ r s1 s2 P2,
    suspend 1000 (terminalStep true) 500
      (mkStateManager (heap engineAB) (Some 2%positive) []) = Done r s1
    ∧ end_ true (mkStateManager (heap engineAB) (Some 2%positive) [])
      = Done true s2
    ∧ currentState s2 = Some 1%positive
    ∧ heap s2 !! 2%positive = None
    ∧ heap s2 !! 1%positive = Some P2
    ∧ s1 = mkStateManager
             (<[1%positive :=
                  set_delayUntil
                    (deadlineAfter 1000 500 (frameAt engineAB 2%positive)
                       (frameAt engineAB 1%positive)) P2]> (heap s2))
             (Some 1%positive) (serial s2)
    ∧ heap s1 !! 2%positive = None
    ∧ r = notFailed P2
    ∧ (500 ≤ 0 → s1 = s2).
Proof.
  apply (suspend_to_terminal_step_ends_the_frame 1000 500 true (heap engineAB) []
           2%positive 1%positive (frameAt engineAB 2%positive)
           (frameAt engineAB 1%positive)); try reflexivity; by vm_compute.
Defined.

(** X7.  A child that is begun and ends with success before its parent has
    suspended moves the parent to whatever [nextStep] the parent has stored:
    for a parent that has never suspended that is 0, the value [getStatus]
    also returns for an engine without any frame. *)
Theorem child_done_in_one_pass_moves_parent_to_stored_nextStep h out a F name k :
  h !! a = Some F → childState F = None → functionName F ≠ name →
  ∃ s' F',
    (begin name k ;;; end_ true) (mkStateManager h (Some a) out) = Done true s'
    ∧ currentState s' = Some a
    ∧ heap s' !! a = Some F'
    ∧ currentStep F' = nextStep F ∧ nextStep F' = 0 ∧ childState F' = None
    ∧ heap s' !! fresh (dom h) = None
    ∧ getStatus s' = Done (nextStep F) s'.
Proof.
  intros Ha Hchild Hname.
  pose proof (begin_nested h out a F name k Ha Hname Hchild) as Hbegin.
  cbn zeta in Hbegin. pose proof (fresh_not_allocated h a F Ha) as Hfresh.
  set (n := fresh (dom h)) in *.
  set (h1 := <[a := set_childState (Some n) F]>
               (<[n := createdFrame name k (Some a)]> h)) in *.
  assert (h1 !! n = Some (createdFrame name k (Some a))) as Hn.
  { unfold h1. rewrite lookup_insert_ne by done. apply lookup_insert_eq. }
  assert (h1 !! a = Some (set_childState (Some n) F)) as Ha1
    by apply lookup_insert_eq.
  destruct (end_true_nonroot h1 out n a (createdFrame name k (Some a))
              (set_childState (Some n) F) Hn eq_refl Ha1 eq_refl)
    as (s' & F' & Hend & Hcur & HF' & Hstep & Hnext & Hch' & Hgone & _).
  { congruence. }
  exists s', F'. repeat split; try done.
  - erewrite bind_Done by exact Hbegin. exact Hend.
  - rewrite (StateManager_eta s'), Hcur.
    rewrite (getStatus_current _ _ a F' HF'). by rewrite Hstep.
Qed.

Lemma child_done_in_one_pass_moves_parent_to_stored_nextStep_witness :
  ∃ s' F',
    (begin "B" 1 ;;; end_ true) (mkStateManager (heap engineA) (Some 1%positive) [])
    = Done true s'
    ∧ currentState s' = Some 1%positive
    ∧ heap s' !! 1%positive = Some F'
    ∧ currentStep F' = nextStep (frameAt engineA 1%positive)
    ∧ nextStep F' = 0 ∧ childState F' = None
    ∧ heap s' !! fresh (dom (heap engineA)) = None
    ∧ getStatus s' = Done (nextStep (frameAt engineA 1%positive)) s'.
Proof.
  apply (child_done_in_one_pass_moves_parent_to_stored_nextStep (heap engineA) []
           1%positive (frameAt engineA 1%positive) "B" 1);
    try reflexivity; by vm_compute.
Defined.

(** ** Frames that are left behind *)

(** X8.  [begin] under a new name replaces the current frame's child but
    not what hangs below it: when the replaced child has a child of its
    own, that grandchild stays allocated, while the chain the engine now
    stands on -- the new frame, the current frame and its ancestors -- does
    not contain it. *)
Theorem begin_replacing_a_child_leaks_the_grandchild h out a ups c g downs F C name k :
  NoDup (a :: ups ++ c :: g :: downs) →
  ancestry h a ups → descent h a (c :: g :: downs) →
  h !! a = Some F → functionName F ≠ name →
  h !! c = Some C → functionName C ≠ name →
  ∃ s' n G,
    begin name k (mkStateManager h (Some a) out) = Done k s'
    ∧ currentState s' = Some n
    ∧ h !! g = Some G ∧ heap s' !! g = Some G
    ∧ (g ∉ n :: a :: ups)
    ∧ ancestry (heap s') n (a :: ups) ∧ descent (heap s') n [].
Proof.
  intros Hnd Hanc Hdesc HF Hname HC HnameC.
  destruct Hdesc as (F0 & C0 & HF0 & Hc & HC0 & HparC & Hdesc).
  assert (F0 = F) as -> by congruence. assert (C0 = C) as -> by congruence.
  destruct (descent_head _ _ _ Hdesc) as [C' HC'].
  assert (C' = C) as -> by congruence.
  destruct Hdesc as (C1 & G & HC1 & HchC & HG & HparG & _).
  apply NoDup_cons in Hnd as Hnd'. destruct Hnd' as [Ha_nin Hnd'].
  apply NoDup_app in Hnd' as (Hups & Hdisj & Hdowns).
  apply NoDup_cons in Hdowns as [Hc_nin _].
  assert (a ≠ c) as Hac by set_solver.
  assert (a ≠ g) as Hag by set_solver.
  assert (c ≠ g) as Hcg by set_solver.
  assert (a ∉ ups) as Ha_ups by set_solver.
  assert (c ∉ ups) as Hc_ups by (intros Hin; apply (Hdisj c Hin); set_solver).
  assert (g ∉ ups) as Hg_ups by (intros Hin; apply (Hdisj g Hin); set_solver).
  pose proof (begin_replace h out a F c C name k HF Hname Hc HC HnameC Hac)
    as Hbegin. cbn zeta in Hbegin.
  assert (∀ x X, x ≠ c → h !! x = Some X → fresh (dom (delete c h)) ≠ x) as Hfresh.
  { intros x X Hxc HX. apply (fresh_not_allocated (delete c h) x X).
    by rewrite lookup_delete_ne. }
  set (n := fresh (dom (delete c h))) in *.
  assert (n ≠ a) as Hna by (by apply (Hfresh a F)).
  assert (n ≠ g) as Hng by (by apply (Hfresh g G)).
  eexists _, n, G. split; [exact Hbegin|]. cbn [heap currentState].
  split; [done|]. split; [done|]. split.
  { rewrite !lookup_insert_ne by done. by rewrite lookup_delete_ne. }
  split.
  { intros Hin. apply elem_of_cons in Hin. destruct Hin as [->|Hin]; [done|].
    apply elem_of_cons in Hin. destruct Hin as [->|Hin]; done. }
  split.
  - exists (createdFrame name k (Some a)), (set_childState (Some n) F).
    rewrite lookup_insert_eq, lookup_insert_ne, lookup_insert_eq by done.
    repeat split; try done.
    eapply (ancestry_update _ a ups F); [done | | done | ].
    + rewrite lookup_insert_ne by done. by rewrite lookup_delete_ne.
    + eapply ancestry_agree; [|exact Hanc]. intros x Hx.
      destruct (ancestry_allocated h a ups Hanc x Hx) as [X HX].
      assert (x ≠ c).
      { intros ->. apply elem_of_cons in Hx. destruct Hx as [?|?]; done. }
      rewrite lookup_insert_ne, lookup_delete_ne; [done | done | ].
      by apply (Hfresh x X).
  - exists (createdFrame name k (Some a)).
    by rewrite lookup_insert_ne, lookup_insert_eq.
Qed.

Lemma begin_replacing_a_child_leaks_the_grandchild_witness :
  ∃ s' n G,
    begin "D" 1 (mkStateManager (heap engineSuspended) (Some 1%positive) [])
    = Done 1 s'
    ∧ currentState s' = Some n
    ∧ heap engineSuspended !! 3%positive = Some G
    ∧ heap s' !! 3%positive = Some G
    ∧ (3%positive ∉ n :: 1%positive :: [])
    ∧ ancestry (heap s') n [1%positive] ∧ descent (heap s') n [].
Proof.
  apply (begin_replacing_a_child_leaks_the_grandchild (heap engineSuspended) []
           1%positive [] 2%positive 3%positive []
           (frameAt engineSuspended 1%positive)
           (frameAt engineSuspended 2%positive) "D" 1).
  - apply (bool_decide_unpack _). by vm_compute.
  - exists (frameAt engineSuspended 1%positive). by split.
  - exists (frameAt engineSuspended 1%positive), (frameAt engineSuspended 2%positive).
    repeat split.
    exists (frameAt engineSuspended 2%positive), (frameAt engineSuspended 3%positive).
    repeat split. exists (frameAt engineSuspended 3%positive). by split.
  - reflexivity.
  - by vm_compute.
  - reflexivity.
  - by vm_compute.
Defined.

(** X9.  A nested frame that calls [end] while its own child is still
    outstanding is deleted by its parent, and the parent's child link is
    cleared; the outstanding child is not deleted and nothing points to it
    from the parent any more. *)
Theorem end_with_outstanding_child_leaks_it (status : bool) h out a p c F P C :
  h !! a = Some F → parentState F = Some p →
  h !! p = Some P → childState P = Some a → p ≠ a →
  childState F = Some c → h !! c = Some C → c ≠ a → c ≠ p →
  ∃ s' P',
    end_ status (mkStateManager h (Some a) out) = Done status s'
    ∧ currentState s' = Some p
    ∧ heap s' !! a = None
    ∧ heap s' !! p = Some P' ∧ childState P' = None
    ∧ heap s' !! c = Some C.
Proof.
  intros Ha Hpar Hp Hch Hne Hc HC Hca Hcp.
  pose proof (end_nonroot h out a p F P Ha Hpar Hp Hch Hne status) as Hend.
  cbn zeta in Hend. fold (terminalStep status) in Hend.
  set (Ca := popFrame (terminalStep status) 0 F) in *.
  assert (finished Ca = true) as Hfin.
  { unfold finished, Ca. rewrite popFrame_currentStep.
    rewrite (bool_decide_eq_false_2 (0 ≠ 0)) by tauto. by destruct status. }
  exists (transitioned h out p a P Ca), (transitionFrame Ca P).
  split; [done|]. split; [apply transitioned_current|]. split.
  { rewrite transitioned_child by done. by rewrite Hfin. }
  split.
  { rewrite transitioned_parent by done. unfold transitionedParent.
    by rewrite Hfin. }
  split; [done|]. by rewrite transitioned_other.
Qed.

Lemma end_with_outstanding_child_leaks_it_witness :
  ∃ s' P',
    end_ true (mkStateManager (heap engineABC) (Some 2%positive) []) = Done true s'
    ∧ currentState s' = Some 1%positive
    ∧ heap s' !! 2%positive = None
    ∧ heap s' !! 1%positive = Some P' ∧ childState P' = None
    ∧ heap s' !! 3%positive = Some (frameAt engineABC 3%positive).
Proof.
  apply (end_with_outstanding_child_leaks_it true (heap engineABC) []
           2%positive 1%positive 3%positive (frameAt engineABC 2%positive)
           (frameAt engineABC 1%positive) (frameAt engineABC 3%positive));
    try reflexivity; by vm_compute.
Defined.

(** ** Starting over *)

(** X10.  Whatever a well-formed engine holds, [init()] followed by
    [begin(name, firstStep)] returns [firstStep] and leaves the engine on a
    new root frame that stores [firstStep], has no parent, no child, no
    pending step and no delay. *)
Theorem init_then_begin_starts_over name k s :
  wf s →
  ∃ s' a,
    (init ;;; begin name k) s = Done k s'
    ∧ currentState s' = Some a
    ∧ heap s' !! a = Some (createdFrame name k None)
    ∧ getStatus s' = Done k s'.
Proof.
  intros Hwf.
  assert (∃ h', init s = Done tt (mkStateManager h' None (serial s))) as [h' Hinit].
  { destruct s as [h [a|] out].
    - by apply destroy_defined.
    - exists h. apply destroy_empty. }
  exists (mkStateManager (<[fresh (dom h') := createdFrame name k None]> h')
            (Some (fresh (dom h'))) (serial s)), (fresh (dom h')).
  split; [|split; [done|split; [apply lookup_insert_eq|]]].
  - erewrite bind_Done by exact Hinit. apply begin_root.
  - by rewrite (getStatus_current _ _ _ _ (lookup_insert_eq _ _ _)).
Qed.

Lemma init_then_begin_starts_over_witness :
  ∃ s' a,
    (init ;;; begin "A" 5) engineAfterFailure = Done 5 s'
    ∧ currentState s' = Some a
    ∧ heap s' !! a = Some (createdFrame "A" 5 None)
    ∧ getStatus s' = Done 5 s'.
Proof.
  apply (init_then_begin_starts_over "A" 5 engineAfterFailure).
  exists [], []. split; [|split].
  - apply (bool_decide_unpack _). by vm_compute.
  - exists (frameAt engineAfterFailure 1%positive). by split.
  - exists (frameAt engineAfterFailure 1%positive). by split.
Defined.


(** * Properties of the message codec *)

(** Case analysis on all 256 characters. *)
Ltac all_chars ch :=
  destruct ch as [[] [] [] [] [] [] [] []]; vm_compute.

(** ** The letter code *)

(** X11.  [encodeLetter] returns a 5-bit code: at most 31 for every
    character, and 0 -- the code that also ends a name -- exactly for the
    characters other than the letters and the digits 0 to 4, so that the
    digits 5 to 9 cannot be told from the end of the name. *)
Theorem encodeLetter_is_a_5_bit_code ch :
  0 ≤ encodeLetter ch ≤ 31
  ∧ (encodeLetter ch = 0 ↔ encodable ch = false)
  ∧ (isDigit ch = true → isDigit04 ch = false → encodeLetter ch = 0).
Proof.
  split; [|split].
  - all_chars ch; split; discriminate.
  - all_chars ch; split; (reflexivity || discriminate).
  - all_chars ch; intros; (reflexivity || discriminate).
Qed.

Lemma encodeLetter_is_a_5_bit_code_witness : encodeLetter "7" = 0.
Proof.
  apply (proj2 (proj2 (encodeLetter_is_a_5_bit_code "7"))); reflexivity.
Defined.

Lemma codes_1_to_31 (P : Z → Prop) `{!∀ code, Decision (P code)} :
  Forall P (seqZ 1 31) → ∀ code, 1 ≤ code ≤ 31 → P code.
Proof.
  intros Hall code Hcode. rewrite Forall_forall in Hall. apply Hall.
  apply elem_of_seqZ. lia.
Qed.

(** X12.  The letter code is a round trip up to case.  Decoding the code
    of a letter gives the letter in lower case, decoding the code of a
    digit 0 to 4 gives the digit; and encoding what [decodeLetter] returns
    for a code from 1 to 31 gives the code back. *)
Theorem letter_code_round_trip :
  (∀ ch, encodable ch = true →
     decodeLetter (encodeLetter ch) = lowerCase ch)
  ∧ (∀ ch, decodeLetter (encodeLetter ch) = foldLetter ch)
  ∧ (∀ code, 1 ≤ code ≤ 31 → encodeLetter (decodeLetter code) = code).
Proof.
  split; [|split].
  - intros ch. all_chars ch; intros; (reflexivity || discriminate).
  - intros ch. all_chars ch; reflexivity.
  - apply (codes_1_to_31 (λ code, encodeLetter (decodeLetter code) = code)).
    apply (bool_decide_unpack _). by vm_compute.
Qed.

Lemma letter_code_round_trip_witness :
  decodeLetter (encodeLetter "Q") = lowerCase "Q"
  ∧ encodeLetter (decodeLetter 29) = 29.
Proof.
  split.
  - apply (proj1 letter_code_round_trip "Q"%char). reflexivity.
  - apply (proj2 (proj2 letter_code_round_trip) 29). lia.
Defined.

Lemma hexDigits_0_to_15 (P : Z → Prop) :
  Forall P (seqZ 0 16) → ∀ n, 0 ≤ n < 16 → P n.
Proof.
  intros Hall n Hn. rewrite Forall_forall in Hall. apply Hall.
  apply elem_of_seqZ. lia.
Qed.

Lemma hexDigitToDecimal_hexDigit upper n :
  0 ≤ n < 16 → hexDigitToDecimal (hexDigit upper n) = n.
Proof.
  revert n. apply hexDigits_0_to_15.
  apply (bool_decide_unpack _). by destruct upper; vm_compute.
Qed.

(** X13.  [hexDigitToDecimal] reads the hexadecimal digits in either case
    as 0 to 15 and every character that is no letter and no digit as 0;
    the letters g to z are not rejected but read as 16 to 35. *)
Theorem hexDigitToDecimal_reads_letters_beyond_f ch :
  0 ≤ hexDigitToDecimal ch ≤ 35
  ∧ hexDigitToDecimal (lowerCase ch) = hexDigitToDecimal ch
  ∧ (isDigit ch = false → isUpper ch = false → isLower ch = false →
       hexDigitToDecimal ch = 0)
  ∧ (charCode "g" ≤ charCode ch ≤ charCode "z" →
       hexDigitToDecimal ch = charCode ch - charCode "g" + 16)
  ∧ (∀ upper n, 0 ≤ n < 16 → hexDigitToDecimal (hexDigit upper n) = n).
Proof.
  split; [|split; [|split; [|split]]].
  - all_chars ch; split; discriminate.
  - all_chars ch; reflexivity.
  - all_chars ch; intros; (reflexivity || discriminate).
  - all_chars ch; intros [H1 H2]; try reflexivity;
      exfalso; (by apply H1 || by apply H2).
  - apply hexDigitToDecimal_hexDigit.
Qed.

Lemma hexDigitToDecimal_reads_letters_beyond_f_witness :
  hexDigitToDecimal "x" = charCode "x" - charCode "g" + 16
  ∧ hexDigitToDecimal (hexDigit true 11) = 11.
Proof.
  split.
  - apply (proj1 (proj2 (proj2 (proj2
             (hexDigitToDecimal_reads_letters_beyond_f "x"%char))))).
    by vm_compute.
  - apply (proj2 (proj2 (proj2 (proj2
             (hexDigitToDecimal_reads_letters_beyond_f "x"%char)))) true 11). lia.
Defined.

(** ** Packing and unpacking a name *)

Lemma encodeLetter_bounds ch : 0 ≤ encodeLetter ch ≤ 31.
Proof. all_chars ch; split; discriminate. Qed.

Lemma decode_encode_fold ch : decodeLetter (encodeLetter ch) = foldLetter ch.
Proof. all_chars ch; reflexivity. Qed.

Lemma charAt_past_end s i : strLength s ≤ i → charAt s i = "000"%char.
Proof.
  intros Hi. unfold charAt.
  destruct (0 <=? i) eqn:H0; [|done]. cbn.
  destruct (i <? strLength s) eqn:H1; [|done].
  apply Z.ltb_lt in H1. lia.
Qed.

Lemma nameBuffer_closed name :
  nameBuffer name
  = [encodeLetter (charAt name 0); encodeLetter (charAt name 1);
     encodeLetter (charAt name 2)].
Proof.
  unfold nameBuffer. cbn [fillBuffer].
  assert (0 ≤ strLength name) as Hlen by (unfold strLength; lia).
  rewrite (proj2 (Z.leb_le 0 2)) by lia.
  rewrite (proj2 (Z.leb_le 0 (strLength name))) by done.
  cbn [andb]. change (Z.to_nat 0) with 0%nat. cbn [insert list_insert].
  rewrite (proj2 (Z.leb_le 1 2)) by lia. cbn [andb].
  destruct (1 <=? strLength name) eqn:H1.
  - change (Z.to_nat 1) with 1%nat. cbn [insert list_insert].
    rewrite (proj2 (Z.leb_le 2 2)) by lia. cbn [andb].
    destruct (2 <=? strLength name) eqn:H2.
    + done.
    + apply Z.leb_gt in H2.
      by rewrite (charAt_past_end name 2) by lia.
  - apply Z.leb_gt in H1.
    by rewrite (charAt_past_end name 1), (charAt_past_end name 2) by lia.
Qed.

Lemma checkedInt_fits z : intMin ≤ z ≤ intMax → checkedInt z = Some z.
Proof.
  intros [H1 H2]. unfold checkedInt.
  by rewrite (proj2 (Z.leb_le _ _) H1), (proj2 (Z.leb_le _ _) H2).
Qed.

Lemma packName_closed name :
  packName name
  = Some (encodeLetter (charAt name 0) * 1024
          + encodeLetter (charAt name 1) * 32
          + encodeLetter (charAt name 2)).
Proof.
  unfold packName. rewrite nameBuffer_closed. cbn [lookup_total list_lookup_total].
  pose proof (encodeLetter_bounds (charAt name 0)) as H0.
  pose proof (encodeLetter_bounds (charAt name 1)) as H1.
  pose proof (encodeLetter_bounds (charAt name 2)) as H2.
  set (e0 := encodeLetter (charAt name 0)) in *.
  set (e1 := encodeLetter (charAt name 1)) in *.
  set (e2 := encodeLetter (charAt name 2)) in *.
  rewrite !Z.shiftl_mul_pow2 by lia.
  change (2 ^ 10) with 1024. change (2 ^ 5) with 32.
  unfold intMin, intMax, uintModulus in *.
  rewrite (checkedInt_fits (e0 * 1024)) by (unfold intMin, intMax; lia).
  cbn [mbind option_bind].
  rewrite (checkedInt_fits (e1 * 32)) by (unfold intMin, intMax; lia).
  cbn [mbind option_bind].
  rewrite (checkedInt_fits (e0 * 1024 + e1 * 32)) by (unfold intMin, intMax; lia).
  cbn [mbind option_bind].
  rewrite (checkedInt_fits (e0 * 1024 + e1 * 32 + e2))
    by (unfold intMin, intMax; lia).
  cbn [mbind option_bind]. f_equal. apply Z.mod_small. lia.
Qed.

Lemma charCode_zero ch : (0 <? charCode ch) = false → ch = "000"%char.
Proof. all_chars ch; intros; (reflexivity || discriminate). Qed.

Lemma store_char ch (l : list ascii) k :
  l !! k = Some "000"%char →
  (if 0 <? charCode ch then <[k := ch]> l else l) = <[k := ch]> l.
Proof.
  intros Hk. destruct (0 <? charCode ch) eqn:Hch; [done|].
  rewrite (charCode_zero ch Hch). symmetry. by apply list_insert_id.
Qed.

Lemma cString_snoc_zero l : cString (l ++ ["000"%char]) = cString l.
Proof.
  induction l as [|ch l IH]; [done|]. cbn. destruct (decide _); [done|].
  by rewrite IH.
Qed.

Lemma low5_of_packed e0 e1 e2 :
  0 ≤ e0 ≤ 31 → 0 ≤ e1 ≤ 31 → 0 ≤ e2 ≤ 31 →
  let v := e0 * 1024 + e1 * 32 + e2 in
  toUint8 (Z.land v 31) = e2
  ∧ toUint8 (Z.land (Z.shiftr v 5) 31) = e1
  ∧ toUint8 (Z.land (Z.shiftr (Z.shiftr v 5) 5) 31) = e0.
Proof.
  intros H0 H1 H2 v. change 31 with (Z.ones 5).
  rewrite !Z.land_ones, !Z.shiftr_div_pow2 by lia. change (2 ^ 5) with 32.
  assert (v / 32 = e0 * 32 + e1) as Hq1.
  { symmetry. apply (Z.div_unique_pos v 32 _ e2); unfold v; lia. }
  assert (v mod 32 = e2) as Hr1.
  { symmetry. apply (Z.mod_unique_pos v 32 (e0 * 32 + e1)); unfold v; lia. }
  rewrite Hq1, Hr1.
  assert ((e0 * 32 + e1) / 32 = e0) as Hq2.
  { symmetry. apply (Z.div_unique_pos _ 32 _ e1); lia. }
  assert ((e0 * 32 + e1) mod 32 = e1) as Hr2.
  { symmetry. apply (Z.mod_unique_pos _ 32 e0); lia. }
  rewrite Hq2, Hr2. unfold toUint8.
  rewrite (Z.mod_small e0 32), !Z.mod_small by lia. done.
Qed.

Lemma decodeName_closed e0 e1 e2 :
  0 ≤ e0 ≤ 31 → 0 ≤ e1 ≤ 31 → 0 ≤ e2 ≤ 31 →
  decodeName (e0 * 1024 + e1 * 32 + e2)
  = cString [decodeLetter e0; decodeLetter e1; decodeLetter e2].
Proof.
  intros H0 H1 H2.
  destruct (low5_of_packed e0 e1 e2 H0 H1 H2) as (Hc2 & Hc1 & Hc0).
  unfold decodeName. cbn [fillName replicate]. rewrite Hc2, Hc1, Hc0.
  change (2 - 0)%nat with 2%nat. change (2 - 1)%nat with 1%nat.
  change (2 - 2)%nat with 0%nat.
  rewrite (store_char (decodeLetter e2)) by done.
  rewrite (store_char (decodeLetter e1)) by done.
  rewrite (store_char (decodeLetter e0)) by done.
  cbn [insert list_insert].
  apply (cString_snoc_zero [decodeLetter e0; decodeLetter e1; decodeLetter e2]).
Qed.

(** X14.  [addName] packs the first three characters of a name, and only
    those, into 15 bits: the value is
    [code0 * 2^10 + code1 * 2^5 + code2], where a character past the end of
    the name counts as code 0.  It is below [2^15], so the header bit is
    clear and no [int] of 16 bits overflows; a fourth character never
    matters, and neither does the case of a letter. *)
Theorem packName_packs_three_letters name :
  packName name
  = Some (encodeLetter (charAt name 0) * 1024
          + encodeLetter (charAt name 1) * 32
          + encodeLetter (charAt name 2))
  ∧ (∀ v, packName name = Some v → 0 ≤ v < 2 ^ 15)
  ∧ (∀ c0 c1 c2 rest,
       packName (String c0 (String c1 (String c2 rest)))
       = packName (String (lowerCase c0)
                     (String (lowerCase c1) (String (lowerCase c2) "")))).
Proof.
  split; [apply packName_closed|]. split.
  - intros v. rewrite packName_closed. intros [= <-].
    pose proof (encodeLetter_bounds (charAt name 0)).
    pose proof (encodeLetter_bounds (charAt name 1)).
    pose proof (encodeLetter_bounds (charAt name 2)). lia.
  - intros c0 c1 c2 rest. rewrite !packName_closed. f_equal.
    assert (∀ ch, encodeLetter (lowerCase ch) = encodeLetter ch) as Hlow.
    { intros ch. all_chars ch; reflexivity. }
    assert (∀ a b c r, charAt (String a (String b (String c r))) 0 = a
                       ∧ charAt (String a (String b (String c r))) 1 = b
                       ∧ charAt (String a (String b (String c r))) 2 = c) as Hat.
    { intros a b c r. unfold charAt, strLength. cbn [String.length].
      rewrite !(proj2 (Z.ltb_lt _ _)) by lia. done. }
    destruct (Hat c0 c1 c2 rest) as (-> & -> & ->).
    destruct (Hat (lowerCase c0) (lowerCase c1) (lowerCase c2) "")
      as (-> & -> & ->).
    by rewrite !Hlow.
Qed.

Lemma packName_packs_three_letters_witness : 0 ≤ 20912 < 2 ^ 15.
Proof.
  apply (proj1 (proj2 (packName_packs_three_letters "tmp")) 20912).
  reflexivity.
Defined.

Lemma charAt_head c s : charAt (String c s) 0 = c.
Proof.
  unfold charAt, strLength. cbn [String.length].
  by rewrite (proj2 (Z.ltb_lt _ _)) by lia.
Qed.

Lemma charAt_three a b c r :
  charAt (String a (String b (String c r))) 0 = a
  ∧ charAt (String a (String b (String c r))) 1 = b
  ∧ charAt (String a (String b (String c r))) 2 = c.
Proof.
  unfold charAt, strLength. cbn [String.length].
  by rewrite !(proj2 (Z.ltb_lt _ _)) by lia.
Qed.

Lemma foldLetter_encodable ch :
  encodable ch = true →
  foldLetter ch = lowerCase ch ∧ lowerCase ch ≠ "000"%char.
Proof. all_chars ch; intros; (discriminate || by split). Qed.

Lemma foldLetter_not_encodable ch :
  encodable ch = false → foldLetter ch = "000"%char.
Proof. unfold foldLetter. by intros ->. Qed.

Lemma decodeName_packName name v :
  packName name = Some v →
  decodeName v
  = cString [foldLetter (charAt name 0); foldLetter (charAt name 1);
             foldLetter (charAt name 2)].
Proof.
  rewrite packName_closed. intros [= <-].
  rewrite decodeName_closed by apply encodeLetter_bounds.
  by rewrite !decode_encode_fold.
Qed.

(** X15.  Unpacking what [addName] packed gives the name back in lower
    case, cut at the first character that has no code.  For any name the
    decoded name is the first three characters, each folded to lower case
    or to 0, read up to the first 0: three encodable characters come back
    as three lower-case characters, and a name whose first character has no
    code -- a digit 5 to 9, say -- comes back empty whatever follows. *)
Theorem name_round_trip_up_to_case :
  (∀ name v,
     packName name = Some v →
     decodeName v
     = cString [foldLetter (charAt name 0); foldLetter (charAt name 1);
                foldLetter (charAt name 2)])
  ∧ (∀ c0 c1 c2 rest,
       encodable c0 = true → encodable c1 = true → encodable c2 = true →
       ∃ v, packName (String c0 (String c1 (String c2 rest))) = Some v
            ∧ decodeName v
              = String (lowerCase c0)
                  (String (lowerCase c1) (String (lowerCase c2) "")))
  ∧ (∀ c0 rest,
       encodable c0 = false →
       ∃ v, packName (String c0 rest) = Some v ∧ decodeName v = "").
Proof.
  split; [apply decodeName_packName|]. split.
  - intros c0 c1 c2 rest He0 He1 He2. eexists. split; [apply packName_closed|].
    rewrite (decodeName_packName _ _ (packName_closed _)).
    destruct (charAt_three c0 c1 c2 rest) as (-> & -> & ->).
    destruct (foldLetter_encodable c0 He0) as [-> Hn0].
    destruct (foldLetter_encodable c1 He1) as [-> Hn1].
    destruct (foldLetter_encodable c2 He2) as [-> Hn2].
    cbn [cString]. by rewrite !decide_False.
  - intros c0 rest He0. eexists. split; [apply packName_closed|].
    rewrite (decodeName_packName _ _ (packName_closed _)).
    rewrite charAt_head, (foldLetter_not_encodable c0 He0). cbn [cString].
    by rewrite decide_True.
Qed.

Lemma name_round_trip_up_to_case_witness :
  (∃ v, packName "TmP9" = Some v ∧ decodeName v = "tmp")
  ∧ (∃ v, packName "9ab" = Some v ∧ decodeName v = "").
Proof.
  split.
  - apply (proj1 (proj2 name_round_trip_up_to_case)
             "T"%char "m"%char "P"%char "9"); reflexivity.
  - apply (proj2 (proj2 name_round_trip_up_to_case) "9"%char "ab").
    reflexivity.
Defined.

(** ** Building and sending a message *)

Lemma strLength_app s1 s2 : strLength (s1 +:+ s2) = strLength s1 + strLength s2.
Proof.
  assert (String.length (s1 +:+ s2) = (String.length s1 + String.length s2)%nat)
    as Hlen.
  { induction s1 as [|ch s1 IH]; [done|].
    change (String ch s1 +:+ s2) with (String ch (s1 +:+ s2)).
    cbn [String.length]. by rewrite IH. }
  unfold strLength. rewrite Hlen. lia.
Qed.

Lemma str_app_assoc s1 s2 s3 : (s1 +:+ s2) +:+ s3 = s1 +:+ s2 +:+ s3.
Proof.
  induction s1 as [|ch s1 IH]; [done|].
  change (String ch s1 +:+ s2) with (String ch (s1 +:+ s2)).
  change (String ch (s1 +:+ s2) +:+ s3) with (String ch ((s1 +:+ s2) +:+ s3)).
  by rewrite IH.
Qed.

Lemma strLength_nonneg s : 0 ≤ strLength s.
Proof. unfold strLength. lia. Qed.

Lemma noRoom_true MAX m :
  0 ≤ MAX * 2 < uintModulus →
  strLength (encodedMessage m) + 8 < uintModulus →
  MAX * 2 < strLength (encodedMessage m) + 8 →
  noRoom MAX m = true.
Proof.
  intros HM Hlen Hfull. unfold noRoom. pose proof (strLength_nonneg (encodedMessage m)).
  rewrite !Z.mod_small by lia. apply Z.ltb_lt. lia.
Qed.

Lemma noRoom_false MAX m :
  0 ≤ MAX * 2 < uintModulus →
  strLength (encodedMessage m) + 8 ≤ MAX * 2 →
  noRoom MAX m = false.
Proof.
  intros HM Hfits. unfold noRoom. pose proof (strLength_nonneg (encodedMessage m)).
  rewrite !Z.mod_small by lia. apply Z.ltb_ge. lia.
Qed.

Lemma selected_set_encodedMessage v m :
  selected (set_encodedMessage v m) = selected m.
Proof. done. Qed.

Lemma addName_spec name m t :
  selected m = Some t →
  ∃ v, packName name = Some v
       ∧ addName name m
         = Some (true, set_encodedMessage (encodedMessage m +:+ toHexUInt t v) m).
Proof.
  intros Ht. eexists. split; [apply packName_closed|].
  unfold addName. rewrite packName_closed. cbn [mbind option_bind].
  by rewrite Ht.
Qed.

Lemma addIntField_accepts MAX name value m t :
  selected m = Some t → noRoom MAX m = false →
  ∃ v, packName name = Some v
       ∧ addIntField MAX name value m
         = Some (true, set_encodedMessage
                         (encodedMessage m +:+ toHexUInt t v +:+ toHexInt t value) m).
Proof.
  intros Ht Hroom. destruct (addName_spec name m t Ht) as (v & Hv & Hadd).
  exists v. split; [done|]. unfold addIntField. rewrite Hroom, Hadd.
  cbn [mbind option_bind]. rewrite selected_set_encodedMessage, Ht.
  cbn [mbind option_bind]. unfold set_encodedMessage. cbn.
  by rewrite str_app_assoc.
Qed.

Lemma addField_String_accepts MAX name value m t :
  selected m = Some t → noRoom MAX m = false →
  ∃ v w, packName name = Some v ∧ packName value = Some w
         ∧ addField_String MAX name value m
           = Some (true, set_encodedMessage
                           (encodedMessage m +:+ toHexUInt t v +:+ toHexUInt t w) m).
Proof.
  intros Ht Hroom. destruct (addName_spec name m t Ht) as (v & Hv & Hadd).
  set (m1 := set_encodedMessage (encodedMessage m +:+ toHexUInt t v) m) in *.
  destruct (addName_spec value m1 t Ht) as (w & Hw & Hadd1).
  exists v, w. split; [done|]. split; [done|].
  unfold addField_String. rewrite Hroom, Hadd. cbn [mbind option_bind].
  rewrite Hadd1. cbn [mbind option_bind]. unfold m1, set_encodedMessage. cbn.
  by rewrite str_app_assoc.
Qed.

Lemma field_refused MAX m t :
  selected m = Some t → noRoom MAX m = true →
  ∀ name value svalue,
    addIntField MAX name value m = Some (false, echo (tooLong m) m)
    ∧ addField_String MAX name svalue m = Some (false, echo (tooLong m) m).
Proof.
  intros Ht Hroom name value svalue. unfold addIntField, addField_String.
  by rewrite Hroom, Ht.
Qed.

(** X16.  [addIntField] and [addField(name, String)] append a field at the
    end of the encoded message and never let it grow beyond
    [2 * MAX_BYTES_PER_MESSAGE] characters.  A field that fits is written
    after what the message already holds, the packed name first and then
    the value -- [toHex] of the [int] for [addIntField], [toHex] of the
    packed string for [addField(name, String)] -- nothing else changes and
    the call returns [true]; with a transceiver whose [toHex] writes four
    digits the message is then 8 characters longer and still within the
    capacity.  A field that does not fit leaves the encoded message as it
    was, echoes one error line that names the bytes already used, and the
    call returns [false]. *)
Theorem fields_keep_the_message_within_capacity MAX name value svalue m t :
  selected m = Some t →
  (∀ v, strLength (toHexUInt t v) = 4) →
  (∀ v, strLength (toHexInt t v) = 4) →
  0 ≤ MAX * 2 → MAX * 2 + 8 < uintModulus →
  strLength (encodedMessage m) ≤ MAX * 2 →
  ∃ v w,
    packName name = Some v ∧ packName svalue = Some w
    ∧ (strLength (encodedMessage m) + 8 ≤ MAX * 2 →
         addIntField MAX name value m
         = Some (true,
                 mkMessage (radiocrafts m) (akeru m)
                   (encodedMessage m +:+ toHexUInt t v +:+ toHexInt t value)
                   (echoed m))
         ∧ addField_String MAX name svalue m
           = Some (true,
                   mkMessage (radiocrafts m) (akeru m)
                     (encodedMessage m +:+ toHexUInt t v +:+ toHexUInt t w)
                     (echoed m))
         ∧ strLength (encodedMessage m +:+ toHexUInt t v +:+ toHexInt t value)
           = strLength (encodedMessage m) + 8
         ∧ strLength (encodedMessage m +:+ toHexUInt t v +:+ toHexUInt t w)
           = strLength (encodedMessage m) + 8)
    ∧ (MAX * 2 < strLength (encodedMessage m) + 8 →
         addIntField MAX name value m
         = Some (false,
                 mkMessage (radiocrafts m) (akeru m) (encodedMessage m)
                   (echoed m ++ [tooLong m]))
         ∧ addField_String MAX name svalue m
           = Some (false,
                   mkMessage (radiocrafts m) (akeru m) (encodedMessage m)
                     (echoed m ++ [tooLong m]))).
Proof.
  intros Ht HU HI HM0 HM Hlen.
  pose proof (strLength_nonneg (encodedMessage m)) as Hnn.
  exists (encodeLetter (charAt name 0) * 1024 + encodeLetter (charAt name 1) * 32
          + encodeLetter (charAt name 2)),
    (encodeLetter (charAt svalue 0) * 1024 + encodeLetter (charAt svalue 1) * 32
     + encodeLetter (charAt svalue 2)).
  split; [apply packName_closed|]. split; [apply packName_closed|]. split.
  - intros Hfits.
    assert (noRoom MAX m = false) as Hroom by (apply noRoom_false; lia).
    destruct (addIntField_accepts MAX name value m t Ht Hroom) as (v & Hv & HaddI).
    destruct (addField_String_accepts MAX name svalue m t Ht Hroom)
      as (v' & w & Hv' & Hw & HaddS).
    rewrite packName_closed in Hv, Hv', Hw.
    injection Hv as <-. injection Hv' as <-. injection Hw as <-.
    split; [exact HaddI|]. split; [exact HaddS|].
    rewrite !strLength_app, !HU, HI. lia.
  - intros Hfull.
    assert (noRoom MAX m = true) as Hroom by (apply noRoom_true; lia).
    exact (field_refused MAX m t Ht Hroom name value svalue).
Qed.

(** A transceiver that writes 16-bit values as four hexadecimal digits,
    low byte first, and accepts every message. *)
Lemma fields_keep_the_message_within_capacity_witness :
  ∃ v w,
    packName "tmp" = Some v ∧ packName "on" = Some w
    ∧ (strLength "b0551405" + 8 ≤ 12 * 2 →
         addIntField 12 "tmp" 255
           (mkMessage (Some (mkTransceiver (hexLowByteFirst false)
                               (hexLowByteFirst false) (λ _, true)))
              None "b0551405" [])
         = Some (true,
                 mkMessage (Some (mkTransceiver (hexLowByteFirst false)
                                    (hexLowByteFirst false) (λ _, true)))
                   None
                   ("b0551405" +:+ hexLowByteFirst false v
                    +:+ hexLowByteFirst false 255) [])
         ∧ addField_String 12 "tmp" "on"
             (mkMessage (Some (mkTransceiver (hexLowByteFirst false)
                                 (hexLowByteFirst false) (λ _, true)))
                None "b0551405" [])
           = Some (true,
                   mkMessage (Some (mkTransceiver (hexLowByteFirst false)
                                      (hexLowByteFirst false) (λ _, true)))
                     None
                     ("b0551405" +:+ hexLowByteFirst false v
                      +:+ hexLowByteFirst false w) [])
         ∧ strLength ("b0551405" +:+ hexLowByteFirst false v
                      +:+ hexLowByteFirst false 255)
           = strLength "b0551405" + 8
         ∧ strLength ("b0551405" +:+ hexLowByteFirst false v
                      +:+ hexLowByteFirst false w)
           = strLength "b0551405" + 8)
    ∧ (12 * 2 < strLength "b0551405" + 8 →
         addIntField 12 "tmp" 255
           (mkMessage (Some (mkTransceiver (hexLowByteFirst false)
                               (hexLowByteFirst false) (λ _, true)))
              None "b0551405" [])
         = Some (false,
                 mkMessage (Some (mkTransceiver (hexLowByteFirst false)
                                    (hexLowByteFirst false) (λ _, true)))
                   None "b0551405"
                   ([] ++ [tooLong
                             (mkMessage
                                (Some (mkTransceiver (hexLowByteFirst false)
                                         (hexLowByteFirst false) (λ _, true)))
                                None "b0551405" [])]))
         ∧ addField_String 12 "tmp" "on"
             (mkMessage (Some (mkTransceiver (hexLowByteFirst false)
                                 (hexLowByteFirst false) (λ _, true)))
                None "b0551405" [])
           = Some (false,
                   mkMessage (Some (mkTransceiver (hexLowByteFirst false)
                                      (hexLowByteFirst false) (λ _, true)))
                     None "b0551405"
                     ([] ++ [tooLong
                               (mkMessage
                                  (Some (mkTransceiver (hexLowByteFirst false)
                                           (hexLowByteFirst false) (λ _, true)))
                                  None "b0551405" [])]))).
Proof.
  apply (fields_keep_the_message_within_capacity 12 "tmp" 255 "on"
           (mkMessage (Some (mkTransceiver (hexLowByteFirst false)
                               (hexLowByteFirst false) (λ _, true)))
              None "b0551405" [])
           (mkTransceiver (hexLowByteFirst false) (hexLowByteFirst false)
              (λ _, true))); try reflexivity; by vm_compute.
Defined.

Lemma send_too_long MAX m t :
  selected m = Some t → 0 ≤ MAX * 2 < uintModulus →
  0 < strLength (encodedMessage m) → MAX * 2 ≤ strLength (encodedMessage m) →
  send MAX m = Some (false, echo (tooLong m) m).
Proof.
  intros Ht HM Hpos Hfull. unfold send, getEncodedMessage.
  rewrite Z.mod_small by done. rewrite (proj2 (Z.eqb_neq _ _)) by lia.
  rewrite (proj2 (Z.leb_le _ _)) by done. by rewrite Ht.
Qed.

(** X17.  [send] refuses an empty message and a message of
    [2 * MAX_BYTES_PER_MESSAGE] characters or more: it returns [false] and
    echoes an error without asking the transceiver.  Any other message is
    handed to the transceiver, whose answer is returned; the encoded
    message is kept in every case. *)
Theorem send_refuses_empty_and_full_messages MAX m t :
  selected m = Some t → 0 ≤ MAX * 2 < uintModulus →
  (strLength (encodedMessage m) = 0 →
     send MAX m = Some (false, echo "****ERROR: Nothing to send" m))
  ∧ (0 < strLength (encodedMessage m) → MAX * 2 ≤ strLength (encodedMessage m) →
       send MAX m = Some (false, echo (tooLong m) m))
  ∧ (0 < strLength (encodedMessage m) < MAX * 2 →
       send MAX m = Some (sendMessage t (encodedMessage m), m)).
Proof.
  intros Ht HM. split; [|split].
  - intros Hlen. unfold send, getEncodedMessage. by rewrite Hlen, Ht.
  - intros Hpos Hfull. by rewrite (send_too_long MAX m t).
  - intros [Hpos Hfits]. unfold send, getEncodedMessage.
    rewrite Z.mod_small by done. rewrite (proj2 (Z.eqb_neq _ _)) by lia.
    rewrite (proj2 (Z.leb_gt _ _)) by done. by rewrite Ht.
Qed.

Lemma send_refuses_empty_and_full_messages_witness :
  send 12 (mkMessage None (Some (mkTransceiver (hexLowByteFirst false)
                                   (hexLowByteFirst false) (λ _, true)))
             "b0551405" [])
  = Some (true, mkMessage None (Some (mkTransceiver (hexLowByteFirst false)
                                        (hexLowByteFirst false) (λ _, true)))
                  "b0551405" []).
Proof.
  apply (proj2 (proj2 (send_refuses_empty_and_full_messages 12
           (mkMessage None (Some (mkTransceiver (hexLowByteFirst false)
                                    (hexLowByteFirst false) (λ _, true)))
              "b0551405" [])
           (mkTransceiver (hexLowByteFirst false) (hexLowByteFirst false)
              (λ _, true)) eq_refl ltac:(by vm_compute)))).
  by vm_compute.
Defined.

(** X18.  The two capacity tests disagree at the boundary.  [addIntField]
    accepts a field that brings the message to exactly
    [2 * MAX_BYTES_PER_MESSAGE] characters, and [send] refuses a message of
    that length: a message filled to capacity is built without an error and
    can then never be sent. *)
Theorem message_filled_to_capacity_is_never_sent MAX name value m t :
  selected m = Some t →
  (∀ v, strLength (toHexUInt t v) = 4) →
  (∀ v, strLength (toHexInt t v) = 4) →
  MAX * 2 < uintModulus →
  strLength (encodedMessage m) + 8 = MAX * 2 →
  ∃ m',
    addIntField MAX name value m = Some (true, m')
    ∧ strLength (encodedMessage m') = MAX * 2
    ∧ echoed m' = echoed m
    ∧ send MAX m' = Some (false, echo (tooLong m') m').
Proof.
  intros Ht HU HI HM Hlen.
  pose proof (strLength_nonneg (encodedMessage m)) as Hnn.
  assert (noRoom MAX m = false) as Hroom by (apply noRoom_false; lia).
  destruct (addIntField_accepts MAX name value m t Ht Hroom) as (v & _ & Hadd).
  eexists. split; [exact Hadd|].
  set (m' := set_encodedMessage _ m).
  assert (strLength (encodedMessage m') = MAX * 2) as Hlen'.
  { unfold m', set_encodedMessage. cbn [encodedMessage].
    rewrite !strLength_app, HU, HI. lia. }
  split; [done|]. split; [done|].
  apply (send_too_long MAX m' t); [done|lia|lia|lia].
Qed.

Lemma message_filled_to_capacity_is_never_sent_witness :
  ∃ m',
    addIntField 12 "tmp" 255
      (mkMessage (Some (mkTransceiver (hexLowByteFirst false)
                          (hexLowByteFirst false) (λ _, true)))
         None "b0551405b0551405" [])
    = Some (true, m')
    ∧ strLength (encodedMessage m') = 12 * 2
    ∧ echoed m' = []
    ∧ send 12 m' = Some (false, echo (tooLong m') m').
Proof.
  apply (message_filled_to_capacity_is_never_sent 12 "tmp" 255
           (mkMessage (Some (mkTransceiver (hexLowByteFirst false)
                               (hexLowByteFirst false) (λ _, true)))
              None "b0551405b0551405" [])
           (mkTransceiver (hexLowByteFirst false) (hexLowByteFirst false)
              (λ _, true))); try reflexivity; by vm_compute.
Defined.

(** ** Decoding what was built *)

Lemma substring_nat_app_left a b n k :
  (n + k ≤ String.length a)%nat →
  String.substring n k (a +:+ b) = String.substring n k a.
Proof.
  revert n k. induction a as [|ch a IH]; intros n k Hle.
  - cbn in Hle. assert (n = 0%nat) as -> by lia. assert (k = 0%nat) as -> by lia.
    by destruct b.
  - change (String ch a +:+ b) with (String ch (a +:+ b)).
    cbn [String.length] in Hle. destruct n as [|n]; destruct k as [|k]; cbn; try done.
    + f_equal. apply IH. lia.
    + apply IH. lia.
    + apply IH. lia.
Qed.

Lemma substring_nat_app_right a b n k :
  String.substring (String.length a + n) k (a +:+ b) = String.substring n k b.
Proof.
  induction a as [|ch a IH]; [done|].
  change (String ch a +:+ b) with (String ch (a +:+ b)). by cbn.
Qed.

Lemma substring_app_left a b i j :
  0 ≤ i → i < strLength a → i ≤ j → j ≤ strLength a →
  substring (a +:+ b) i j = substring a i j.
Proof.
  intros Hi Hlt Hij Hj. unfold substring. rewrite strLength_app.
  pose proof (strLength_nonneg b) as Hb.
  rewrite !(proj2 (Z.leb_gt _ _)) by lia.
  rewrite !Z.min_l by lia. apply substring_nat_app_left.
  unfold strLength in *. lia.
Qed.

Lemma substring_app_right a b i j :
  0 ≤ i → i ≤ j →
  substring (a +:+ b) (strLength a + i) (strLength a + j) = substring b i j.
Proof.
  intros Hi Hij. unfold substring. rewrite strLength_app.
  pose proof (strLength_nonneg a) as Ha.
  destruct (Z.leb_spec (strLength b) i) as [Hle|Hgt].
  - by rewrite (proj2 (Z.leb_le _ _)) by lia.
  - rewrite (proj2 (Z.leb_gt _ _)) by lia.
    replace (Z.to_nat (strLength a + i)) with (String.length a + Z.to_nat i)%nat
      by (unfold strLength; lia).
    replace (Z.min (strLength a + j) (strLength a + strLength b) - (strLength a + i))
      with (Z.min j (strLength b) - i) by lia.
    apply substring_nat_app_right.
Qed.

Lemma str_app_cancel_r s1 s2 t : s1 +:+ t = s2 +:+ t → s1 = s2.
Proof.
  revert s2. induction s1 as [|c1 s1 IH]; intros [|c2 s2] Heq; [done|..].
  - apply (f_equal strLength) in Heq.
    change (String c2 s2 +:+ t) with (String c2 (s2 +:+ t)) in Heq.
    unfold strLength in Heq. cbn [String.length] in Heq.
    pose proof (strLength_app s2 t) as Hl. unfold strLength in Hl.
    change ("" +:+ t) with t in Heq. lia.
  - apply (f_equal strLength) in Heq.
    change (String c1 s1 +:+ t) with (String c1 (s1 +:+ t)) in Heq.
    unfold strLength in Heq. cbn [String.length] in Heq.
    pose proof (strLength_app s1 t) as Hl. unfold strLength in Hl.
    change ("" +:+ t) with t in Heq. lia.
  - change (String c1 s1 +:+ t) with (String c1 (s1 +:+ t)) in Heq.
    change (String c2 s2 +:+ t) with (String c2 (s2 +:+ t)) in Heq.
    injection Heq as -> Heq. f_equal. by apply IH.
Qed.

Lemma charAt_four a b c d :
  charAt (String a (String b (String c (String d "")))) 0 = a
  ∧ charAt (String a (String b (String c (String d "")))) 1 = b
  ∧ charAt (String a (String b (String c (String d "")))) 2 = c
  ∧ charAt (String a (String b (String c (String d "")))) 3 = d.
Proof. done. Qed.

Lemma hexGroup_hexLowByteFirst upper v :
  0 ≤ v < 2 ^ 15 → hexGroup (hexLowByteFirst upper v) = Some v.
Proof.
  intros Hv. unfold hexGroup, hexLowByteFirst.
  destruct (charAt_four (hexDigit upper (v / 16 mod 16)) (hexDigit upper (v mod 16))
              (hexDigit upper (v / 4096 mod 16)) (hexDigit upper (v / 256 mod 16)))
    as (-> & -> & -> & ->).
  rewrite !hexDigitToDecimal_hexDigit by (apply Z.mod_pos_bound; lia).
  rewrite !Z.shiftl_mul_pow2 by lia.
  assert (v / 4096 mod 16 = v / 4096) as ->.
  { apply Z.mod_small. split; [apply Z.div_pos; lia|].
    apply Z.div_lt_upper_bound; lia. }
  assert (0 ≤ v / 4096 < 8) as H3.
  { split; [apply Z.div_pos; lia|]. apply Z.div_lt_upper_bound; lia. }
  pose proof (Z.mod_pos_bound (v / 256) 16 ltac:(lia)) as H2.
  pose proof (Z.mod_pos_bound (v / 16) 16 ltac:(lia)) as H1.
  pose proof (Z.mod_pos_bound v 16 ltac:(lia)) as H0.
  assert (v = v / 4096 * 4096 + v / 256 mod 16 * 256 + v / 16 mod 16 * 16 + v mod 16)
    as Hsplit.
  { pose proof (Z.div_mod v 16 ltac:(lia)).
    pose proof (Z.div_mod (v / 16) 16 ltac:(lia)).
    pose proof (Z.div_mod (v / 256) 16 ltac:(lia)).
    replace (v / 256) with (v / 16 / 16) in * by (rewrite Z.div_div by lia; done).
    replace (v / 4096) with (v / 16 / 16 / 16) in *
      by (rewrite !Z.div_div by lia; done).
    lia. }
  unfold intMin, intMax, ulong_modulus.
  rewrite !checkedInt_fits by (unfold intMin, intMax; lia).
  cbn [mbind option_bind].
  rewrite !checkedInt_fits by (unfold intMin, intMax; lia).
  cbn [mbind option_bind].
  rewrite !checkedInt_fits by (unfold intMin, intMax; lia).
  cbn [mbind option_bind].
  rewrite !checkedInt_fits by (unfold intMin, intMax; lia).
  cbn [mbind option_bind]. f_equal. rewrite Z.mod_small by lia. lia.
Qed.

Lemma str_app_nil_r s : s +:+ "" = s.
Proof.
  induction s as [|ch s IH]; [done|].
  change (String ch s +:+ "") with (String ch (s +:+ "")). by rewrite IH.
Qed.

Lemma checkedInt_Some z z' : checkedInt z = Some z' → z' = z ∧ intMin ≤ z ≤ intMax.
Proof.
  unfold checkedInt. destruct (intMin <=? z) eqn:H1; [|done].
  destruct (z <=? intMax) eqn:H2; [|done]. intros [= <-].
  apply Z.leb_le in H1, H2. done.
Qed.

Lemma packName_range name v : packName name = Some v → 0 ≤ v < 2 ^ 15.
Proof.
  rewrite packName_closed. intros [= <-].
  pose proof (encodeLetter_bounds (charAt name 0)).
  pose proof (encodeLetter_bounds (charAt name 1)).
  pose proof (encodeLetter_bounds (charAt name 2)). lia.
Qed.

Lemma decodeField_app msg ext i result :
  0 ≤ i → i + 8 ≤ strLength msg →
  decodeField (msg +:+ ext) i result = decodeField msg i result.
Proof.
  intros Hi Hle. unfold decodeField.
  destruct (checkedInt (i + 4)) as [i4|] eqn:H4; [|done].
  destruct (checkedInt (i + 8)) as [i8|] eqn:H8; [|done].
  apply checkedInt_Some in H4 as [-> _]. apply checkedInt_Some in H8 as [-> _].
  cbn [mbind option_bind]. by rewrite !substring_app_left by lia.
Qed.

Lemma decodeLoop_fuel_mono fuel : ∀ fuel' msg i result r,
  decodeLoop fuel msg i result = Some r → (fuel ≤ fuel')%nat →
  decodeLoop fuel' msg i result = Some r.
Proof.
  induction fuel as [|fuel IH]; intros fuel' msg i result r Hrun Hle.
  - cbn [decodeLoop] in Hrun. destruct (i <? strLength msg) eqn:Hlt; [done|].
    destruct fuel'; cbn [decodeLoop]; by rewrite Hlt.
  - destruct fuel' as [|fuel']; [lia|]. cbn [decodeLoop] in *.
    destruct (i <? strLength msg); [|done].
    destruct (decodeField msg i result) as [result'|]; [|done].
    cbn [mbind option_bind] in *.
    destruct (checkedInt (i + 8)) as [i8|]; [|done].
    cbn [mbind option_bind] in *. apply IH; [done|lia].
Qed.

Lemma decodeLoop_exact_fuel n : ∀ fuel msg i result r,
  0 ≤ i → i + 8 * Z.of_nat n = strLength msg →
  decodeLoop fuel msg i result = Some r →
  decodeLoop n msg i result = Some r.
Proof.
  induction n as [|n IH]; intros fuel msg i result r Hi Hlen Hrun.
  - destruct fuel; cbn [decodeLoop] in *;
      by rewrite (proj2 (Z.ltb_ge _ _)) in * by lia.
  - destruct fuel as [|fuel]; cbn [decodeLoop] in *;
      rewrite (proj2 (Z.ltb_lt _ _)) in * by lia; [done|].
    destruct (decodeField msg i result) as [result'|]; [|done].
    cbn [mbind option_bind] in *.
    destruct (checkedInt (i + 8)) as [i8|] eqn:H8; [|done].
    cbn [mbind option_bind] in *. apply checkedInt_Some in H8 as [-> _].
    apply (IH fuel); [lia|lia|done].
Qed.

Lemma decodeLoop_app n : ∀ msg ext i result r fuel,
  0 ≤ i → i + 8 * Z.of_nat n = strLength msg →
  decodeLoop n msg i result = Some r →
  decodeLoop (n + fuel) (msg +:+ ext) i result
  = decodeLoop fuel (msg +:+ ext) (strLength msg) r.
Proof.
  induction n as [|n IH]; intros msg ext i result r fuel Hi Hlen Hrun.
  - cbn [decodeLoop] in Hrun. rewrite (proj2 (Z.ltb_ge _ _)) in Hrun by lia.
    injection Hrun as ->. cbn [Nat.add]. f_equal. lia.
  - cbn [decodeLoop Nat.add] in *. pose proof (strLength_nonneg ext).
    rewrite strLength_app. rewrite (proj2 (Z.ltb_lt _ _)) in Hrun by lia.
    rewrite (proj2 (Z.ltb_lt _ _)) by lia.
    rewrite decodeField_app by lia.
    destruct (decodeField msg i result) as [result'|]; [|done].
    cbn [mbind option_bind] in *.
    destruct (checkedInt (i + 8)) as [i8|] eqn:H8; [|done].
    cbn [mbind option_bind] in *. apply checkedInt_Some in H8 as [-> _].
    apply IH; [lia|lia|done].
Qed.

Lemma decodeField_appended upper msg v value result :
  0 ≤ v < 2 ^ 15 → 0 ≤ value < 2 ^ 15 → strLength msg + 8 ≤ intMax →
  decodeField (msg +:+ hexLowByteFirst upper v +:+ hexLowByteFirst upper value)
    (strLength msg) result
  = Some ((if 0 <? strLength msg then result +:+ "," else result)
          +:+ doubleQuote +:+ decodeName v +:+ quoteColon
          +:+ pretty (value / 10) +:+ "." +:+ pretty (value mod 10)).
Proof.
  intros Hv Hvalue Hlen. pose proof (strLength_nonneg msg) as Hnn.
  unfold decodeField.
  rewrite !checkedInt_fits by (unfold intMin, intMax in *; lia).
  cbn [mbind option_bind].
  set (g1 := hexLowByteFirst upper v). set (g2 := hexLowByteFirst upper value).
  pose proof (substring_app_right msg (g1 +:+ g2) 0 4 ltac:(lia) ltac:(lia)) as E1.
  rewrite Z.add_0_r in E1. rewrite E1.
  rewrite (substring_app_right msg (g1 +:+ g2) 4 8) by lia.
  rewrite (substring_app_left g1 g2 0 4) by (by vm_compute).
  pose proof (substring_app_right g1 g2 0 4 ltac:(lia) ltac:(lia)) as E2.
  change (strLength g1 + 0) with 4 in E2. change (strLength g1 + 4) with 8 in E2.
  rewrite E2.
  change (substring g1 0 4) with g1. change (substring g2 0 4) with g2.
  unfold g1, g2.
  rewrite !hexGroup_hexLowByteFirst by done. cbn [mbind option_bind].
  assert (0 ≤ value / 10 ≤ value) as Hq.
  { split; [apply Z.div_pos; lia|]. apply Z.div_le_upper_bound; lia. }
  pose proof (Z.mod_pos_bound value 10 ltac:(lia)) as Hr.
  rewrite !checkedInt_fits by (unfold intMin, intMax in *; lia).
  cbn [mbind option_bind]. by rewrite !str_app_assoc.
Qed.

Lemma decodeMessage_append upper msg v name value r :
  packName name = Some v → 0 ≤ value < 2 ^ 15 →
  strLength msg mod 8 = 0 → strLength msg + 8 ≤ intMax →
  decodeMessage msg = Some (r +:+ "}") →
  decodeMessage (msg +:+ hexLowByteFirst upper v +:+ hexLowByteFirst upper value)
  = Some (r +:+ (if 0 <? strLength msg then "," else "")
          +:+ fieldText name value +:+ "}").
Proof.
  intros Hname Hvalue Hgroups Hlen Hdec.
  pose proof (strLength_nonneg msg) as Hnn.
  set (field := hexLowByteFirst upper v +:+ hexLowByteFirst upper value).
  unfold decodeMessage in Hdec.
  destruct (decodeLoop (String.length msg) msg 0 "{") as [r'|] eqn:Hrun; [|done].
  cbn [mbind option_bind] in Hdec. injection Hdec as Hdec.
  apply str_app_cancel_r in Hdec as ->.
  set (n := Z.to_nat (strLength msg / 8)).
  assert (0 + 8 * Z.of_nat n = strLength msg) as Hn.
  { unfold n. rewrite Z2Nat.id by (apply Z.div_pos; lia).
    pose proof (Z.div_mod (strLength msg) 8 ltac:(lia)). lia. }
  apply (decodeLoop_exact_fuel n) in Hrun; [|lia|done].
  pose proof (decodeLoop_app n msg field 0 "{" r 1 ltac:(lia) Hn Hrun) as Happ.
  assert (decodeLoop 1 (msg +:+ field) (strLength msg) r
          = Some (r +:+ (if 0 <? strLength msg then "," else "")
                  +:+ fieldText name value)) as Hlast.
  { cbn [decodeLoop]. rewrite strLength_app.
    change (strLength field) with 8.
    rewrite (proj2 (Z.ltb_lt _ _)) by lia. unfold field.
    rewrite decodeField_appended by (done || by eapply packName_range).
    cbn [mbind option_bind].
    rewrite checkedInt_fits by (unfold intMin, intMax in *; lia).
    cbn [mbind option_bind]. rewrite (proj2 (Z.ltb_ge _ _)) by lia.
    rewrite (decodeName_packName name v Hname). unfold fieldText, decodedName.
    destruct (0 <? strLength msg); [by rewrite !str_app_assoc|reflexivity]. }
  rewrite Hlast in Happ. unfold decodeMessage.
  rewrite (decodeLoop_fuel_mono _ (String.length (msg +:+ field)) _ _ _ _ Happ).
  - cbn [mbind option_bind]. by rewrite !str_app_assoc.
  - pose proof (strLength_app msg field) as Hl. change (strLength field) with 8 in Hl.
    unfold strLength in *. lia.
Qed.

(** X19.  What [addIntField] writes, [decodeMessage] reads back.  With a
    transceiver whose [toHex] writes a 16-bit value as four hexadecimal
    digits, low byte first, adding a field with a value from 0 to 32767 to
    a message of whole fields adds exactly that field to the decoded text:
    a comma unless it is the first field, the name in quotes -- folded to
    lower case and cut at the first character without a code -- and the
    value divided by ten with one decimal. *)
Theorem added_field_is_decoded MAX upper name value m t r :
  selected m = Some t →
  (∀ v, 0 ≤ v < 2 ^ 15 → toHexUInt t v = hexLowByteFirst upper v) →
  (∀ v, 0 ≤ v < 2 ^ 15 → toHexInt t v = hexLowByteFirst upper v) →
  strLength (encodedMessage m) mod 8 = 0 →
  strLength (encodedMessage m) + 8 ≤ MAX * 2 → MAX * 2 ≤ intMax →
  0 ≤ value < 2 ^ 15 →
  decodeMessage (encodedMessage m) = Some (r +:+ "}") →
  ∃ m',
    addIntField MAX name value m = Some (true, m')
    ∧ decodeMessage (encodedMessage m')
      = Some (r +:+ (if 0 <? strLength (encodedMessage m) then "," else "")
              +:+ fieldText name value +:+ "}").
Proof.
  intros Ht HU HI Hgroups Hfits HM Hvalue Hdec.
  pose proof (strLength_nonneg (encodedMessage m)) as Hnn.
  assert (noRoom MAX m = false) as Hroom
    by (apply noRoom_false; unfold intMax, uintModulus in *; lia).
  destruct (addIntField_accepts MAX name value m t Ht Hroom) as (v & Hv & Hadd).
  eexists. split; [exact Hadd|]. unfold set_encodedMessage. cbn [encodedMessage].
  rewrite (HU v) by (by eapply packName_range). rewrite (HI value) by done.
  apply decodeMessage_append; [done|done|done|lia|done].
Qed.

Lemma added_field_is_decoded_witness :
  ∃ m',
    addIntField 12 "tmp" 255
      (mkMessage (Some (mkTransceiver (hexLowByteFirst false)
                          (hexLowByteFirst false) (λ _, true))) None "" [])
    = Some (true, m')
    ∧ decodeMessage (encodedMessage m')
      = Some ("{" +:+ (if 0 <? strLength "" then "," else "")
              +:+ fieldText "tmp" 255 +:+ "}").
Proof.
  apply (added_field_is_decoded 12 false "tmp" 255
           (mkMessage (Some (mkTransceiver (hexLowByteFirst false)
                               (hexLowByteFirst false) (λ _, true))) None "" [])
           (mkTransceiver (hexLowByteFirst false) (hexLowByteFirst false)
              (λ _, true)) "{"); try reflexivity; by vm_compute.
Defined.

(** X20.  An integer field comes back with one decimal.  [addField(name,
    int)] stores ten times the value; for a value from 0 to 3276 -- the
    largest whose tenfold fits the 16-bit [int] -- and a transceiver that
    writes four hexadecimal digits, low byte first, [decodeMessage] prints
    the field as the value followed by [.0]. *)
Theorem integer_field_is_decoded_with_one_decimal MAX upper name value m t r :
  selected m = Some t →
  (∀ v, 0 ≤ v < 2 ^ 15 → toHexUInt t v = hexLowByteFirst upper v) →
  (∀ v, 0 ≤ v < 2 ^ 15 → toHexInt t v = hexLowByteFirst upper v) →
  strLength (encodedMessage m) mod 8 = 0 →
  strLength (encodedMessage m) + 8 ≤ MAX * 2 → MAX * 2 ≤ intMax →
  0 ≤ value ≤ 3276 →
  decodeMessage (encodedMessage m) = Some (r +:+ "}") →
  ∃ m',
    addField_int MAX name value m = Some (true, m')
    ∧ decodeMessage (encodedMessage m')
      = Some (r +:+ (if 0 <? strLength (encodedMessage m) then "," else "")
              +:+ doubleQuote +:+ decodedName name +:+ quoteColon +:+ pretty value
              +:+ ".0" +:+ "}").
Proof.
  intros Ht HU HI Hgroups Hfits HM Hvalue Hdec.
  pose proof (strLength_nonneg (encodedMessage m)) as Hnn.
  assert (noRoom MAX m = false) as Hroom
    by (apply noRoom_false; unfold intMax, uintModulus in *; lia).
  destruct (addIntField_accepts MAX name (value * 10) m t Ht Hroom)
    as (v & Hv & Hadd).
  eexists. split.
  - unfold addField_int.
    rewrite checkedInt_fits by (unfold intMin, intMax; lia). exact Hadd.
  - unfold set_encodedMessage. cbn [encodedMessage].
    rewrite (HU v) by (by eapply packName_range). rewrite (HI (value * 10)) by lia.
    rewrite (decodeMessage_append upper _ v name (value * 10) r);
      [|done|lia|done|lia|done].
    unfold fieldText. rewrite Z.div_mul, Z.mod_mul by lia.
    by rewrite !str_app_assoc.
Qed.

Lemma integer_field_is_decoded_with_one_decimal_witness :
  ∃ m',
    addField_int 12 "tmp" 25
      (mkMessage (Some (mkTransceiver (hexLowByteFirst false)
                          (hexLowByteFirst false) (λ _, true))) None "" [])
    = Some (true, m')
    ∧ decodeMessage (encodedMessage m')
      = Some ("{" +:+ (if 0 <? strLength "" then "," else "")
              +:+ doubleQuote +:+ decodedName "tmp" +:+ quoteColon +:+ pretty 25
              +:+ ".0" +:+ "}").
Proof.
  apply (integer_field_is_decoded_with_one_decimal 12 false "tmp" 25
           (mkMessage (Some (mkTransceiver (hexLowByteFirst false)
                               (hexLowByteFirst false) (λ _, true))) None "" [])
           (mkTransceiver (hexLowByteFirst false) (hexLowByteFirst false)
              (λ _, true)) "{"); try reflexivity; by vm_compute.
Defined.
